(** * Enkidu link engine: wiki-link parser, resolver and link index

    A shallow embedding of the link engine of the Enkidu CLI and the
    properties of its specification.  The TypeScript text embedded here is
    - [core/link/parser.ts]: [extractWikiLinks], [parseWikiLink],
      [isValidWikiLink], [createWikiLink]
      (in the sources after [core/link/__tests__/parser.test.ts], lines
      665-786);
    - [core/link/resolver.ts]: [resolveWikiLink], [findNoteByLink],
      [findSimilarNotes], [findDailyNote], [levenshteinDistance]
      (same file, lines 426-664);
    - the class [LinkIndex] and [loadOrBuildLinkIndex]
      (in the sources after [core/sync/link-converter.ts], lines 238-624);
    - [types/link.ts] for the records.

    JavaScript strings are sequences of UTF-16 code units; a code unit is a
    number ([N]), a string a list of them.  [String.length], indices,
    [split], [trim] and regular expressions without the [u] flag all work on
    code units, so the embedding does too. *)

From Stdlib Require Import List NArith ZArith Arith Bool Lia.
From Stdlib Require String Ascii.
From Stdlib Require Import Permutation Sorted.
Import ListNotations.
Import String.StringSyntax.
Delimit Scope string_scope with string.

Set Implicit Arguments.

(* ===================================================================== *)
(** ** JavaScript strings *)
(* ===================================================================== *)

Module JS.

Definition char16 := N.
Definition jsstring := list char16.

(** A string literal of the source, as its code units (ASCII literals only). *)
Definition lit (s : String.string) : jsstring :=
  List.map Ascii.N_of_ascii (String.list_ascii_of_string s).
Arguments lit s%_string.

Fixpoint str_eqb (a b : jsstring) : bool :=
  match a, b with
  | [], [] => true
  | x :: a', y :: b' => N.eqb x y && str_eqb a' b'
  | _, _ => false
  end.

(** [a < b] on strings: lexicographic on code units. *)
Fixpoint str_ltb (a b : jsstring) : bool :=
  match a, b with
  | _, [] => false
  | [], _ :: _ => true
  | x :: a', y :: b' => N.ltb x y || (N.eqb x y && str_ltb a' b')
  end.

(** [s.slice(i, j)] for [0 <= i], [0 <= j]. *)
Definition slice (s : jsstring) (i j : nat) : jsstring :=
  firstn (j - i) (skipn i s).

(** [arr.slice(0, n)] with the sign rules of [Array.prototype.slice]: a
    negative end counts from the end of the array. *)
Definition slice0 {A} (l : list A) (n : Z) : list A :=
  if (n <? 0)%Z
  then firstn (Z.to_nat (Z.max (Z.of_nat (length l) + n) 0)) l
  else firstn (Z.to_nat n) l.

Definition LF : char16 := 10%N.

(** [s.split("\n")]: never empty, [""] splits to [[""]]. *)
Fixpoint split_lines (s : jsstring) : list jsstring :=
  match s with
  | [] => [[]]
  | c :: r =>
      if N.eqb c LF then [] :: split_lines r
      else match split_lines r with
           | l :: ls => (c :: l) :: ls
           | [] => [[c]]
           end
  end.

(** WhiteSpace and LineTerminator code points of ECMAScript, the characters
    [String.prototype.trim] strips. *)
Definition isWhiteSpace (c : char16) : bool :=
  ((9 <=? c) && (c <=? 13) || (c =? 32) || (c =? 160) || (c =? 5760)
   || ((8192 <=? c) && (c <=? 8202)) || (c =? 8232) || (c =? 8233)
   || (c =? 8239) || (c =? 8287) || (c =? 12288) || (c =? 65279))%N.

Fixpoint trimStart (s : jsstring) : jsstring :=
  match s with
  | c :: r => if isWhiteSpace c then trimStart r else s
  | [] => []
  end.

Definition trimEnd (s : jsstring) : jsstring := rev (trimStart (rev s)).

Definition trim (s : jsstring) : jsstring := trimEnd (trimStart s).

Definition isDigit (c : char16) : bool := ((48 <=? c) && (c <=? 57))%N.

End JS.
Import JS.

(* ===================================================================== *)
(** ** Backtracking regular-expression matching *)
(* ===================================================================== *)

(** A pattern is the list of all the ways it matches a prefix of the input,
    in the order a backtracking engine tries them; the engine commits to the
    first one that lets the rest of the pattern succeed, which is the head of
    the list for the whole pattern. *)
Module RegExp.

Definition Matcher (A : Type) := jsstring -> list (A * jsstring).

Definition ret {A} (a : A) : Matcher A := fun s => [(a, s)].

Definition bind {A B} (m : Matcher A) (f : A -> Matcher B) : Matcher B :=
  fun s => flat_map (fun ar => f (fst ar) (snd ar)) (m s).

(** A literal character. *)
Definition chr (c : char16) : Matcher unit :=
  fun s => match s with
           | x :: r => if N.eqb x c then [(tt, r)] else []
           | [] => []
           end.

(** [[...]+] for a character class, greedy: the longest run first, then
    each shorter one. *)
Fixpoint class_plus (p : char16 -> bool) (s : jsstring)
  : list (jsstring * jsstring) :=
  match s with
  | x :: r =>
      if p x
      then List.map (fun mr => (x :: fst mr, snd mr)) (class_plus p r)
           ++ [([x], r)]
      else []
  | [] => []
  end.

(** [(?: ... )?], greedy: with the group first, then without. *)
Definition opt {A} (m : Matcher A) : Matcher (option A) :=
  fun s => List.map (fun ar => (Some (fst ar), snd ar)) (m s) ++ [(None, s)].

(** The result of [exec]: [index], [m0] the matched text ([match[0]]) and the
    two capture groups; a group that took no part is [undefined]. *)
Record RegExpExecArray := {
  index : nat;
  m0 : jsstring;
  m1 : jsstring;
  m2 : option jsstring
}.

End RegExp.
Import RegExp.

Notation "x <- m ;; k" := (RegExp.bind m (fun x => k))
  (at level 61, m at next level, right associativity).

(* ===================================================================== *)
(** ** core/link/parser.ts *)
(* ===================================================================== *)

Record WikiLink := {
  raw : jsstring;
  target : jsstring;
  displayText : option jsstring;
  startIndex : nat;
  endIndex : nat;
  line : option nat
}.

Definition LBRACKET : char16 := 91%N.
Definition RBRACKET : char16 := 93%N.
Definition PIPE : char16 := 124%N.

(** [[^\]|]] *)
Definition target_char (c : char16) : bool :=
  negb (N.eqb c RBRACKET || N.eqb c PIPE).

(** [[^\]]] *)
Definition display_char (c : char16) : bool := negb (N.eqb c RBRACKET).

(** [/\[\[([^\]|]+)(?:\|([^\]]+))?\]\]/] *)
Definition WIKI_LINK_REGEX : Matcher (jsstring * option jsstring) :=
  _ <- chr LBRACKET ;;
  _ <- chr LBRACKET ;;
  g1 <- class_plus target_char ;;
  g2 <- opt (_ <- chr PIPE ;; class_plus display_char) ;;
  _ <- chr RBRACKET ;;
  _ <- chr RBRACKET ;;
  ret (g1, g2).

(** One attempt of the pattern at the start of [s]: the matched text and the
    groups of the first way that succeeds. *)
Definition match_here (s : jsstring)
  : option (jsstring * jsstring * option jsstring) :=
  match WIKI_LINK_REGEX s with
  | (g, rest) :: _ => Some (firstn (length s - length rest) s, fst g, snd g)
  | [] => None
  end.

(** The leftmost position from which the pattern matches, scanning [s], the
    part of the input that starts at position [i]. *)
Fixpoint search (s : jsstring) (i : nat) : option RegExpExecArray :=
  match match_here s with
  | Some (r, g1, g2) => Some {| index := i; m0 := r; m1 := g1; m2 := g2 |}
  | None =>
      match s with
      | [] => None
      | _ :: s' => search s' (S i)
      end
  end.

(** [WIKI_LINK_REGEX.exec(str)] for the global ([g]) regular expression, whose
    [lastIndex] is state: the search starts there; a match moves [lastIndex]
    past it, a failure resets it to 0.  Returns the match and the new
    [lastIndex]. *)
Definition exec (str : jsstring) (lastIndex : nat)
  : option RegExpExecArray * nat :=
  if length str <? lastIndex then (None, 0)
  else match search (skipn lastIndex str) lastIndex with
       | Some m => (Some m, index m + length (m0 m))
       | None => (None, 0)
       end.

(** The body of [while ((match = WIKI_LINK_REGEX.exec(line)) !== null)].  The
    loop is bounded by [fuel]; [S (length line)] rounds are always enough
    (lemma [exec_loop_fuel] below), since every match is not empty. *)
Fixpoint exec_loop (fuel : nat) (ln : jsstring) (lineStart lineNumber : nat)
    (lastIndex : nat) (links : list WikiLink) : list WikiLink :=
  match fuel with
  | 0 => links
  | S fuel' =>
      match exec ln lastIndex with
      | (Some m, lastIndex') =>
          let raw := m0 m in
          let target := trim (m1 m) in
          let displayText := option_map trim (m2 m) in
          let startIndex := lineStart + index m in
          let endIndex := startIndex + length raw in
          exec_loop fuel' ln lineStart lineNumber lastIndex'
            (links ++ [{| raw := raw; target := target;
                          displayText := displayText;
                          startIndex := startIndex; endIndex := endIndex;
                          line := Some (lineNumber + 1) |}])
      | (None, _) => links
      end
  end.

(** The [for] loop over the lines, with [currentIndex] and [lineNumber]. *)
Fixpoint for_lines (lines : list jsstring) (lineNumber currentIndex : nat)
    (links : list WikiLink) : list WikiLink :=
  match lines with
  | [] => links
  | ln :: rest =>
      let lineStart := currentIndex in
      let links' :=
        exec_loop (S (length ln)) ln lineStart lineNumber 0 links in
      for_lines rest (S lineNumber) (currentIndex + (length ln + 1)) links'
  end.

Definition extractWikiLinks (content : jsstring) : list WikiLink :=
  for_lines (split_lines content) 0 0 [].

Definition parseWikiLink (linkText : jsstring) : option WikiLink :=
  match fst (exec linkText 0) with
  | None => None
  | Some m =>
      Some {| raw := m0 m; target := trim (m1 m);
              displayText := option_map trim (m2 m);
              startIndex := 0; endIndex := length (m0 m);
              line := None |}
  end.

Definition isValidWikiLink (text : jsstring) : bool :=
  match fst (exec text 0) with
  | Some m => str_eqb (m0 m) text
  | None => false
  end.

(** [if (displayText)] is false for [undefined] and for the empty string. *)
Definition truthy (s : option jsstring) : bool :=
  match s with
  | Some (_ :: _) => true
  | _ => false
  end.

Definition createWikiLink (target : jsstring) (displayText : option jsstring)
  : jsstring :=
  match displayText with
  | Some d =>
      if truthy displayText
      then lit "[[" ++ target ++ lit "|" ++ d ++ lit "]]"
      else lit "[[" ++ target ++ lit "]]"
  | None => lit "[[" ++ target ++ lit "]]"
  end.

(* ===================================================================== *)
(** ** The host: file system, [path] and string built-ins *)
(* ===================================================================== *)

(** What the engine takes from its surroundings.  [listFilesRecursive] and
    [readFile] are the helpers of [utils/fs.ts], which sit directly on
    [readdirSync], [statSync] and [readFileSync]; [None] is a thrown error.
    [slugify] is [utils/slug.ts], whose text is not among the sources: the
    resolver is modelled for any such function. *)
Record Host := {
  fileExists : jsstring -> bool;
  listFilesRecursive : jsstring -> jsstring -> option (list jsstring);
  readFile : jsstring -> option jsstring;
  join : list jsstring -> jsstring;
  basename : jsstring -> jsstring -> jsstring;
  toLowerCase : jsstring -> jsstring;
  slugify : jsstring -> jsstring
}.

(** Evaluation in the presence of thrown errors and undefined values. *)
Notation "'let?' x ':=' m 'in' k" :=
  (match m with Some x => k | None => None end)
  (at level 10, x pattern, m at level 100, k at level 200).

(** [for (let i = lo; i < lo + n; i++) body]: the indices as a list. *)
Fixpoint for_each {S : Type} (idx : list nat) (body : nat -> S -> option S)
    (s : S) : option S :=
  match idx with
  | [] => Some s
  | i :: rest => let? s' := body i s in for_each rest body s'
  end.

(** [arr.sort(cmp)].  The sort of ECMAScript 2019 is stable, and for a
    comparator that is a consistent ordering its result is that of any stable
    sort; insertion is the one written here.  [cmp x y > 0] asks for [y]
    first. *)
Fixpoint sort_insert {A} (cmp : A -> A -> Z) (x : A) (l : list A) : list A :=
  match l with
  | [] => [x]
  | y :: l' =>
      if (0 <? cmp x y)%Z then y :: sort_insert cmp x l' else x :: y :: l'
  end.

Fixpoint sort {A} (cmp : A -> A -> Z) (l : list A) : list A :=
  match l with
  | [] => []
  | x :: l' => sort_insert cmp x (sort cmp l')
  end.

(* ===================================================================== *)
(** ** core/link/parser.ts: replaceWikiLinks *)
(* ===================================================================== *)

(** [s.slice(i)] for [0 <= i]. *)
Definition slice_from (s : jsstring) (i : nat) : jsstring := skipn i s.

(** [b.startIndex - a.startIndex] *)
Definition by_start_desc (a b : WikiLink) : Z :=
  (Z.of_nat (startIndex b) - Z.of_nat (startIndex a))%Z.

(** The links are replaced from the last to the first, each in the result
    of the replacements before it. *)
Definition replaceWikiLinks (content : jsstring)
    (replacer : WikiLink -> jsstring) : jsstring :=
  let links := extractWikiLinks content in
  let sortedLinks := sort by_start_desc links in
  fold_left
    (fun result link =>
       let replacement := replacer link in
       slice result 0 (startIndex link)
         ++ replacement ++ slice_from result (endIndex link))
    sortedLinks content.

(* ===================================================================== *)
(** ** core/link/resolver.ts *)
(* ===================================================================== *)

Module ResolvedLink.
Record t := {
  link : WikiLink;
  resolvedPath : option jsstring;
  exists_ : bool;
  suggestions : option (list jsstring)
}.
End ResolvedLink.

(** *** levenshteinDistance *)

(** [number[][]]: rows of a matrix that the code fills cell by cell. *)
Definition Matrix := list (list nat).

(** [arr[i] = v] on an array without holes: inside the array it replaces,
    at its end it appends.  Further out JavaScript would leave holes, which
    the model does not represent: [None]. *)
Definition arr_set {A} (l : list A) (i : nat) (v : A) : option (list A) :=
  if i <? length l then Some (firstn i l ++ v :: skipn (S i) l)
  else if i =? length l then Some (l ++ [v])
  else None.

(** [matrix[i][j]]; [None] is [undefined], a cell that was never written. *)
Definition mget (m : Matrix) (i j : nat) : option nat :=
  let? r := nth_error m i in nth_error r j.

(** [matrix[i][j] = v]. *)
Definition mset (m : Matrix) (i j : nat) (v : nat) : option Matrix :=
  let? r := nth_error m i in
  let? r' := arr_set r j v in
  arr_set m i r'.

(** [s.charAt(k)]; [None] is the empty string of an index out of range. *)
Definition charAt (s : jsstring) (k : nat) : option char16 := nth_error s k.

Definition charAt_eqb (x y : option char16) : bool :=
  match x, y with
  | Some c, Some d => N.eqb c d
  | None, None => true
  | _, _ => false
  end.

Definition min3 (x y z : nat) : nat := Nat.min x (Nat.min y z).

(** The cell [matrix[i][j]] of the main loop. *)
Definition lev_cell (a b : jsstring) (i j : nat) (matrix : Matrix)
  : option Matrix :=
  if charAt_eqb (charAt b (i - 1)) (charAt a (j - 1))
  then
    let? d := mget matrix (i - 1) (j - 1) in
    mset matrix i j d
  else
    let? sub := mget matrix (i - 1) (j - 1) in
    let? ins := mget matrix i (j - 1) in
    let? del := mget matrix (i - 1) j in
    mset matrix i j (min3 (sub + 1) (ins + 1) (del + 1)).

(** [None] would be a read of a cell that was never written, or a write that
    leaves a hole; [levenshteinDistance_defined] shows there is none. *)
Definition levenshteinDistance (a b : jsstring) : option nat :=
  let? m1 :=
    for_each (seq 0 (S (length b))) (fun i matrix => arr_set matrix i [i]) []
  in
  let? m2 :=
    for_each (seq 0 (S (length a))) (fun j matrix => mset matrix 0 j j) m1
  in
  let? m3 :=
    for_each (seq 1 (length b))
      (fun i matrix => for_each (seq 1 (length a)) (lev_cell a b i) matrix)
      m2
  in
  mget m3 (length b) (length a).

Section Resolver.

Variable h : Host.

(** One of the three [if (fileExists(dir)) files.push(...)] of
    [getAllMarkdownFiles]; [None] when the listing throws. *)
Definition scan_root (pkmRoot : jsstring) (name : jsstring)
    (files : list jsstring) : option (list jsstring) :=
  let dir := join h [pkmRoot; name] in
  if fileExists h dir
  then let? found := listFilesRecursive h dir (lit ".md") in
       Some (files ++ found)
  else Some files.

(** The [try] block stops at the first listing that throws; the files pushed
    before it are kept. *)
Definition getAllMarkdownFiles (pkmRoot : jsstring) : list jsstring :=
  match scan_root pkmRoot (lit "notes") [] with
  | None => []
  | Some f1 =>
      match scan_root pkmRoot (lit "blog") f1 with
      | None => f1
      | Some f2 =>
          match scan_root pkmRoot (lit "daily") f2 with
          | None => f2
          | Some f3 => f3
          end
      end
  end.

(** [n] digits ([\d{n}]) at the start of [s], and what follows them. *)
Fixpoint digits (n : nat) (s : jsstring) : option (jsstring * jsstring) :=
  match n with
  | 0 => Some ([], s)
  | S n' =>
      match s with
      | c :: r =>
          if isDigit c
          then let? (ds, r') := digits n' r in Some (c :: ds, r')
          else None
      | [] => None
      end
  end.

(** An optional separator at the start of [s]. *)
Definition separator (sep : option char16) (s : jsstring) : option jsstring :=
  match sep with
  | None => Some s
  | Some c =>
      match s with
      | x :: r => if N.eqb x c then Some r else None
      | [] => None
      end
  end.

(** [target.match(/^(\d{4})SEP(\d{2})SEP(\d{2})$/)]: year, month and day. *)
Definition match_date (sep : option char16) (target : jsstring)
  : option (jsstring * jsstring * jsstring) :=
  let? (year, r1) := digits 4 target in
  let? r2 := separator sep r1 in
  let? (month, r3) := digits 2 r2 in
  let? r4 := separator sep r3 in
  let? (day, r5) := digits 2 r4 in
  match r5 with
  | [] => Some (year, month, day)
  | _ :: _ => None
  end.

(** The patterns YYYY-MM-DD, YYYY/MM/DD and YYYYMMDD. *)
Definition datePatterns : list (option char16) :=
  [Some 45%N; Some 47%N; None].

Fixpoint findDailyNote_loop (patterns : list (option char16))
    (target pkmRoot : jsstring) : option jsstring :=
  match patterns with
  | [] => None
  | pattern :: rest =>
      match match_date pattern target with
      | Some (year, month, day) =>
          let dailyPath :=
            join h [pkmRoot; lit "daily"; year; month; day ++ lit ".md"] in
          if fileExists h dailyPath then Some dailyPath
          else findDailyNote_loop rest target pkmRoot
      | None => findDailyNote_loop rest target pkmRoot
      end
  end.

Definition findDailyNote (target pkmRoot : jsstring) : option jsstring :=
  findDailyNote_loop datePatterns target pkmRoot.

(** [if (x) return x]: the value when it is truthy, that is found and not the
    empty string; otherwise what comes next. *)
Definition or_else (x : option jsstring) (next : option jsstring)
  : option jsstring :=
  if truthy x then x else next.

Definition findNoteByLink (target pkmRoot : jsstring) : option jsstring :=
  let allFiles := getAllMarkdownFiles pkmRoot in
  let exactMatch :=
    find (fun file => str_eqb (basename h file (lit ".md")) target) allFiles in
  or_else exactMatch (
  let lowerTarget := toLowerCase h target in
  let caseInsensitiveMatch :=
    find (fun file =>
            str_eqb (toLowerCase h (basename h file (lit ".md"))) lowerTarget)
         allFiles in
  or_else caseInsensitiveMatch (
  let slugifiedTarget := slugify h target in
  let slugifiedMatch :=
    find (fun file =>
            let slug := basename h file (lit ".md") in
            str_eqb slug slugifiedTarget
            || str_eqb (toLowerCase h slug) slugifiedTarget)
         allFiles in
  or_else slugifiedMatch (
  let dailyMatch := findDailyNote target pkmRoot in
  or_else dailyMatch None))).

(** The items [{ slug, score }] of [findSimilarNotes]. *)
Record Scored := { slug : jsstring; score : option nat }.

(** [item.score <= 5]; a comparison with [undefined] is false. *)
Definition close_enough (item : Scored) : bool :=
  match score item with
  | Some d => d <=? 5
  | None => false
  end.

(** [a.score - b.score]; a comparator result that is not a number counts
    as 0. *)
Definition by_score (a b : Scored) : Z :=
  match score a, score b with
  | Some x, Some y => Z.of_nat x - Z.of_nat y
  | _, _ => 0
  end.

Definition findSimilarNotes (target pkmRoot : jsstring) (maxSuggestions : Z)
  : list jsstring :=
  let allFiles := getAllMarkdownFiles pkmRoot in
  let allSlugs := List.map (fun file => basename h file (lit ".md")) allFiles in
  let scored :=
    slice0
      (sort by_score
         (filter close_enough
            (List.map
               (fun slug =>
                  {| slug := slug;
                     score := levenshteinDistance (toLowerCase h target)
                                                  (toLowerCase h slug) |})
               allSlugs)))
      maxSuggestions in
  List.map slug scored.

Definition resolveWikiLink (linkTarget pkmRoot : jsstring) : ResolvedLink.t :=
  let link :=
    {| raw := lit "[[" ++ linkTarget ++ lit "]]";
       target := linkTarget;
       displayText := None;
       startIndex := 0;
       endIndex := length linkTarget + 4;
       line := None |} in
  let resolvedPath := findNoteByLink linkTarget pkmRoot in
  if truthy resolvedPath
  then {| ResolvedLink.link := link;
          ResolvedLink.resolvedPath := resolvedPath;
          ResolvedLink.exists_ := true;
          ResolvedLink.suggestions := None |}
  else
    let suggestions := findSimilarNotes linkTarget pkmRoot 5 in
    {| ResolvedLink.link := link;
       ResolvedLink.resolvedPath := None;
       ResolvedLink.exists_ := false;
       ResolvedLink.suggestions := Some suggestions |}.

End Resolver.

(** The batch form and the existence test of [resolver.ts]. *)
Section ResolverBatch.

Variable h : Host.

Definition resolveWikiLinks (links : list WikiLink) (pkmRoot : jsstring)
  : list ResolvedLink.t :=
  List.map (fun link => resolveWikiLink h (target link) pkmRoot) links.

(** [findNoteByLink(target, pkmRoot) !== null] *)
Definition linkExists (target pkmRoot : jsstring) : bool :=
  match findNoteByLink h target pkmRoot with
  | Some _ => true
  | None => false
  end.

End ResolverBatch.

(* ===================================================================== *)
(** ** core/link/index.ts *)
(* ===================================================================== *)

Module LinkReference.
Record t := {
  sourceSlug : jsstring;
  sourcePath : jsstring;
  link : WikiLink
}.
End LinkReference.

Module LinkIndexEntry.
Record t := {
  slug : jsstring;
  filePath : jsstring;
  outgoingLinks : list WikiLink;
  incomingLinks : list LinkReference.t
}.
End LinkIndexEntry.

Module BrokenLink.
Record t := {
  sourceSlug : jsstring;
  sourcePath : jsstring;
  link : WikiLink;
  suggestions : option (list jsstring)
}.
End BrokenLink.

(** [Map<string, V>]: the entries in insertion order, no key twice. *)
Module JSMap.

Definition t (V : Type) := list (jsstring * V).

Fixpoint get {V} (m : t V) (k : jsstring) : option V :=
  match m with
  | [] => None
  | (k', v) :: m' => if str_eqb k' k then Some v else get m' k
  end.

Definition has {V} (m : t V) (k : jsstring) : bool :=
  match get m k with Some _ => true | None => false end.

(** [m.set(k, v)]: a present key keeps its place, a new one goes last. *)
Fixpoint set {V} (m : t V) (k : jsstring) (v : V) : t V :=
  match m with
  | [] => [(k, v)]
  | (k', v') :: m' =>
      if str_eqb k' k then (k', v) :: m' else (k', v') :: set m' k v
  end.

(** The value under [k] changed in place, as a method called on [m.get(k)]
    changes the object the map holds. *)
Fixpoint update {V} (m : t V) (k : jsstring) (f : V -> V) : t V :=
  match m with
  | [] => []
  | (k', v) :: m' =>
      if str_eqb k' k then (k', f v) :: m' else (k', v) :: update m' k f
  end.

Definition entries {V} (m : t V) : list (jsstring * V) := m.
Definition values {V} (m : t V) : list V := List.map snd m.
Definition size {V} (m : t V) : nat := length m.

End JSMap.

(** The statistics object of [getStatistics]. *)
Record Statistics := {
  totalNotes : Z;
  totalLinks : Z;
  brokenLinks : Z;
  validLinks : Z
}.

(** The items [{ slug, count }] of [getMostLinkedNotes]. *)
Module MostLinked.
Record t := { slug : jsstring; count : nat }.
End MostLinked.

(** The parsed cache file.  [timestamp] is
    [new Date(cacheData.timestamp).getTime()], [None] when that is [NaN];
    [index] is [None] when the record has no [index] member. *)
Module CacheData.
Record t := {
  version : jsstring;
  timestamp : option Z;
  index : option (list (jsstring * LinkIndexEntry.t))
}.
End CacheData.

(** The instance: [this.index] and [this.enkiduRoot]. *)
Module LinkIndex.
Record t := {
  index : JSMap.t LinkIndexEntry.t;
  enkiduRoot : jsstring
}.
End LinkIndex.

(** [s] without the prefix [p], when it starts with it. *)
Fixpoint strip_prefix (p s : jsstring) : option jsstring :=
  match p, s with
  | [], _ => Some s
  | x :: p', y :: s' => if N.eqb x y then strip_prefix p' s' else None
  | _ :: _, [] => None
  end.

(** The text before and after the first occurrence of [sep] in [s]. *)
Fixpoint cut (sep s : jsstring) : option (jsstring * jsstring) :=
  match strip_prefix sep s with
  | Some after => Some ([], after)
  | None =>
      match s with
      | [] => None
      | c :: s' => let? (before, after) := cut sep s' in Some (c :: before, after)
      end
  end.

(** [/(\d{4})\/(\d{2})\/(\d{2})\.md/] at the start of [s]. *)
Definition date_path_here (s : jsstring)
  : option (jsstring * jsstring * jsstring) :=
  let? (year, r1) := digits 4 s in
  let? r2 := separator (Some 47%N) r1 in
  let? (month, r3) := digits 2 r2 in
  let? r4 := separator (Some 47%N) r3 in
  let? (day, r5) := digits 2 r4 in
  let? _ := strip_prefix (lit ".md") r5 in
  Some (year, month, day).

(** [parts.match(...)]: the leftmost match anywhere in [s]. *)
Fixpoint date_path_match (s : jsstring)
  : option (jsstring * jsstring * jsstring) :=
  match date_path_here s with
  | Some d => Some d
  | None =>
      match s with
      | [] => None
      | _ :: s' => date_path_match s'
      end
  end.

Section Index.

Variable h : Host.

(** [JSON.parse] of the text of a cache file ([None]: it throws), and
    [Date.now()]. *)
Variable JSON_parse : jsstring -> option CacheData.t.
Variable now : Z.

Definition getSlugFromPath (filePath : jsstring) : jsstring :=
  let fallback := basename h filePath (lit ".md") in
  match cut (lit "/daily/") filePath with
  | Some (_, after) =>
      (* filePath.split("/daily/")[1] *)
      let parts :=
        match cut (lit "/daily/") after with
        | Some (before, _) => before
        | None => after
        end in
      match date_path_match parts with
      | Some (year, month, day) =>
          year ++ lit "-" ++ month ++ lit "-" ++ day
      | None => fallback
      end
  | None => fallback
  end.

Definition resolveTargetSlug (this : LinkIndex.t) (target : jsstring)
  : option jsstring :=
  let resolved := resolveWikiLink h target (LinkIndex.enkiduRoot this) in
  if ResolvedLink.exists_ resolved && truthy (ResolvedLink.resolvedPath resolved)
  then option_map getSlugFromPath (ResolvedLink.resolvedPath resolved)
  else None.

(** First pass of [buildIndex], one file: a file that cannot be read is
    skipped with a warning. *)
Definition index_file (idx : JSMap.t LinkIndexEntry.t) (filePath : jsstring)
  : JSMap.t LinkIndexEntry.t :=
  let slug := getSlugFromPath filePath in
  match readFile h filePath with
  | Some content =>
      let links := extractWikiLinks content in
      JSMap.set idx slug
        {| LinkIndexEntry.slug := slug;
           LinkIndexEntry.filePath := filePath;
           LinkIndexEntry.outgoingLinks := links;
           LinkIndexEntry.incomingLinks := [] |}
  | None => idx
  end.

Definition push_incoming (r : LinkReference.t) (e : LinkIndexEntry.t)
  : LinkIndexEntry.t :=
  {| LinkIndexEntry.slug := LinkIndexEntry.slug e;
     LinkIndexEntry.filePath := LinkIndexEntry.filePath e;
     LinkIndexEntry.outgoingLinks := LinkIndexEntry.outgoingLinks e;
     LinkIndexEntry.incomingLinks := LinkIndexEntry.incomingLinks e ++ [r] |}.

(** Second pass of [buildIndex], one link of one source note. *)
Definition add_backlink (root sourceSlug sourcePath : jsstring)
    (idx : JSMap.t LinkIndexEntry.t) (link : WikiLink)
  : JSMap.t LinkIndexEntry.t :=
  let this := {| LinkIndex.index := idx; LinkIndex.enkiduRoot := root |} in
  let targetSlug := resolveTargetSlug this (target link) in
  match targetSlug with
  | Some ts =>
      if truthy targetSlug && JSMap.has idx ts
      then JSMap.update idx ts
             (push_incoming {| LinkReference.sourceSlug := sourceSlug;
                               LinkReference.sourcePath := sourcePath;
                               LinkReference.link := link |})
      else idx
  | None => idx
  end.

(** [buildIndex].  The second pass walks the entries of the map while it
    appends to [incomingLinks] of entries of the same map; it reads only
    [filePath] and [outgoingLinks], which it never changes, so the walk is
    over the entries as the first pass left them. *)
Definition buildIndex (this : LinkIndex.t) : LinkIndex.t :=
  let root := LinkIndex.enkiduRoot this in
  let allFiles := getAllMarkdownFiles h root in
  let pass1 := fold_left index_file allFiles [] in
  let pass2 :=
    fold_left
      (fun idx se =>
         fold_left (add_backlink root (fst se) (LinkIndexEntry.filePath (snd se)))
                   (LinkIndexEntry.outgoingLinks (snd se)) idx)
      (JSMap.entries pass1) pass1 in
  {| LinkIndex.index := pass2; LinkIndex.enkiduRoot := root |}.

(** [entry?.incomingLinks || []] *)
Definition getBacklinks (this : LinkIndex.t) (slug : jsstring)
  : list LinkReference.t :=
  match JSMap.get (LinkIndex.index this) slug with
  | Some entry => LinkIndexEntry.incomingLinks entry
  | None => []
  end.

(** [entry?.outgoingLinks || []] *)
Definition getOutgoingLinks (this : LinkIndex.t) (slug : jsstring)
  : list WikiLink :=
  match JSMap.get (LinkIndex.index this) slug with
  | Some entry => LinkIndexEntry.outgoingLinks entry
  | None => []
  end.

Definition findBrokenLinks (this : LinkIndex.t) : list BrokenLink.t :=
  flat_map
    (fun se =>
       flat_map
         (fun link =>
            let resolved :=
              resolveWikiLink h (target link) (LinkIndex.enkiduRoot this) in
            if negb (ResolvedLink.exists_ resolved)
            then [{| BrokenLink.sourceSlug := fst se;
                     BrokenLink.sourcePath := LinkIndexEntry.filePath (snd se);
                     BrokenLink.link := link;
                     BrokenLink.suggestions :=
                       ResolvedLink.suggestions resolved |}]
            else [])
         (LinkIndexEntry.outgoingLinks (snd se)))
    (JSMap.entries (LinkIndex.index this)).

Definition getStatistics (this : LinkIndex.t) : Statistics :=
  let brokenLinks := findBrokenLinks this in
  let totalLinks :=
    fold_left
      (fun total entry =>
         (total + Z.of_nat (length (LinkIndexEntry.outgoingLinks entry)))%Z)
      (JSMap.values (LinkIndex.index this)) 0%Z in
  let brokenLinksCount := Z.of_nat (length brokenLinks) in
  {| totalNotes := Z.of_nat (JSMap.size (LinkIndex.index this));
     totalLinks := totalLinks;
     brokenLinks := brokenLinksCount;
     validLinks := (totalLinks - brokenLinksCount)%Z |}.

Definition getOrphanedNotes (this : LinkIndex.t) : list jsstring :=
  flat_map
    (fun se =>
       if length (LinkIndexEntry.incomingLinks (snd se)) =? 0
       then [fst se] else [])
    (JSMap.entries (LinkIndex.index this)).

(** [b.count - a.count] *)
Definition by_count_desc (a b : MostLinked.t) : Z :=
  (Z.of_nat (MostLinked.count b) - Z.of_nat (MostLinked.count a))%Z.

Definition getMostLinkedNotes (this : LinkIndex.t) (limit : Z)
  : list MostLinked.t :=
  let linkCounts :=
    fold_left
      (fun counts se =>
         JSMap.set counts (fst se)
                   (length (LinkIndexEntry.incomingLinks (snd se))))
      (JSMap.entries (LinkIndex.index this)) [] in
  slice0
    (sort by_count_desc
       (List.map
          (fun sc => {| MostLinked.slug := fst sc; MostLinked.count := snd sc |})
          (JSMap.entries linkCounts)))
    limit.

(** [saveCache]: the record handed to [JSON.stringify] and [writeFile]. *)
Definition saveCache (this : LinkIndex.t) : CacheData.t :=
  {| CacheData.version := lit "1.0.0";
     CacheData.timestamp := Some now;
     CacheData.index := Some (JSMap.entries (LinkIndex.index this)) |}.

(** [for (const [slug, entry] of cacheData.index) this.index.set(slug, entry)] *)
Definition reconstruct (cached : list (jsstring * LinkIndexEntry.t))
  : JSMap.t LinkIndexEntry.t :=
  fold_left (fun idx se => JSMap.set idx (fst se) (snd se)) cached [].

(** [loadCache]: whether the cache was loaded, and the instance after it.
    A failure before the index is cleared leaves the instance as it was; a
    record without [index] throws after the index was cleared. *)
Definition loadCache (this : LinkIndex.t) (cachePath : jsstring)
  : bool * LinkIndex.t :=
  if negb (fileExists h cachePath) then (false, this)
  else
    match readFile h cachePath with
    | None => (false, this)
    | Some content =>
        match JSON_parse content with
        | None => (false, this)
        | Some cacheData =>
            if negb (str_eqb (CacheData.version cacheData) (lit "1.0.0"))
            then (false, this)
            else
              match CacheData.index cacheData with
              | None =>
                  (false, {| LinkIndex.index := [];
                             LinkIndex.enkiduRoot := LinkIndex.enkiduRoot this |})
              | Some cached =>
                  (true, {| LinkIndex.index := reconstruct cached;
                            LinkIndex.enkiduRoot := LinkIndex.enkiduRoot this |})
              end
        end
    end.

(** [60 * 60 * 1000] *)
Definition maxAge : Z := 60 * 60 * 1000.

(** [now - cacheTime > maxAge]; false when [cacheTime] is [NaN]. *)
Definition too_old (cacheTime : option Z) : bool :=
  match cacheTime with
  | Some t => (maxAge <? now - t)%Z
  | None => false
  end.

Definition isCacheValid (this : LinkIndex.t) (cachePath : jsstring) : bool :=
  if negb (fileExists h cachePath) then false
  else
    match readFile h cachePath with
    | None => false
    | Some content =>
        match JSON_parse content with
        | None => false
        | Some cacheData =>
            let cacheTime := CacheData.timestamp cacheData in
            if too_old cacheTime then false
            else
              let currentFiles :=
                getAllMarkdownFiles h (LinkIndex.enkiduRoot this) in
              match CacheData.index cacheData with
              | None => false
              | Some cached => length currentFiles =? length cached
              end
        end
    end.

End Index.

(** Writing: [writeFile] of [utils/fs.ts] sits directly on [mkdirSync] and
    [writeFileSync], and either writes the text to the path or throws
    ([false]); [JSON_stringify] is [JSON.stringify(cacheData, null, 2)]. *)
Record Disk := {
  writeFile : jsstring -> jsstring -> bool;
  JSON_stringify : CacheData.t -> jsstring
}.

(** [saveCache] with its write: the record is made at the time [savedAt]
    that [new Date()] reads, and its text handed to [writeFile], outside any
    [try].  The path and text written, or [None] when [writeFile] throws. *)
Definition saveCache_write (d : Disk) (savedAt : Z) (this : LinkIndex.t)
    (cachePath : jsstring) : option (jsstring * jsstring) :=
  let text := JSON_stringify d (saveCache savedAt this) in
  if writeFile d cachePath text then Some (cachePath, text) else None.

(** What becomes of the promise of [loadOrBuildLinkIndex]: resolved with an
    instance, after one write (path and text) or none; or rejected. *)
Inductive Loaded :=
| Resolved (loaded : LinkIndex.t) (written : option (jsstring * jsstring))
| Rejected.

(** [loadOrBuildLinkIndex].  [now] is what [Date.now()] reads in
    [isCacheValid], [savedAt] what [new Date()] reads later in [saveCache].
    The error of a failed write is caught nowhere and rejects the promise. *)
Definition loadOrBuildLinkIndex (h : Host)
    (JSON_parse : jsstring -> option CacheData.t) (d : Disk)
    (now savedAt : Z) (enkiduRoot : jsstring) (cachePath : option jsstring)
  : Loaded :=
  let fresh := {| LinkIndex.index := []; LinkIndex.enkiduRoot := enkiduRoot |} in
  let rebuild (this : LinkIndex.t) :=
    let built := buildIndex h this in
    match cachePath with
    | Some path =>
        if truthy cachePath
        then
          match saveCache_write d savedAt built path with
          | Some written => Resolved built (Some written)
          | None => Rejected
          end
        else Resolved built None
    | None => Resolved built None
    end in
  match cachePath with
  | Some path =>
      if truthy cachePath
      then
        if isCacheValid h JSON_parse now fresh path
        then
          let (loaded, this) := loadCache h JSON_parse fresh path in
          if loaded then Resolved this None else rebuild this
        else rebuild fresh
      else rebuild fresh
  | None => rebuild fresh
  end.

(* ===================================================================== *)
(** ** core/sync/link-converter.ts *)
(* ===================================================================== *)

(** What the converter takes from [path], from strings and from the
    frontmatter parser ([parseFrontmatter] hands the text to [gray-matter]):
    [frontmatterTitle] is the [title] that it finds in the text of a note,
    [None] when it throws, [Some None] when there is no title. *)
Record PathLib := {
  relative : jsstring -> jsstring -> jsstring;
  dirname : jsstring -> jsstring;
  toUpperCase : jsstring -> jsstring;
  frontmatterTitle : jsstring -> option (option jsstring)
}.

Inductive BrokenLinkStrategy := Keep | Text | Remove.

(** [LinkConversionOptions]; an absent member takes its default. *)
Record LinkConversionOptions := {
  brokenLinkStrategy : option BrokenLinkStrategy;
  basePath : option jsstring;
  useAbsolutePaths : option bool
}.

(** [s.endsWith(suffix)] *)
Definition endsWith (s suffix : jsstring) : bool :=
  (length suffix <=? length s)
  && str_eqb (skipn (length s - length suffix) s) suffix.

(** [s.split("-")] and the like: never empty. *)
Fixpoint split_on (sep : char16) (s : jsstring) : list jsstring :=
  match s with
  | [] => [[]]
  | c :: r =>
      if N.eqb c sep then [] :: split_on sep r
      else match split_on sep r with
           | l :: ls => (c :: l) :: ls
           | [] => [[c]]
           end
  end.

(** [words.join(" ")] and the like. *)
Fixpoint join_with (sep : jsstring) (words : list jsstring) : jsstring :=
  match words with
  | [] => []
  | [w] => w
  | w :: rest => w ++ sep ++ join_with sep rest
  end.

(** [s.replace(/\\/g, "/")] *)
Definition slashes (s : jsstring) : jsstring :=
  List.map (fun c => if N.eqb c 92%N then 47%N else c) s.

(** [String(n)] for a natural number. *)
Fixpoint uint_digits (u : Decimal.uint) : jsstring :=
  match u with
  | Decimal.Nil => []
  | Decimal.D0 u' => 48%N :: uint_digits u'
  | Decimal.D1 u' => 49%N :: uint_digits u'
  | Decimal.D2 u' => 50%N :: uint_digits u'
  | Decimal.D3 u' => 51%N :: uint_digits u'
  | Decimal.D4 u' => 52%N :: uint_digits u'
  | Decimal.D5 u' => 53%N :: uint_digits u'
  | Decimal.D6 u' => 54%N :: uint_digits u'
  | Decimal.D7 u' => 55%N :: uint_digits u'
  | Decimal.D8 u' => 56%N :: uint_digits u'
  | Decimal.D9 u' => 57%N :: uint_digits u'
  end.

Definition number_text (n : nat) : jsstring := uint_digits (Nat.to_uint n).

(** [x || y] on strings: [x] when it is there and not empty. *)
Definition or_text (x : option jsstring) (y : jsstring) : jsstring :=
  match x with
  | Some d => if truthy x then d else y
  | None => y
  end.

Section Converter.

Variable h : Host.
Variable lib : PathLib.

(** [word.charAt(0).toUpperCase() + word.slice(1)] *)
Definition capitalize (word : jsstring) : jsstring :=
  toUpperCase lib (firstn 1 word) ++ slice_from word 1.

(** The title in the frontmatter, else the file name in title case. *)
Definition getNoteTitle (filePath : jsstring) : jsstring :=
  let fromName :=
    join_with (lit " ")
      (List.map capitalize
                (split_on 45%N (basename h filePath (lit ".md")))) in
  match readFile h filePath with
  | Some content =>
      match frontmatterTitle lib content with
      | Some title => or_text title fromName
      | None => fromName
      end
  | None => fromName
  end.

Definition convertSingleWikiLink (link : WikiLink)
    (sourceFilePath pkmRoot : jsstring) (options : LinkConversionOptions)
  : jsstring :=
  let strategy :=
    match brokenLinkStrategy options with Some s => s | None => Keep end in
  let base := match basePath options with Some b => b | None => [] end in
  let absolute :=
    match useAbsolutePaths options with Some b => b | None => false end in
  let resolved := resolveWikiLink h (target link) pkmRoot in
  if negb (ResolvedLink.exists_ resolved)
     || negb (truthy (ResolvedLink.resolvedPath resolved))
  then
    match strategy with
    | Text => or_text (displayText link) (target link)
    | Remove => []
    | Keep => raw link
    end
  else
    match ResolvedLink.resolvedPath resolved with
    | Some resolvedPath =>
        let linkText :=
          or_text (displayText link) (getNoteTitle resolvedPath) in
        let linkPath :=
          if absolute
          then slashes (join h [base; relative lib pkmRoot resolvedPath])
          else slashes (relative lib (dirname lib sourceFilePath) resolvedPath)
        in
        let linkPath :=
          if endsWith linkPath (lit ".md") then linkPath
          else linkPath ++ lit ".md" in
        lit "[" ++ linkText ++ lit "](" ++ linkPath ++ lit ")"
    | None => raw link (* not reached: the path is truthy here *)
    end.

Definition convertWikiLinksToMarkdown (content sourceFilePath pkmRoot : jsstring)
    (options : LinkConversionOptions) : jsstring :=
  replaceWikiLinks content
    (fun link => convertSingleWikiLink link sourceFilePath pkmRoot options).

(** The message of [validateLinks] for one broken link. *)
Definition broken_link_message (link : WikiLink) (resolved : ResolvedLink.t)
  : jsstring :=
  let lineInfo :=
    match line link with
    | Some n =>
        if n =? 0 then [] else lit " (line " ++ number_text n ++ lit ")"
    | None => []
    end in
  let errorMsg :=
    lit "Broken link: [[" ++ target link ++ lit "]]" ++ lineInfo in
  match ResolvedLink.suggestions resolved with
  | Some (first :: _) => errorMsg ++ lit " - Did you mean: " ++ first ++ lit "?"
  | _ => errorMsg
  end.

(** [validateLinks]: [valid] and [errors]. *)
Definition validateLinks (content pkmRoot : jsstring)
  : bool * list jsstring :=
  let links := extractWikiLinks content in
  let errors :=
    flat_map
      (fun link =>
         let resolved := resolveWikiLink h (target link) pkmRoot in
         if negb (ResolvedLink.exists_ resolved)
         then [broken_link_message link resolved]
         else [])
      links in
  (length errors =? 0, errors).

Definition processSyncContent (content sourceFilePath pkmRoot : jsstring)
    (options : LinkConversionOptions) : jsstring :=
  convertWikiLinksToMarkdown content sourceFilePath pkmRoot options.

End Converter.

(* ===================================================================== *)
(** ** A small host for examples *)
(* ===================================================================== *)

(** A file system given by the list of its files (path and text), POSIX
    paths, ASCII case mapping.  It serves to run the engine on concrete
    corpora. *)
Module Demo.

Fixpoint ends_with_from (suffix s : jsstring) (n : nat) : bool :=
  match n with
  | 0 => str_eqb s suffix
  | S n' => match s with
            | [] => false
            | _ :: s' => ends_with_from suffix s' n'
            end
  end.

Definition endsWith (s suffix : jsstring) : bool :=
  (length suffix <=? length s)
  && ends_with_from suffix s (length s - length suffix).

Definition startsWith (s p : jsstring) : bool :=
  match strip_prefix p s with Some _ => true | None => false end.

(** [path.join] of segments that need no normalisation. *)
Fixpoint join (parts : list jsstring) : jsstring :=
  match parts with
  | [] => lit "."
  | [p] => p
  | p :: rest => p ++ lit "/" ++ join rest
  end.

(** The text after the last [/]. *)
Fixpoint last_segment (s acc : jsstring) : jsstring :=
  match s with
  | [] => acc
  | c :: s' => if N.eqb c 47 then last_segment s' [] else last_segment s' (acc ++ [c])
  end.

(** [path.basename(p, ext)] *)
Definition basename (p ext : jsstring) : jsstring :=
  let base := last_segment p [] in
  if endsWith base ext && negb (str_eqb base ext)
  then firstn (length base - length ext) base
  else base.

Definition lower (c : char16) : char16 :=
  if ((65 <=? c) && (c <=? 90))%N then (c + 32)%N else c.

Definition toLowerCase (s : jsstring) : jsstring := List.map lower s.

Definition isAlnum (c : char16) : bool :=
  (isDigit c || ((97 <=? c) && (c <=? 122)))%N.

(** Modelled from the spec: [slugify] of [utils/slug.ts], which is not among
    the sources: "lowercase, non-alphanumerics to hyphens, collapsed/trimmed
    hyphens". *)
Fixpoint hyphenate (s : jsstring) (pending : bool) : jsstring :=
  match s with
  | [] => []
  | c :: s' =>
      if isAlnum c
      then (if pending then [45%N; c] else [c]) ++ hyphenate s' false
      else hyphenate s' true
  end.

Definition slugify (s : jsstring) : jsstring :=
  match hyphenate (toLowerCase s) false with
  | c :: r => if N.eqb c 45 then r else c :: r
  | [] => []
  end.

Definition fsys := list (jsstring * jsstring).

Definition fileExists (fs : fsys) (p : jsstring) : bool :=
  existsb (fun f => str_eqb (fst f) p || startsWith (fst f) (p ++ lit "/")) fs.

Definition listFilesRecursive (fs : fsys) (dir ext : jsstring)
  : option (list jsstring) :=
  Some (filter (fun p => startsWith p (dir ++ lit "/") && endsWith p ext)
               (List.map fst fs)).

Definition readFile (fs : fsys) (p : jsstring) : option jsstring :=
  option_map snd (find (fun f => str_eqb (fst f) p) fs).

Definition host (fs : fsys) : Host :=
  Build_Host (fileExists fs) (listFilesRecursive fs) (readFile fs)
             join basename toLowerCase slugify.

(** Two notes in two roots, neither linking to the other. *)
Definition two_roots : fsys :=
  [ (lit "/pkm/notes/beta.md", lit "see [[gamma]]");
    (lit "/pkm/blog/alpha.md", lit "nothing here") ].

Definition new_index (root : jsstring) : LinkIndex.t :=
  {| LinkIndex.index := []; LinkIndex.enkiduRoot := root |}.

(** A corpus with stems at several distances from [gamma]. *)
Definition greek : fsys :=
  [ (lit "/pkm/notes/alpha.md", lit "");
    (lit "/pkm/notes/Gamut.md", lit "");
    (lit "/pkm/notes/introduction.md", lit "");
    (lit "/pkm/notes/beta.md", lit "");
    (lit "/pkm/notes/gamme.md", lit "");
    (lit "/pkm/blog/delta.md", lit "");
    (lit "/pkm/blog/gamma-ray.md", lit "");
    (lit "/pkm/blog/sigma.md", lit "") ].

(** A cache file next to the corpus [two_roots], and the record its text
    parses to. *)
Definition cache_path : jsstring := lit "/pkm/.enkidu/link-index.json".

Definition cached_entry (slug path : jsstring) : jsstring * LinkIndexEntry.t :=
  (slug, {| LinkIndexEntry.slug := slug; LinkIndexEntry.filePath := path;
            LinkIndexEntry.outgoingLinks := [];
            LinkIndexEntry.incomingLinks := [] |}).

Definition cache_record (version : jsstring) (timestamp : Z) : CacheData.t :=
  {| CacheData.version := version;
     CacheData.timestamp := Some timestamp;
     CacheData.index :=
       Some [ cached_entry (lit "beta") (lit "/pkm/notes/beta.md");
              cached_entry (lit "alpha") (lit "/pkm/blog/alpha.md") ] |}.

Definition with_cache : fsys := two_roots ++ [(cache_path, lit "{...}")].

(** Two notes with one file name in two roots, and a cache file. *)
Definition same_stem : fsys :=
  [ (lit "/pkm/notes/todo.md", lit "first");
    (lit "/pkm/blog/todo.md", lit "second");
    (cache_path, lit "{...}") ].

(** [path] for the converter, on paths that need no normalisation: the
    path relative to a directory that contains it, the directory of a path;
    ASCII upper case; no frontmatter. *)
Definition relative (from to : jsstring) : jsstring :=
  match strip_prefix (from ++ lit "/") to with
  | Some rest => rest
  | None => to
  end.

Fixpoint dirname_from (s acc dir : jsstring) : jsstring :=
  match s with
  | [] => dir
  | c :: s' =>
      if N.eqb c 47 then dirname_from s' (acc ++ [c]) acc
      else dirname_from s' (acc ++ [c]) dir
  end.

Definition dirname (p : jsstring) : jsstring := dirname_from p [] (lit ".").

Definition upper (c : char16) : char16 :=
  if ((97 <=? c) && (c <=? 122))%N then (c - 32)%N else c.

Definition pathlib : PathLib :=
  Build_PathLib relative dirname (List.map upper) (fun _ => Some None).

Definition JSON_parse (record : CacheData.t) (text : jsstring)
  : option CacheData.t :=
  if str_eqb text (lit "{...}") then Some record else None.

(** A disk that takes every write, or none. *)
Definition disk (writable : bool) : Disk :=
  Build_Disk (fun _ _ => writable) (fun _ => lit "{...}").

End Demo.

(* ===================================================================== *)
(** ** Vocabulary of the properties *)
(* ===================================================================== *)

(** The text of a match with groups [g1] and [g2]. *)
Definition link_text (g1 : jsstring) (g2 : option jsstring) : jsstring :=
  lit "[[" ++ g1
    ++ match g2 with Some d => PIPE :: d | None => [] end
    ++ lit "]]".

(** The number of newlines in a text. *)
Definition count_LF (s : jsstring) : nat := length (filter (N.eqb LF) s).

(** The lines of a text put together again, a newline between two. *)
Fixpoint join_lines (lines : list jsstring) : jsstring :=
  match lines with
  | [] => []
  | [l] => l
  | l :: rest => l ++ LF :: join_lines rest
  end.

(** A link found in the line [ln], which starts at offset [lineStart] of the
    text and has number [lineNumber] (from 0). *)
Definition in_line (ln : jsstring) (lineStart lineNumber : nat) (l : WikiLink)
  : Prop :=
  exists pre post,
    ln = pre ++ raw l ++ post
    /\ startIndex l = lineStart + length pre
    /\ endIndex l = startIndex l + length (raw l)
    /\ 0 < length (raw l)
    /\ line l = Some (lineNumber + 1).

(** The invariant of a reference with respect to the text it was found in. *)
Definition well_placed (content : jsstring) (l : WikiLink) : Prop :=
  startIndex l < endIndex l
  /\ raw l = slice content (startIndex l) (endIndex l)
  /\ line l = Some (1 + count_LF (firstn (startIndex l) content)).

(** The edit distance between the first [i] characters of [s] and the first
    [j] of [t], by the classic recurrence of the dynamic-programming
    algorithm: deleting, inserting or substituting one character costs 1. *)
Fixpoint prefix_distance (s t : jsstring) (i : nat) : nat -> nat :=
  match i with
  | 0 => fun j => j
  | S i' =>
      fix row (j : nat) : nat :=
        match j with
        | 0 => S i'
        | S j' =>
            min3 (prefix_distance s t i' (S j') + 1)
                 (row j' + 1)
                 (prefix_distance s t i' j'
                  + if charAt_eqb (charAt s i') (charAt t j') then 0 else 1)
        end
  end.

Definition edit_distance (s t : jsstring) : nat :=
  prefix_distance s t (length s) (length t).

(** The distance of a scored candidate. *)
Definition dist (item : Scored) : nat :=
  match score item with Some d => d | None => 0 end.

(** The candidates for suggestions: the filename stem of every markdown
    file, in scan order, with its case-insensitive edit distance to the
    target. *)
Definition candidates (h : Host) (target pkmRoot : jsstring) : list Scored :=
  List.map
    (fun file =>
       let stem := basename h file (lit ".md") in
       {| slug := stem;
          score := Some (edit_distance (toLowerCase h target)
                                       (toLowerCase h stem)) |})
    (getAllMarkdownFiles h pkmRoot).

(** The notes of an index with their numbers of backlinks, in the order of
    the index. *)
Definition backlink_counts (this : LinkIndex.t) : list MostLinked.t :=
  List.map
    (fun se => {| MostLinked.slug := fst se;
                  MostLinked.count :=
                    length (LinkIndexEntry.incomingLinks (snd se)) |})
    (JSMap.entries (LinkIndex.index this)).

(** A list of entries that is a [Map]: no key twice. *)
Definition is_map {V} (m : JSMap.t V) : Prop := NoDup (List.map fst m).

(** Equal counts come in lexicographic order of the slugs. *)
Fixpoint ties_lexicographic (l : list MostLinked.t) : bool :=
  match l with
  | a :: (b :: _) as rest =>
      (negb (MostLinked.count a =? MostLinked.count b)
       || negb (str_ltb (MostLinked.slug b) (MostLinked.slug a)))
      && ties_lexicographic rest
  | _ => true
  end.

(** Links in text order that do not overlap: the first starts at [pos] or
    later, each next one where the one before ends or later, and the last
    ends at [bound] or before. *)
Fixpoint chain (pos : nat) (links : list WikiLink) (bound : nat) : Prop :=
  match links with
  | [] => pos <= bound
  | l :: rest =>
      pos <= startIndex l /\ startIndex l < endIndex l
      /\ chain (endIndex l) rest bound
  end.

(** The text from [pos] on, read from left to right, with the span of each
    link replaced by what [replacer] gives for it. *)
Fixpoint rebuild (content : jsstring) (replacer : WikiLink -> jsstring)
    (links : list WikiLink) (pos : nat) : jsstring :=
  match links with
  | [] => slice_from content pos
  | l :: rest =>
      slice content pos (startIndex l)
        ++ replacer l ++ rebuild content replacer rest (endIndex l)
  end.

(** Two opening brackets in a row somewhere in the text. *)
Fixpoint has_double_bracket (s : jsstring) : bool :=
  match s with
  | a :: r =>
      match r with
      | b :: _ =>
          (N.eqb a LBRACKET && N.eqb b LBRACKET) || has_double_bracket r
      | [] => false
      end
  | [] => false
  end.

(** A reference as the pattern produces it: [raw] is [[[g1]]] or
    [[[g1|g2]]] for groups of the two character classes, target and display
    text are the trimmed groups. *)
Definition shaped (l : WikiLink) : Prop :=
  exists g1 g2,
    raw l = link_text g1 g2
    /\ target l = trim g1
    /\ displayText l = option_map trim g2
    /\ g1 <> [] /\ forallb target_char g1 = true
    /\ (forall d, g2 = Some d -> d <> [] /\ forallb display_char d = true).

(** The backlinks that the outgoing links of the notes of an index give to
    the note [t]: one for every link that resolves to [t], in the order of
    the index and, within a note, of its links. *)
Definition backlinks_from (h : Host) (this : LinkIndex.t) (t : jsstring)
  : list LinkReference.t :=
  flat_map
    (fun se =>
       flat_map
         (fun l =>
            match resolveTargetSlug h this (target l) with
            | Some ts =>
                if str_eqb ts t
                then [{| LinkReference.sourceSlug := fst se;
                         LinkReference.sourcePath :=
                           LinkIndexEntry.filePath (snd se);
                         LinkReference.link := l |}]
                else []
            | None => []
            end)
         (LinkIndexEntry.outgoingLinks (snd se)))
    (JSMap.entries (LinkIndex.index this)).

(** All outgoing links of an index, note after note. *)
Definition all_links (this : LinkIndex.t) : list WikiLink :=
  flat_map (fun se => LinkIndexEntry.outgoingLinks (snd se))
           (JSMap.entries (LinkIndex.index this)).

(** What the first pass leaves under a key: the entry of a readable file
    with that slug, its links as extracted, no backlink yet. *)
Definition first_pass_entry (h : Host) (files : list jsstring)
    (se : jsstring * LinkIndexEntry.t) : Prop :=
  LinkIndexEntry.slug (snd se) = fst se
  /\ fst se = getSlugFromPath h (LinkIndexEntry.filePath (snd se))
  /\ In (LinkIndexEntry.filePath (snd se)) files
  /\ (exists content,
        readFile h (LinkIndexEntry.filePath (snd se)) = Some content
        /\ LinkIndexEntry.outgoingLinks (snd se) = extractWikiLinks content)
  /\ LinkIndexEntry.incomingLinks (snd se) = [].

(** A link moved [offset] characters and [lines] lines further down. *)
Definition shift_link (offset lines : nat) (l : WikiLink) : WikiLink :=
  {| raw := raw l; target := target l; displayText := displayText l;
     startIndex := offset + startIndex l; endIndex := offset + endIndex l;
     line := option_map (Nat.add lines) (line l) |}.

(* ===================================================================== *)
(** ** Properties of the parser *)
(* ===================================================================== *)

Section ParserFacts.

Lemma str_eqb_eq (a b : jsstring) : str_eqb a b = true <-> a = b.
Proof.
  revert b; induction a as [|x a IH]; intros [|y b]; simpl;
    try (split; [discriminate | discriminate]); try tauto.
  rewrite andb_true_iff, N.eqb_eq, IH.
  split; [intros [-> ->]; reflexivity | intros [= -> ->]; auto].
Qed.

Lemma str_eqb_refl (a : jsstring) : str_eqb a a = true.
Proof. apply str_eqb_eq; reflexivity. Qed.

(** *** What the pattern matches *)

Lemma class_plus_sound p s m r :
  In (m, r) (class_plus p s) ->
  s = m ++ r /\ m <> [] /\ forallb p m = true.
Proof.
  revert m r; induction s as [|x s IH]; simpl; intros m r Hin; [tauto|].
  destruct (p x) eqn:Hp; [|contradiction].
  apply in_app_or in Hin as [Hin|[Heq|[]]].
  - apply in_map_iff in Hin as [[m' r'] [Heq Hin]].
    simpl in Heq; inversion Heq; subst; clear Heq.
    destruct (IH _ _ Hin) as (-> & _ & Hall).
    simpl; rewrite Hp, Hall; repeat split; congruence.
  - inversion Heq; subst; simpl; rewrite Hp; repeat split; congruence.
Qed.

(** Greedy: on a run of class characters ended by another character, the
    first way tried takes the whole run. *)
Lemma class_plus_greedy p t c r :
  t <> [] -> forallb p t = true -> p c = false ->
  exists others, class_plus p (t ++ c :: r) = (t, c :: r) :: others.
Proof.
  induction t as [|x t IH]; [congruence|]; intros _ Hall Hc.
  simpl in Hall; apply andb_true_iff in Hall as [Hx Hall].
  simpl; rewrite Hx.
  destruct t as [|y t].
  - simpl; rewrite Hc; simpl; eauto.
  - destruct IH as [others Heq]; [congruence | assumption | assumption |].
    rewrite Heq; simpl; eauto.
Qed.

Lemma chr_sound c s u r : In (u, r) (chr c s) -> s = c :: r.
Proof.
  destruct s as [|x s]; simpl; [tauto|].
  destruct (N.eqb_spec x c); simpl; [|tauto].
  intros [Heq|[]]; inversion Heq; subst; reflexivity.
Qed.

Lemma in_bind {A B} (m : Matcher A) (f : A -> Matcher B) s b r :
  In (b, r) (RegExp.bind m f s) ->
  exists a s', In (a, s') (m s) /\ In (b, r) (f a s').
Proof.
  unfold RegExp.bind; intros Hin.
  apply in_flat_map in Hin as [[a s'] [H1 H2]]; eauto.
Qed.

(** Both sides are the same characters, with the literals of the source
    spelled out and the appends nested differently. *)
Ltac flatten_literals :=
  unfold LBRACKET, RBRACKET, PIPE;
  change (lit "[[") with [91%N; 91%N]; change (lit "]]") with [93%N; 93%N];
  simpl; repeat (rewrite <- app_assoc; simpl); reflexivity.

Lemma WIKI_LINK_REGEX_sound s g1 g2 rest :
  In ((g1, g2), rest) (WIKI_LINK_REGEX s) ->
  s = link_text g1 g2 ++ rest
  /\ g1 <> [] /\ forallb target_char g1 = true
  /\ (forall d, g2 = Some d -> d <> [] /\ forallb display_char d = true).
Proof.
  unfold WIKI_LINK_REGEX; intros Hin.
  apply in_bind in Hin as (u1 & s1 & H1 & Hin); apply chr_sound in H1.
  apply in_bind in Hin as (u2 & s2 & H2 & Hin); apply chr_sound in H2.
  apply in_bind in Hin as (t & s3 & H3 & Hin).
  apply class_plus_sound in H3 as (H3 & Ht & Htc).
  apply in_bind in Hin as (o & s4 & H4 & Hin).
  apply in_bind in Hin as (u5 & s5 & H5 & Hin); apply chr_sound in H5.
  apply in_bind in Hin as (u6 & s6 & H6 & Hin); apply chr_sound in H6.
  destruct Hin as [Heq|[]]; inversion Heq; subst g1 g2 s6; clear Heq.
  unfold opt in H4; apply in_app_or in H4 as [H4|[H4|[]]].
  - apply in_map_iff in H4 as [[d s4'] [Heq H4]].
    simpl in Heq; inversion Heq; subst o s4'; clear Heq.
    apply in_bind in H4 as (u & s' & Hp & H4); apply chr_sound in Hp.
    apply class_plus_sound in H4 as (H4 & Hd & Hdc).
    subst; split; [|split; [assumption|]; split; [assumption|]].
    + unfold link_text; flatten_literals.
    + intros d' [= <-]; auto.
  - inversion H4; subst; split; [|split; [assumption|]; split; [assumption|]].
    + unfold link_text; flatten_literals.
    + intros d' [=].
Qed.

Lemma firstn_app_exact {A} (a b : list A) :
  firstn (length (a ++ b) - length b) (a ++ b) = a.
Proof.
  rewrite length_app, Nat.add_sub.
  rewrite firstn_app, Nat.sub_diag, firstn_all; simpl; apply app_nil_r.
Qed.

Lemma match_here_sound s r g1 g2 :
  match_here s = Some (r, g1, g2) ->
  r = link_text g1 g2 /\ (exists rest, s = r ++ rest)
  /\ g1 <> [] /\ forallb target_char g1 = true
  /\ (forall d, g2 = Some d -> d <> [] /\ forallb display_char d = true).
Proof.
  unfold match_here.
  destruct (WIKI_LINK_REGEX s) as [|[[t o] rest] others] eqn:Hm; [discriminate|].
  destruct (@WIKI_LINK_REGEX_sound s t o rest) as (Hs & Ht & Htc & Hd).
  { rewrite Hm; left; reflexivity. }
  assert (E : firstn (length s - length rest) s = link_text t o).
  { rewrite Hs; apply firstn_app_exact. }
  simpl; rewrite E; intros [= <- <- <-].
  split; [reflexivity|]; split; [exists rest; assumption|].
  split; [assumption|]; split; assumption.
Qed.

Lemma link_text_not_nil g1 g2 : 0 < length (link_text g1 g2).
Proof. unfold link_text; simpl; lia. Qed.

(** [search] returns the leftmost match: its text sits at [index - i] in
    [s], and the pattern matches at no earlier position. *)
Lemma search_sound s i m :
  search s i = Some m ->
  exists pre post,
    s = pre ++ m0 m ++ post
    /\ index m = i + length pre
    /\ (forall k, k < length pre -> match_here (skipn k s) = None)
    /\ match_here (skipn (length pre) s) = Some (m0 m, m1 m, m2 m).
Proof.
  revert i; induction s as [|c s IH]; intros i; simpl.
  - discriminate.
  - destruct (match_here (c :: s)) as [[[r g1] g2]|] eqn:Hm.
    + intros [= <-]; simpl.
      destruct (match_here_sound _ Hm) as (_ & [rest Hs] & _).
      exists [], rest; simpl; repeat split; auto; try lia.
    + intros Hs; apply IH in Hs as (pre & post & Hs & Hi & Hleft & Hat).
      exists (c :: pre), post; simpl; repeat split.
      * congruence.
      * lia.
      * intros [|k] Hk; simpl; [assumption | apply Hleft; lia].
      * assumption.
Qed.

Lemma search_none s i :
  search s i = None -> forall k, match_here (skipn k s) = None.
Proof.
  revert i; induction s as [|c s IH]; intros i; simpl.
  - intros _ [|k]; reflexivity.
  - destruct (match_here (c :: s)) as [[[r g1] g2]|] eqn:Hm; [discriminate|].
    intros Hs [|k]; simpl; [assumption | eapply IH; eassumption].
Qed.

Lemma skipn_app_exact {A} (a b : list A) : skipn (length a) (a ++ b) = b.
Proof. rewrite skipn_app, Nat.sub_diag, skipn_all; reflexivity. Qed.

(** A successful [exec]: where the match lies in [str], and that [lastIndex]
    moves forward, staying inside the string. *)
Lemma exec_some str lastIndex m lastIndex' :
  exec str lastIndex = (Some m, lastIndex') ->
  exists pre post,
    str = pre ++ m0 m ++ post
    /\ index m = length pre
    /\ lastIndex <= index m
    /\ lastIndex' = index m + length (m0 m)
    /\ 0 < length (m0 m)
    /\ m0 m = link_text (m1 m) (m2 m)
    /\ (forall k, lastIndex <= k < index m -> match_here (skipn k str) = None)
    /\ match_here (skipn (index m) str) = Some (m0 m, m1 m, m2 m).
Proof.
  unfold exec.
  destruct (Nat.ltb_spec (length str) lastIndex) as [Hlt|Hle]; [discriminate|].
  destruct (search (skipn lastIndex str) lastIndex) as [m'|] eqn:Hs;
    [|discriminate].
  intros [= <- <-].
  apply search_sound in Hs as (pre & post & Hs & Hi & Hleft & Hat).
  assert (Hstr : str = (firstn lastIndex str ++ pre) ++ m0 m' ++ post).
  { rewrite <- app_assoc, <- Hs; symmetry; apply firstn_skipn. }
  assert (Hlen : length (firstn lastIndex str) = lastIndex)
    by (apply firstn_length_le; assumption).
  rewrite skipn_skipn in Hat.
  destruct (match_here_sound _ Hat) as (Hraw & _).
  exists (firstn lastIndex str ++ pre), post; repeat split.
  - assumption.
  - rewrite length_app; lia.
  - lia.
  - rewrite Hraw; apply link_text_not_nil.
  - assumption.
  - intros k Hk.
    replace k with ((k - lastIndex) + lastIndex) by lia.
    rewrite <- skipn_skipn; apply Hleft; lia.
  - replace (index m') with (length pre + lastIndex) by lia; assumption.
Qed.

Lemma exec_none str lastIndex lastIndex' :
  exec str lastIndex = (None, lastIndex') ->
  forall k, lastIndex <= k -> match_here (skipn k str) = None.
Proof.
  unfold exec.
  destruct (Nat.ltb_spec (length str) lastIndex) as [Hlt|Hle].
  - intros _ k Hk; rewrite skipn_all2 by lia.
    reflexivity.
  - destruct (search (skipn lastIndex str) lastIndex) as [m'|] eqn:Hs;
      [discriminate|].
    intros _ k Hk.
    replace k with ((k - lastIndex) + lastIndex) by lia.
    rewrite <- skipn_skipn; eapply search_none; eassumption.
Qed.

(** *** The loops *)

Lemma exec_loop_links fuel ln lineStart lineNumber lastIndex links :
  exists found,
    exec_loop fuel ln lineStart lineNumber lastIndex links = links ++ found
    /\ Forall (in_line ln lineStart lineNumber) found.
Proof.
  revert lastIndex links; induction fuel as [|fuel IH]; intros li links; simpl.
  - exists []; rewrite app_nil_r; auto.
  - destruct (exec ln li) as [[m|] li'] eqn:He.
    + match goal with |- context [links ++ [?l]] => set (l0 := l) end.
      destruct (IH li' (links ++ [l0])) as (found & -> & Hall).
      exists (l0 :: found); rewrite <- app_assoc; split; [reflexivity|].
      constructor; [|assumption].
      apply exec_some in He as (pre & post & Hs & Hi & _ & _ & Hpos & _).
      exists pre, post; subst l0; simpl; repeat split; auto.
    + exists []; rewrite app_nil_r; auto.
Qed.

(** The loop ends because [exec] finds no further match, not because the
    bound is reached: any bound above the rest of the line gives the same
    links. *)
Lemma exec_loop_fuel ln lineStart lineNumber links n :
  forall k lastIndex,
    length ln < lastIndex + n -> length ln < lastIndex + k ->
    exec_loop n ln lineStart lineNumber lastIndex links
    = exec_loop k ln lineStart lineNumber lastIndex links.
Proof.
  revert links; induction n as [|n IH]; intros links k li Hn Hk.
  - destruct k as [|k]; [reflexivity|]; simpl.
    unfold exec; destruct (Nat.ltb_spec (length ln) li); [reflexivity|lia].
  - simpl; destruct (exec ln li) as [[m|] li'] eqn:He.
    + pose proof He as He'.
      apply exec_some in He' as (pre & post & Hs & Hi & Hle & Hli & Hpos & _).
      assert (Hin : li' <= length ln).
      { rewrite Hs, !length_app; lia. }
      destruct k as [|k]; [lia|]; simpl; rewrite He.
      apply IH; lia.
    + destruct k as [|k]; simpl; [|rewrite He]; reflexivity.
Qed.

Lemma split_lines_not_nil s : split_lines s <> [].
Proof.
  destruct s as [|c s]; simpl; [discriminate|].
  destruct (N.eqb c LF); [discriminate|].
  destruct (split_lines s); discriminate.
Qed.

Lemma join_split_lines s : join_lines (split_lines s) = s.
Proof.
  induction s as [|c s IH]; [reflexivity|]; simpl.
  destruct (N.eqb_spec c LF) as [->|Hc].
  - pose proof (split_lines_not_nil s) as Hne.
    simpl; destruct (split_lines s) as [|l ls]; [congruence|].
    rewrite IH; reflexivity.
  - destruct (split_lines s) as [|l [|l' ls]]; simpl in *; congruence.
Qed.

Lemma count_LF_app a b : count_LF (a ++ b) = count_LF a + count_LF b.
Proof. unfold count_LF; rewrite filter_app, length_app; reflexivity. Qed.

Lemma split_lines_no_LF s :
  Forall (fun l => count_LF l = 0) (split_lines s).
Proof.
  induction s as [|c s IH]; simpl.
  - repeat constructor.
  - destruct (N.eqb_spec c LF) as [->|Hc].
    + constructor; [reflexivity | assumption].
    + assert (Hone : forall l, count_LF l = 0 -> count_LF (c :: l) = 0).
      { intros l Hl; change (c :: l) with ([c] ++ l).
        rewrite count_LF_app, Hl; unfold count_LF.
        change (filter (N.eqb LF) [c]) with (if N.eqb LF c then [c] else []).
        destruct (N.eqb_spec LF c); [congruence | reflexivity]. }
      destruct (split_lines s) as [|l ls].
      * constructor; [apply Hone; reflexivity | constructor].
      * inversion IH; subst; constructor; auto.
Qed.

(** A link found in a line is well placed in the whole text. *)
Lemma in_line_well_placed before ln after lineNumber l :
  count_LF ln = 0 -> count_LF before = lineNumber ->
  in_line ln (length before) lineNumber l ->
  well_placed (before ++ ln ++ after) l.
Proof.
  intros Hln Hbefore (pre & post & Hs & Hstart & Hend & Hpos & Hline).
  assert (Hcut : before ++ ln ++ after
                 = (before ++ pre) ++ raw l ++ (post ++ after)).
  { rewrite Hs, <- !app_assoc; reflexivity. }
  assert (Hlen : startIndex l = length (before ++ pre))
    by (rewrite length_app; assumption).
  unfold well_placed, slice; repeat split.
  - lia.
  - rewrite Hcut, Hlen, skipn_app_exact, Hend, Hlen.
    replace (length (before ++ pre) + length (raw l) - length (before ++ pre))
      with (length (raw l)) by lia.
    rewrite firstn_app, Nat.sub_diag, firstn_all; simpl.
    symmetry; apply app_nil_r.
  - rewrite Hcut, Hlen, firstn_app, Nat.sub_diag, firstn_all; simpl.
    rewrite app_nil_r, count_LF_app, Hline.
    assert (Hpre : count_LF pre = 0).
    { rewrite Hs, !count_LF_app in Hln; lia. }
    f_equal; lia.
Qed.

Lemma for_lines_links content lines :
  forall before lineNumber currentIndex links,
    content = before ++ join_lines lines ->
    lines <> [] ->
    Forall (fun l => count_LF l = 0) lines ->
    currentIndex = length before ->
    lineNumber = count_LF before ->
    exists found,
      for_lines lines lineNumber currentIndex links = links ++ found
      /\ Forall (well_placed content) found.
Proof.
  induction lines as [|ln rest IH]; [congruence|].
  intros before lineNumber currentIndex links Hc _ Hno Hidx Hnum.
  apply Forall_cons_iff in Hno as [Hln Hrest].
  simpl.
  destruct (exec_loop_links (S (length ln)) ln currentIndex lineNumber 0 links)
    as (here & Hhere & Hin).
  simpl in Hhere; rewrite Hhere.
  destruct rest as [|ln' rest'].
  - simpl; exists here; split; [reflexivity|].
    assert (Hc' : content = before ++ ln ++ [])
      by (rewrite app_nil_r; exact Hc).
    rewrite Hc'.
    eapply Forall_impl; [|exact Hin].
    intros l Hl; subst currentIndex.
    apply in_line_well_placed with (lineNumber := lineNumber);
      [assumption | symmetry; assumption | assumption].
  - destruct (IH (before ++ ln ++ [LF]) (S lineNumber)
                 (currentIndex + (length ln + 1)) (links ++ here))
      as (later & Hlater & Hall).
    + rewrite Hc; simpl; rewrite <- !app_assoc; reflexivity.
    + discriminate.
    + assumption.
    + rewrite !length_app; simpl; lia.
    + rewrite !count_LF_app, Hln; change (count_LF [LF]) with 1; lia.
    + rewrite Hlater.
      exists (here ++ later); rewrite <- app_assoc; split; [reflexivity|].
      apply Forall_app; split; [|assumption].
      assert (Hc' : content = before ++ ln ++ (LF :: join_lines (ln' :: rest'))).
      { rewrite Hc; reflexivity. }
      rewrite Hc'.
      eapply Forall_impl; [|exact Hin].
      intros l Hl; subst currentIndex.
      apply in_line_well_placed with (lineNumber := lineNumber);
        [assumption | symmetry; assumption | assumption].
Qed.

(** *** The pattern on a link built from its parts *)

Lemma bind_head {A B} (m : Matcher A) (f : A -> Matcher B) s a r tl b r' tl' :
  m s = (a, r) :: tl -> f a r = (b, r') :: tl' ->
  RegExp.bind m f s
  = (b, r') :: tl' ++ flat_map (fun ar => f (fst ar) (snd ar)) tl.
Proof.
  intros Hm Hf; unfold RegExp.bind; rewrite Hm; simpl; rewrite Hf; reflexivity.
Qed.

Lemma chr_head c r : chr c (c :: r) = [(tt, r)].
Proof. simpl; rewrite N.eqb_refl; reflexivity. Qed.

Lemma WIKI_LINK_REGEX_piped t d rest :
  t <> [] -> forallb target_char t = true ->
  d <> [] -> forallb display_char d = true ->
  exists others,
    WIKI_LINK_REGEX (link_text t (Some d) ++ rest)
    = ((t, Some d), rest) :: others.
Proof.
  intros Ht Htc Hd Hdc.
  assert (Hs : link_text t (Some d) ++ rest
               = LBRACKET :: LBRACKET :: t ++ PIPE :: d
                   ++ RBRACKET :: RBRACKET :: rest).
  { unfold link_text; flatten_literals. }
  rewrite Hs; unfold WIKI_LINK_REGEX.
  destruct (@class_plus_greedy target_char t PIPE
              (d ++ RBRACKET :: RBRACKET :: rest) Ht Htc eq_refl) as [o1 H1].
  destruct (@class_plus_greedy display_char d RBRACKET
              (RBRACKET :: rest) Hd Hdc eq_refl) as [o2 H2].
  eexists.
  eapply bind_head; [apply chr_head|].
  eapply bind_head; [apply chr_head|].
  eapply bind_head; [exact H1|].
  eapply bind_head.
  { unfold opt, RegExp.bind at 1; rewrite chr_head; simpl.
    rewrite app_nil_r, H2; simpl; reflexivity. }
  eapply bind_head; [apply chr_head|].
  eapply bind_head; [apply chr_head|].
  reflexivity.
Qed.

Lemma match_here_piped t d rest :
  t <> [] -> forallb target_char t = true ->
  d <> [] -> forallb display_char d = true ->
  match_here (link_text t (Some d) ++ rest)
  = Some (link_text t (Some d), t, Some d).
Proof.
  intros Ht Htc Hd Hdc.
  destruct (@WIKI_LINK_REGEX_piped t d rest Ht Htc Hd Hdc) as [others Hm].
  unfold match_here; rewrite Hm; cbv beta iota; cbn [fst snd].
  rewrite firstn_app_exact; reflexivity.
Qed.

Lemma search_here s i r g1 g2 :
  match_here s = Some (r, g1, g2) ->
  search s i = Some {| index := i; m0 := r; m1 := g1; m2 := g2 |}.
Proof.
  intros Hm; destruct s as [|c s]; [cbv in Hm; discriminate|].
  cbn [search]; rewrite Hm; reflexivity.
Qed.

Lemma count_LF_cons c s :
  count_LF (c :: s) = (if N.eqb LF c then 1 else 0) + count_LF s.
Proof.
  unfold count_LF; cbn [filter]; destruct (N.eqb LF c); reflexivity.
Qed.

Lemma split_lines_one_line s : count_LF s = 0 -> split_lines s = [s].
Proof.
  induction s as [|c s IH]; [reflexivity|].
  rewrite count_LF_cons; cbn [split_lines]; rewrite (N.eqb_sym c LF).
  destruct (N.eqb LF c); [discriminate|].
  intros Hs; rewrite (IH Hs); reflexivity.
Qed.

(** The links of a text that is exactly one link. *)
Lemma extractWikiLinks_one_link t d :
  t <> [] -> forallb target_char t = true ->
  d <> [] -> forallb display_char d = true ->
  count_LF (link_text t (Some d)) = 0 ->
  extractWikiLinks (link_text t (Some d))
  = [{| raw := link_text t (Some d); target := trim t;
        displayText := Some (trim d); startIndex := 0;
        endIndex := length (link_text t (Some d)); line := Some 1 |}].
Proof.
  intros Ht Htc Hd Hdc Hlf.
  pose proof (@match_here_piped t d [] Ht Htc Hd Hdc) as Hm.
  rewrite app_nil_r in Hm.
  set (s := link_text t (Some d)) in *.
  unfold extractWikiLinks; rewrite (split_lines_one_line _ Hlf).
  assert (Hlen : 0 < length s) by apply link_text_not_nil.
  assert (He1 : exec s 0
                = (Some {| index := 0; m0 := s; m1 := t; m2 := Some d |},
                   length s)).
  { unfold exec; change (length s <? 0) with false; cbn [skipn].
    rewrite (@search_here s 0 _ _ _ Hm); reflexivity. }
  assert (He2 : exec s (length s) = (None, 0)).
  { unfold exec; rewrite Nat.ltb_irrefl, skipn_all; reflexivity. }
  cbn [for_lines].
  destruct (length s) as [|n] eqn:Hn; [lia|].
  cbn [exec_loop]; rewrite He1; cbn [exec_loop]; rewrite He2.
  cbn [m0 m1 m2 index option_map app Nat.add]; rewrite Hn; reflexivity.
Qed.

End ParserFacts.

(* ===================================================================== *)
(** ** Properties of the stable sort *)
(* ===================================================================== *)

Section SortFacts.

Variables (A : Type) (cmp : A -> A -> Z) (key : A -> Z) (P : A -> Prop).

(** On the elements that satisfy [P] the comparator orders by [key]. *)
Hypothesis cmp_key :
  forall x y, P x -> P y -> ((0 < cmp x y)%Z <-> (key y < key x)%Z).

Lemma sort_insert_perm x l : Permutation (sort_insert cmp x l) (x :: l).
Proof.
  induction l as [|y l IH]; simpl; [reflexivity|].
  destruct (0 <? cmp x y)%Z; [|reflexivity].
  rewrite IH; apply perm_swap.
Qed.

Lemma sort_perm l : Permutation (sort cmp l) l.
Proof.
  induction l as [|x l IH]; simpl; [reflexivity|].
  rewrite sort_insert_perm; constructor; assumption.
Qed.

Lemma sort_Forall l : Forall P l -> Forall P (sort cmp l).
Proof.
  intros Hl; eapply Permutation_Forall; [symmetry; apply sort_perm | exact Hl].
Qed.

Lemma sort_insert_sorted x l :
  P x -> Forall P l ->
  StronglySorted (fun a b => (key a <= key b)%Z) l ->
  StronglySorted (fun a b => (key a <= key b)%Z) (sort_insert cmp x l).
Proof.
  intros Hx; induction l as [|y l IH]; intros HP Hs; simpl.
  - repeat constructor.
  - apply Forall_cons_iff in HP as [Hy HP].
    apply StronglySorted_inv in Hs as [Hs Hall].
    destruct (Z.ltb_spec 0 (cmp x y)) as [Hlt|Hge].
    + apply cmp_key in Hlt; [|assumption|assumption].
      constructor; [apply IH; assumption|].
      eapply Permutation_Forall; [symmetry; apply sort_insert_perm|].
      constructor; [lia | assumption].
    + assert (Hle : (key x <= key y)%Z).
      { destruct (Z.lt_ge_cases (key y) (key x)) as [Hlt|Hle]; [|lia].
        apply cmp_key in Hlt; [lia|assumption|assumption]. }
      constructor; [constructor; assumption|].
      constructor; [assumption|].
      eapply Forall_impl; [|exact Hall]; simpl; intros; lia.
Qed.

Lemma sort_sorted l :
  Forall P l -> StronglySorted (fun a b => (key a <= key b)%Z) (sort cmp l).
Proof.
  induction l as [|x l IH]; intros HP; simpl; [constructor|].
  apply Forall_cons_iff in HP as [Hx HP].
  apply sort_insert_sorted; auto using sort_Forall.
Qed.

(** Stability: the elements of one key keep their order. *)
Lemma sort_insert_stable x l k :
  P x -> Forall P l ->
  filter (fun a => (key a =? k)%Z) (sort_insert cmp x l)
  = filter (fun a => (key a =? k)%Z) (x :: l).
Proof.
  intros Hx; induction l as [|y l IH]; intros HP; [reflexivity|].
  apply Forall_cons_iff in HP as [Hy HP].
  cbn [sort_insert].
  destruct (Z.ltb_spec 0 (cmp x y)) as [Hlt|Hge]; [|reflexivity].
  apply cmp_key in Hlt; [|assumption|assumption].
  cbn [filter]; rewrite (IH HP); cbn [filter].
  destruct (Z.eqb_spec (key x) k), (Z.eqb_spec (key y) k);
    try reflexivity; lia.
Qed.

Lemma sort_stable l k :
  Forall P l ->
  filter (fun a => (key a =? k)%Z) (sort cmp l)
  = filter (fun a => (key a =? k)%Z) l.
Proof.
  induction l as [|x l IH]; intros HP; [reflexivity|].
  apply Forall_cons_iff in HP as [Hx HP].
  cbn [sort]; rewrite sort_insert_stable; auto using sort_Forall.
  cbn [filter]; rewrite (IH HP); reflexivity.
Qed.

End SortFacts.

(* ===================================================================== *)
(** ** Properties of levenshteinDistance *)
(* ===================================================================== *)

Section DistanceFacts.

Lemma min3_le x y z : min3 x y z <= x /\ min3 x y z <= y /\ min3 x y z <= z.
Proof. unfold min3; lia. Qed.

Lemma min3_cases x y z : min3 x y z = x \/ min3 x y z = y \/ min3 x y z = z.
Proof. unfold min3; lia. Qed.

Lemma charAt_eqb_sym x y : charAt_eqb x y = charAt_eqb y x.
Proof. destruct x, y; simpl; auto using N.eqb_sym. Qed.

Lemma prefix_distance_0_r s t i : prefix_distance s t i 0 = i.
Proof. destruct i; reflexivity. Qed.

Lemma prefix_distance_S_S s t i j :
  prefix_distance s t (S i) (S j)
  = min3 (prefix_distance s t i (S j) + 1)
         (prefix_distance s t (S i) j + 1)
         (prefix_distance s t i j
          + if charAt_eqb (charAt s i) (charAt t j) then 0 else 1).
Proof. reflexivity. Qed.

Lemma prefix_distance_sym s t i :
  forall j, prefix_distance s t i j = prefix_distance t s j i.
Proof.
  induction i as [|i IHi]; intros j.
  - rewrite prefix_distance_0_r; reflexivity.
  - induction j as [|j IHj]; [reflexivity|].
    rewrite !prefix_distance_S_S, IHj, !IHi, (charAt_eqb_sym (charAt t j)).
    unfold min3; lia.
Qed.

Lemma edit_distance_sym s t : edit_distance s t = edit_distance t s.
Proof. apply prefix_distance_sym. Qed.

(** One more character on either side changes the distance by at most 1. *)
Lemma prefix_distance_step_r s t i j :
  prefix_distance s t i (S j) <= prefix_distance s t i j + 1.
Proof.
  destruct i as [|i]; [simpl; lia|].
  rewrite prefix_distance_S_S.
  pose proof (min3_le (prefix_distance s t i (S j) + 1)
                (prefix_distance s t (S i) j + 1)
                (prefix_distance s t i j
                 + if charAt_eqb (charAt s i) (charAt t j) then 0 else 1)).
  lia.
Qed.

Lemma prefix_distance_back_l s t i :
  forall j, prefix_distance s t i j <= prefix_distance s t (S i) j + 1.
Proof.
  induction j as [|j IH].
  - rewrite !prefix_distance_0_r; lia.
  - rewrite prefix_distance_S_S.
    pose proof (prefix_distance_step_r s t i j) as Hstep.
    destruct (min3_cases (prefix_distance s t i (S j) + 1)
                (prefix_distance s t (S i) j + 1)
                (prefix_distance s t i j
                 + if charAt_eqb (charAt s i) (charAt t j) then 0 else 1))
      as [-> | [-> | ->]]; lia.
Qed.

Lemma prefix_distance_back_r s t i j :
  prefix_distance s t i j <= prefix_distance s t i (S j) + 1.
Proof.
  rewrite (prefix_distance_sym s t i j), (prefix_distance_sym s t i (S j)).
  apply prefix_distance_back_l.
Qed.

(** The cell the code computes: with equal characters the diagonal value
    alone, otherwise 1 plus the least of the three neighbours. *)
Lemma prefix_distance_cell s t i j :
  prefix_distance s t (S i) (S j)
  = if charAt_eqb (charAt s i) (charAt t j)
    then prefix_distance s t i j
    else min3 (prefix_distance s t i j + 1)
              (prefix_distance s t (S i) j + 1)
              (prefix_distance s t i (S j) + 1).
Proof.
  rewrite prefix_distance_S_S.
  pose proof (prefix_distance_back_l s t i j).
  pose proof (prefix_distance_back_r s t i j).
  destruct (charAt_eqb (charAt s i) (charAt t j)); unfold min3; lia.
Qed.

(** *** The loops *)

Lemma for_each_seq {T : Type} (body : nat -> T -> option T) (St : nat -> T) :
  forall len start,
    (forall k, start <= k < start + len -> body k (St k) = Some (St (S k))) ->
    for_each (seq start len) body (St start) = Some (St (start + len)).
Proof.
  induction len as [|len IH]; intros start Hbody; simpl.
  - rewrite Nat.add_0_r; reflexivity.
  - rewrite Hbody by lia.
    rewrite IH; [f_equal; f_equal; lia|].
    intros k Hk; apply Hbody; lia.
Qed.

Variables a b : jsstring.

(** [D i j] is the cell [matrix[i][j]] when it is filled. *)
Let D (i j : nat) : nat := prefix_distance b a i j.

(** How much of row [k] is filled while the loops are at cell [(i, j)]:
    the rows above are complete, the rows below hold their first cell. *)
Let filled (i j k : nat) : nat :=
  if k <? i then S (length a) else if k =? i then j else 1.

Let state (i j : nat) : Matrix :=
  List.map (fun k => List.map (D k) (seq 0 (filled i j k)))
           (seq 0 (S (length b))).

Lemma nth_error_map_seq {B} (f : nat -> B) n k :
  k < n -> nth_error (List.map f (seq 0 n)) k = Some (f k).
Proof.
  intros Hk.
  rewrite nth_error_map, nth_error_nth' with (d := 0)
    by (rewrite length_seq; assumption).
  rewrite seq_nth by assumption; reflexivity.
Qed.

Lemma mget_state i j k c :
  k <= length b -> c < filled i j k -> mget (state i j) k c = Some (D k c).
Proof.
  intros Hk Hc; unfold mget, state.
  rewrite nth_error_map_seq by lia.
  apply nth_error_map_seq; assumption.
Qed.

Lemma replace_middle {B} (l1 : list B) x l2 v :
  firstn (length l1) (l1 ++ x :: l2)
    ++ v :: skipn (S (length l1)) (l1 ++ x :: l2)
  = l1 ++ v :: l2.
Proof.
  rewrite firstn_app, Nat.sub_diag, firstn_all, firstn_O, app_nil_r.
  rewrite skipn_app, skipn_all2 by lia.
  replace (S (length l1) - length l1) with 1 by lia; reflexivity.
Qed.

Lemma arr_set_map_seq {B} (f g : nat -> B) n i v :
  i < n -> g i = v -> (forall k, k < n -> k <> i -> g k = f k) ->
  arr_set (List.map f (seq 0 n)) i v = Some (List.map g (seq 0 n)).
Proof.
  intros Hi Hv Hother; unfold arr_set.
  rewrite length_map, length_seq.
  destruct (Nat.ltb_spec i n) as [_|]; [|lia].
  f_equal.
  replace n with (i + S (n - S i)) by lia.
  rewrite seq_app, !map_app; cbn [seq List.map Nat.add].
  assert (Hlen : length (List.map f (seq 0 i)) = i)
    by (rewrite length_map, length_seq; reflexivity).
  pose proof (replace_middle (List.map f (seq 0 i)) (f i)
                (List.map f (seq (S i) (n - S i))) v) as Hmid.
  rewrite Hlen in Hmid; rewrite Hmid, Hv.
  f_equal; [|f_equal].
  - apply map_ext_in; intros k Hk; apply in_seq in Hk.
    symmetry; apply Hother; lia.
  - apply map_ext_in; intros k Hk; apply in_seq in Hk.
    symmetry; apply Hother; lia.
Qed.

Lemma arr_set_append {B} (l : list B) v : arr_set l (length l) v = Some (l ++ [v]).
Proof.
  unfold arr_set; rewrite Nat.ltb_irrefl, Nat.eqb_refl; reflexivity.
Qed.

(** Writing the next cell of the current row. *)
Lemma mset_state i j v :
  i <= length b -> 1 <= j -> v = D i j ->
  mset (state i j) i j v = Some (state i (S j)).
Proof.
  intros Hi Hj Hv; unfold mset.
  assert (Hrow : nth_error (state i j) i = Some (List.map (D i) (seq 0 j))).
  { unfold state; rewrite nth_error_map_seq by lia.
    unfold filled; rewrite Nat.ltb_irrefl, Nat.eqb_refl; reflexivity. }
  rewrite Hrow.
  replace j with (length (List.map (D i) (seq 0 j))) at 2
    by (rewrite length_map, length_seq; reflexivity).
  rewrite arr_set_append.
  unfold state; apply arr_set_map_seq; [lia | |].
  - unfold filled; rewrite Nat.ltb_irrefl, Nat.eqb_refl.
    rewrite seq_S, map_app, Hv; reflexivity.
  - intros k _ Hk; unfold filled.
    destruct (k <? i); [reflexivity|].
    destruct (Nat.eqb_spec k i); [contradiction | reflexivity].
Qed.

Lemma state_next_row i : state i (S (length a)) = state (S i) 1.
Proof.
  unfold state; apply map_ext; intros k; f_equal; f_equal; unfold filled.
  destruct (Nat.ltb_spec k i), (Nat.ltb_spec k (S i)),
    (Nat.eqb_spec k i), (Nat.eqb_spec k (S i)); try lia; reflexivity.
Qed.

Lemma init_rows :
  for_each (seq 0 (S (length b))) (fun i matrix => arr_set matrix i [i]) []
  = Some (state 0 1).
Proof.
  rewrite (for_each_seq (fun i matrix => arr_set matrix i [i])
             (fun n => List.map (fun i => [i]) (seq 0 n))).
  - f_equal; unfold state; apply map_ext; intros k; unfold filled.
    destruct (Nat.eqb_spec k 0) as [->|]; simpl;
      unfold D; rewrite prefix_distance_0_r; reflexivity.
  - intros k _.
    replace k with (length (List.map (fun i => [i]) (seq 0 k))) at 2
      by (rewrite length_map, length_seq; reflexivity).
    rewrite arr_set_append, seq_S, map_app; reflexivity.
Qed.

Lemma init_first_row :
  for_each (seq 0 (S (length a))) (fun j matrix => mset matrix 0 j j)
           (state 0 1)
  = Some (state 0 (S (length a))).
Proof.
  cbn [seq for_each].
  assert (H0 : mset (state 0 1) 0 0 0 = Some (state 0 1)).
  { unfold mset, state; cbn [seq List.map nth_error filled Nat.ltb Nat.leb
                               Nat.eqb].
    unfold arr_set; cbn [length List.map seq Nat.ltb Nat.leb firstn skipn app].
    reflexivity. }
  rewrite H0.
  apply (for_each_seq (fun j matrix => mset matrix 0 j j) (fun j => state 0 j)).
  intros k Hk; apply mset_state; [lia | lia | reflexivity].
Qed.

Lemma lev_cell_state i j :
  1 <= i <= length b -> 1 <= j <= length a ->
  lev_cell a b i j (state i j) = Some (state i (S j)).
Proof.
  intros Hi Hj; unfold lev_cell.
  assert (Hsub : mget (state i j) (i - 1) (j - 1) = Some (D (i - 1) (j - 1))).
  { apply mget_state; [lia|]; unfold filled.
    destruct (Nat.ltb_spec (i - 1) i); lia. }
  assert (Hins : mget (state i j) i (j - 1) = Some (D i (j - 1))).
  { apply mget_state; [lia|]; unfold filled.
    rewrite Nat.ltb_irrefl, Nat.eqb_refl; lia. }
  assert (Hdel : mget (state i j) (i - 1) j = Some (D (i - 1) j)).
  { apply mget_state; [lia|]; unfold filled.
    destruct (Nat.ltb_spec (i - 1) i); lia. }
  rewrite Hsub, Hins, Hdel.
  assert (Hcell := prefix_distance_cell b a (i - 1) (j - 1)).
  replace (S (i - 1)) with i in Hcell by lia.
  replace (S (j - 1)) with j in Hcell by lia.
  destruct (charAt_eqb (charAt b (i - 1)) (charAt a (j - 1)));
    apply mset_state; try lia; unfold D; rewrite Hcell; reflexivity.
Qed.

Lemma main_loop :
  for_each (seq 1 (length b))
    (fun i matrix => for_each (seq 1 (length a)) (lev_cell a b i) matrix)
    (state 1 1)
  = Some (state (1 + length b) 1).
Proof.
  apply (for_each_seq
           (fun i matrix => for_each (seq 1 (length a)) (lev_cell a b i) matrix)
           (fun i => state i 1)).
  intros i Hi.
  rewrite (for_each_seq (lev_cell a b i) (fun j => state i j)).
  - rewrite <- state_next_row; reflexivity.
  - intros j Hj; apply lev_cell_state; lia.
Qed.

(** The code computes the edit distance, and never reads a cell it has not
    written. *)
Lemma levenshteinDistance_defined :
  levenshteinDistance a b = Some (edit_distance a b).
Proof.
  unfold levenshteinDistance.
  rewrite init_rows, init_first_row, state_next_row, main_loop.
  rewrite mget_state.
  - unfold D, edit_distance; rewrite prefix_distance_sym; reflexivity.
  - lia.
  - unfold filled.
    destruct (Nat.ltb_spec (length b) (1 + length b)); lia.
Qed.

End DistanceFacts.

(* ===================================================================== *)
(** ** Properties of the resolver and of the index *)
(* ===================================================================== *)

Section EngineFacts.

Lemma StronglySorted_impl {A} (R R' : A -> A -> Prop) l :
  (forall x y, R x y -> R' x y) -> StronglySorted R l -> StronglySorted R' l.
Proof.
  intros HR; induction 1 as [|x l Hs IH Hall]; constructor; auto.
  eapply Forall_impl; [|exact Hall]; auto.
Qed.

Lemma slice0_cases {A} (l : list A) (n : Z) :
  slice0 l n
  = if (n <? 0)%Z then firstn (length l - Z.to_nat (- n)) l
    else firstn (Z.to_nat n) l.
Proof.
  unfold slice0; destruct (Z.ltb_spec n 0); [|reflexivity].
  f_equal; lia.
Qed.

Lemma by_score_key x y :
  score x <> None -> score y <> None ->
  ((0 < by_score x y)%Z <-> (Z.of_nat (dist y) < Z.of_nat (dist x))%Z).
Proof.
  unfold by_score, dist; destruct (score x), (score y); try congruence.
  intros _ _; lia.
Qed.

Lemma by_count_desc_key (x y : MostLinked.t) :
  True -> True ->
  ((0 < by_count_desc x y)%Z
   <-> (- Z.of_nat (MostLinked.count y) < - Z.of_nat (MostLinked.count x))%Z).
Proof. unfold by_count_desc; lia. Qed.

(** The items scored by the code are the candidates of the vocabulary. *)
Lemma scored_candidates h target pkmRoot :
  List.map
    (fun slug =>
       {| slug := slug;
          score := levenshteinDistance (toLowerCase h target)
                                       (toLowerCase h slug) |})
    (List.map (fun file => basename h file (lit ".md"))
              (getAllMarkdownFiles h pkmRoot))
  = candidates h target pkmRoot.
Proof.
  unfold candidates; rewrite map_map; apply map_ext; intros file.
  rewrite levenshteinDistance_defined; reflexivity.
Qed.

Lemma close_enough_dist h target pkmRoot :
  filter close_enough (candidates h target pkmRoot)
  = filter (fun item => dist item <=? 5) (candidates h target pkmRoot).
Proof.
  apply filter_ext_in; intros item Hin.
  apply in_map_iff in Hin as (file & <- & _); reflexivity.
Qed.

Lemma candidates_scored h target pkmRoot :
  Forall (fun item => score item <> None) (candidates h target pkmRoot).
Proof.
  apply Forall_forall; intros item Hin.
  apply in_map_iff in Hin as (file & <- & _); discriminate.
Qed.

Lemma Forall_filter {A} (P : A -> Prop) f l :
  Forall P l -> Forall P (filter f l).
Proof.
  intros Hl; apply Forall_forall; intros x Hx.
  apply filter_In in Hx as [Hx _].
  revert x Hx; apply Forall_forall; assumption.
Qed.

(** *** Maps *)

Lemma set_keys {V} (m : JSMap.t V) k v x :
  In x (List.map fst (JSMap.set m k v)) -> In x (List.map fst m) \/ x = k.
Proof.
  induction m as [|[k' v'] m IH]; simpl.
  - intros [<-|[]]; auto.
  - destruct (str_eqb k' k); simpl; [tauto|].
    intros [<-|Hin]; [auto|]; apply IH in Hin; tauto.
Qed.

Lemma is_map_set {V} (m : JSMap.t V) k v : is_map m -> is_map (JSMap.set m k v).
Proof.
  unfold is_map; induction m as [|[k' v'] m IH]; simpl; intros Hm.
  - repeat constructor; simpl; tauto.
  - apply NoDup_cons_iff in Hm as [Hk' Hm].
    destruct (str_eqb k' k) eqn:Hk; simpl.
    + constructor; assumption.
    + constructor; [|auto].
      intros Hin; apply set_keys in Hin as [Hin| ->]; [contradiction|].
      rewrite str_eqb_refl in Hk; discriminate.
Qed.

Lemma update_keys {V} (m : JSMap.t V) k f :
  List.map fst (JSMap.update m k f) = List.map fst m.
Proof.
  induction m as [|[k' v'] m IH]; simpl; [reflexivity|].
  destruct (str_eqb k' k); simpl; congruence.
Qed.

Lemma set_fresh {V} (m : JSMap.t V) k v :
  ~ In k (List.map fst m) -> JSMap.set m k v = m ++ [(k, v)].
Proof.
  induction m as [|[k' v'] m IH]; simpl; intros Hk; [reflexivity|].
  destruct (str_eqb k' k) eqn:He.
  - apply str_eqb_eq in He; tauto.
  - rewrite IH by tauto; reflexivity.
Qed.

(** Copying a map entry by entry, with [set], gives the entries in the same
    order. *)
Lemma fold_set_entries {V W} (g : V -> W) (m : JSMap.t V) :
  forall acc : JSMap.t W,
    NoDup (List.map fst acc ++ List.map fst m) ->
    fold_left (fun counts se => JSMap.set counts (fst se) (g (snd se))) m acc
    = acc ++ List.map (fun se => (fst se, g (snd se))) m.
Proof.
  induction m as [|[k v] m IH]; intros acc Hnd; simpl.
  - symmetry; apply app_nil_r.
  - rewrite set_fresh.
    + rewrite IH; [rewrite <- app_assoc; reflexivity|].
      rewrite map_app; simpl; rewrite <- app_assoc; exact Hnd.
    + simpl in Hnd; apply NoDup_remove_2 in Hnd.
      intros Hin; apply Hnd, in_or_app; auto.
Qed.

Lemma add_backlink_keys h root sourceSlug sourcePath idx link :
  List.map fst (add_backlink h root sourceSlug sourcePath idx link)
  = List.map fst idx.
Proof.
  unfold add_backlink.
  destruct (resolveTargetSlug h _ _) as [ts|]; [|reflexivity].
  destruct (truthy (Some ts) && JSMap.has idx ts); [|reflexivity].
  apply update_keys.
Qed.

(** [buildIndex] leaves a map: every slug once. *)
Lemma buildIndex_is_map h this : is_map (LinkIndex.index (buildIndex h this)).
Proof.
  unfold buildIndex; simpl.
  set (root := LinkIndex.enkiduRoot this).
  assert (H1 : forall files idx,
             is_map idx -> is_map (fold_left (index_file h) files idx)).
  { induction files as [|f files IH]; intros idx Hidx; simpl; [assumption|].
    apply IH; unfold index_file.
    destruct (readFile h f); [apply is_map_set|]; assumption. }
  assert (H2 : forall links s p idx,
             List.map fst (fold_left (add_backlink h root s p) links idx)
             = List.map fst idx).
  { induction links as [|l links IH]; intros s p idx; simpl; [reflexivity|].
    rewrite IH; apply add_backlink_keys. }
  assert (H3 : forall (walk : list (jsstring * LinkIndexEntry.t)) idx,
             List.map fst
               (fold_left
                  (fun idx se =>
                     fold_left
                       (add_backlink h root (fst se)
                                     (LinkIndexEntry.filePath (snd se)))
                       (LinkIndexEntry.outgoingLinks (snd se)) idx)
                  walk idx)
             = List.map fst idx).
  { induction walk as [|se walk IH]; intros idx; simpl; [reflexivity|].
    rewrite IH; apply H2. }
  unfold is_map; rewrite H3; apply H1; constructor.
Qed.

(** So does [loadCache]. *)
Lemma reconstruct_is_map cached : is_map (reconstruct cached).
Proof.
  unfold reconstruct.
  assert (H : forall (l : list (jsstring * LinkIndexEntry.t)) idx,
             is_map idx ->
             is_map (fold_left (fun idx se => JSMap.set idx (fst se) (snd se))
                               l idx)).
  { induction l as [|se l IH]; intros idx Hidx; simpl; [assumption|].
    apply IH, is_map_set; assumption. }
  apply H; constructor.
Qed.

(** [loadOrBuildLinkIndex] answers from the cache, without writing a new
    one, only when [isCacheValid] and [loadCache] both accept it. *)
Lemma loadOrBuildLinkIndex_cache_hit h JSON_parse d now savedAt root path this :
  truthy (Some path) = true ->
  loadOrBuildLinkIndex h JSON_parse d now savedAt root (Some path)
  = Resolved this None ->
  let fresh := {| LinkIndex.index := []; LinkIndex.enkiduRoot := root |} in
  isCacheValid h JSON_parse now fresh path = true
  /\ loadCache h JSON_parse fresh path = (true, this).
Proof.
  intros Hpath; unfold loadOrBuildLinkIndex; rewrite Hpath.
  destruct (isCacheValid h JSON_parse now _ path);
    [|destruct (saveCache_write _ _ _ _); discriminate].
  destruct (loadCache h JSON_parse _ path) as [[|] loaded];
    [|destruct (saveCache_write _ _ _ _); discriminate].
  intros [= ->]; split; reflexivity.
Qed.

End EngineFacts.

(* ===================================================================== *)
(** ** The parser: extraction, single links, literals *)
(* ===================================================================== *)

(** C1, evaluated on the input of the repository's own test "should handle
    nested brackets correctly", which expects no link: the target class
    [[^\]|]] does not exclude an opening bracket, so the pattern matches
    [[[note-[test]]] and extraction returns one reference, whose target is
    [note-[test]. *)
Theorem extractWikiLinks_nested_bracket :
  extractWikiLinks (lit "[[note-[test]]]")
  = [{| raw := lit "[[note-[test]]"; target := lit "note-[test";
        displayText := None; startIndex := 0; endIndex := 14;
        line := Some 1 |}].
Proof. vm_compute; reflexivity. Qed.

(** The scenario of the specification: two references on line 1, the
    second with a display text, offsets into the text. *)
Example extractWikiLinks_two_links :
  extractWikiLinks (lit "[[a]] mid [[b|B]]")
  = [{| raw := lit "[[a]]"; target := lit "a"; displayText := None;
        startIndex := 0; endIndex := 5; line := Some 1 |};
     {| raw := lit "[[b|B]]"; target := lit "b"; displayText := Some (lit "B");
        startIndex := 10; endIndex := 17; line := Some 1 |}].
Proof. vm_compute; reflexivity. Qed.

(** Offsets count the newlines of the lines before; lines count from 1. *)
Example extractWikiLinks_second_line :
  extractWikiLinks (JS.lit "# Title" ++ [LF] ++ lit "see [[  note  ]]")
  = [{| raw := lit "[[  note  ]]"; target := lit "note"; displayText := None;
        startIndex := 12; endIndex := 24; line := Some 2 |}].
Proof. vm_compute; reflexivity. Qed.

(** An inner [']'] does reject the link. *)
Example extractWikiLinks_inner_closing_bracket :
  extractWikiLinks (lit "[[a]b]]") = []
  /\ isValidWikiLink (lit "[[note[test]]]") = false
  /\ isValidWikiLink (lit "[[note|Display]]") = true.
Proof. repeat split; vm_compute; reflexivity. Qed.

(** C3 as stated fails: the parser trims the groups, so a target given with
    a leading blank does not come back unchanged. *)
Lemma roundtrip_loses_blank :
  List.map target
    (extractWikiLinks (createWikiLink (lit " a") (Some (lit "b"))))
  = [lit "a"]
  /\ lit "a" <> lit " a".
Proof. split; [vm_compute; reflexivity | discriminate]. Qed.

(** C3, amended: for a target that is not empty, has no [']'], ['|'] or
    newline and no blank at either end, and a display text that is not
    empty, has no [']'] or newline and no blank at either end, extraction
    from the literal built by [createWikiLink] yields exactly one reference,
    spanning the literal, with that target and that display text. *)
Theorem extract_create_roundtrip (t d : jsstring) :
  t <> [] -> forallb target_char t = true -> trim t = t ->
  d <> [] -> forallb display_char d = true -> trim d = d ->
  count_LF t = 0 -> count_LF d = 0 ->
  extractWikiLinks (createWikiLink t (Some d))
  = [{| raw := createWikiLink t (Some d); target := t;
        displayText := Some d; startIndex := 0;
        endIndex := length (createWikiLink t (Some d)); line := Some 1 |}].
Proof.
  intros Ht Htc Htt Hd Hdc Hdt Hlt Hld.
  assert (Hc : createWikiLink t (Some d) = link_text t (Some d)).
  { destruct d as [|c d]; [congruence | reflexivity]. }
  rewrite Hc, extractWikiLinks_one_link, Htt, Hdt; auto.
  unfold link_text; rewrite !count_LF_app, Hlt, count_LF_cons, Hld.
  reflexivity.
Qed.

Lemma extract_create_roundtrip_witness :
  extractWikiLinks (createWikiLink (lit "note") (Some (lit "Display Text")))
  = [{| raw := lit "[[note|Display Text]]"; target := lit "note";
        displayText := Some (lit "Display Text"); startIndex := 0;
        endIndex := 21; line := Some 1 |}].
Proof.
  apply (@extract_create_roundtrip (lit "note") (lit "Display Text"));
    try discriminate; reflexivity.
Defined.

(** C4 as stated fails: [parseWikiLink] answers with the first match also
    when text precedes or follows it. *)
Lemma parseWikiLink_not_whole_input :
  parseWikiLink (lit "text [[a]]")
  = Some {| raw := lit "[[a]]"; target := lit "a"; displayText := None;
            startIndex := 0; endIndex := 5; line := None |}
  /\ parseWikiLink (lit "[[first]][[second]]")
     = Some {| raw := lit "[[first]]"; target := lit "first";
               displayText := None; startIndex := 0; endIndex := 9;
               line := None |}.
Proof. split; vm_compute; reflexivity. Qed.

(** C4, amended: [parseWikiLink] returns null when the pattern matches
    nowhere in the input.  When the input begins with a match, it returns
    that match, whether or not text follows it, with the trimmed groups and
    no line; [startIndex] 0 and [endIndex], the length of the matched text,
    are then the place of the match in the input.  Such a match spans the
    entire input exactly when [isValidWikiLink] holds.  Inputs in which text
    precedes the first match are left aside. *)
Theorem parseWikiLink_first_match (text : jsstring) :
  ((forall k, match_here (skipn k text) = None) -> parseWikiLink text = None)
  /\ (forall m g1 g2,
        match_here text = Some (m, g1, g2) ->
        exists post,
          text = m ++ post
          /\ parseWikiLink text
             = Some {| raw := m; target := trim g1;
                       displayText := option_map trim g2;
                       startIndex := 0; endIndex := length m;
                       line := None |}
          /\ slice text 0 (length m) = m
          /\ (isValidWikiLink text = true <-> post = [])).
Proof.
  split.
  - intros Hnone; unfold parseWikiLink.
    destruct (exec text 0) as [[m|] li] eqn:He; [|reflexivity].
    apply exec_some in He as (_ & _ & _ & _ & _ & _ & _ & _ & _ & Hat).
    rewrite Hnone in Hat; discriminate.
  - intros m g1 g2 Hm.
    destruct (match_here_sound _ Hm) as (_ & (post & Hs) & _).
    assert (He : exec text 0
                 = (Some {| index := 0; m0 := m; m1 := g1; m2 := g2 |},
                    0 + length m)).
    { unfold exec; rewrite (proj2 (Nat.ltb_ge _ _)) by lia.
      cbn [skipn]; rewrite (search_here _ 0 Hm); reflexivity. }
    exists post; split; [assumption|]; split; [|split].
    + unfold parseWikiLink; rewrite He; reflexivity.
    + rewrite Hs at 1; unfold slice; cbn [skipn].
      rewrite Nat.sub_0_r, firstn_app, Nat.sub_diag, firstn_all.
      apply app_nil_r.
    + unfold isValidWikiLink; rewrite He; cbn [fst m0].
      rewrite str_eqb_eq; split.
      * intros Hall; rewrite <- (app_nil_r m) in Hall at 1.
        rewrite Hs in Hall; apply app_inv_head in Hall; auto.
      * intros ->; rewrite app_nil_r in Hs; auto.
Qed.

Lemma parseWikiLink_first_match_witness :
  parseWikiLink (lit "[[first]][[second]]")
  = Some {| raw := lit "[[first]]"; target := lit "first";
            displayText := None; startIndex := 0; endIndex := 9;
            line := None |}
  /\ isValidWikiLink (lit "[[first]][[second]]") = false.
Proof.
  destruct (proj2 (parseWikiLink_first_match (lit "[[first]][[second]]"))
              (lit "[[first]]") (lit "first") None)
    as (post & Hs & Hp & _ & Hv); [vm_compute; reflexivity|].
  split; [exact Hp|].
  destruct (isValidWikiLink (lit "[[first]][[second]]")); [|reflexivity].
  assert (Hpost : post = []) by (apply Hv; reflexivity).
  rewrite Hpost in Hs; vm_compute in Hs; discriminate.
Defined.

(** C8: every reference returned by [extractWikiLinks] has
    [startIndex < endIndex], its [raw] is the text of the whole input
    between these two offsets, and its [line] is 1 plus the number of
    newlines of the input before [startIndex]. *)
Theorem extractWikiLinks_well_placed (content : jsstring) :
  Forall
    (fun l =>
       startIndex l < endIndex l
       /\ raw l = slice content (startIndex l) (endIndex l)
       /\ line l = Some (1 + count_LF (firstn (startIndex l) content)))
    (extractWikiLinks content).
Proof.
  change (Forall (well_placed content) (extractWikiLinks content)).
  unfold extractWikiLinks.
  destruct (@for_lines_links content (split_lines content) [] 0 0 [])
    as (found & Hf & Hall).
  - rewrite join_split_lines; reflexivity.
  - apply split_lines_not_nil.
  - apply split_lines_no_LF.
  - reflexivity.
  - reflexivity.
  - rewrite Hf; assumption.
Qed.

(** C10: with the empty string as display text [createWikiLink] returns
    [[[target]]], the same literal as without a display text; no pipe
    separator is added. *)
Theorem createWikiLink_empty_display (t : jsstring) :
  createWikiLink t (Some []) = lit "[[" ++ t ++ lit "]]"
  /\ createWikiLink t (Some []) = createWikiLink t None.
Proof. split; reflexivity. Qed.

(* ===================================================================== *)
(** ** The resolver: suggestions *)
(* ===================================================================== *)

(** C6: when resolution fails, [resolveWikiLink] reports [exists: false]
    with at most 5 suggestions: the first 5 stems of the ranking of the
    candidates whose case-insensitive edit distance to the target is at most
    5, ranked by ascending distance, candidates of equal distance in scan
    order.  The distance the code computes is the edit distance of the
    classic recurrence. *)
Theorem resolveWikiLink_suggestions (h : Host) (target pkmRoot : jsstring) :
  findNoteByLink h target pkmRoot = None ->
  let close :=
    filter (fun item => dist item <=? 5) (candidates h target pkmRoot) in
  ResolvedLink.exists_ (resolveWikiLink h target pkmRoot) = false
  /\ exists ranked,
       ResolvedLink.suggestions (resolveWikiLink h target pkmRoot)
       = Some (List.map slug (firstn 5 ranked))
       /\ length (List.map slug (firstn 5 ranked)) <= 5
       /\ Permutation ranked close
       /\ StronglySorted (fun x y => dist x <= dist y) ranked
       /\ (forall d, filter (fun item => dist item =? d) ranked
                     = filter (fun item => dist item =? d) close).
Proof.
  intros Hnone close.
  unfold resolveWikiLink; rewrite Hnone.
  cbn [truthy ResolvedLink.exists_ ResolvedLink.suggestions].
  split; [reflexivity|].
  unfold findSimilarNotes.
  rewrite scored_candidates, close_enough_dist, slice0_cases; fold close.
  change (5 <? 0)%Z with false; change (Z.to_nat 5) with 5; cbv iota.
  assert (Hscored : Forall (fun item => score item <> None) close)
    by apply Forall_filter, candidates_scored.
  exists (sort by_score close); repeat split.
  - rewrite length_map, length_firstn; lia.
  - apply sort_perm.
  - eapply StronglySorted_impl;
      [|exact (@sort_sorted Scored by_score
                 (fun item => Z.of_nat (dist item))
                 (fun item => score item <> None) by_score_key close Hscored)].
    simpl; intros; lia.
  - intros d.
    pose proof (@sort_stable Scored by_score
                  (fun item => Z.of_nat (dist item))
                  (fun item => score item <> None) by_score_key close
                  (Z.of_nat d) Hscored) as Hst.
    assert (Heq : forall item,
               (dist item =? d) = (Z.of_nat (dist item) =? Z.of_nat d)%Z).
    { intros item.
      destruct (Nat.eqb_spec (dist item) d),
        (Z.eqb_spec (Z.of_nat (dist item)) (Z.of_nat d));
        try reflexivity; lia. }
    rewrite !(filter_ext _ _ Heq); exact Hst.
Qed.

Lemma resolveWikiLink_suggestions_witness :
  let h := Demo.host Demo.greek in
  let close :=
    filter (fun item => dist item <=? 5)
           (candidates h (lit "gamma") (lit "/pkm")) in
  ResolvedLink.exists_ (resolveWikiLink h (lit "gamma") (lit "/pkm")) = false
  /\ exists ranked,
       ResolvedLink.suggestions (resolveWikiLink h (lit "gamma") (lit "/pkm"))
       = Some (List.map slug (firstn 5 ranked))
       /\ length (List.map slug (firstn 5 ranked)) <= 5
       /\ Permutation ranked close
       /\ StronglySorted (fun x y => dist x <= dist y) ranked
       /\ (forall d, filter (fun item => dist item =? d) ranked
                     = filter (fun item => dist item =? d) close).
Proof.
  apply (@resolveWikiLink_suggestions (Demo.host Demo.greek) (lit "gamma")
                                      (lit "/pkm")).
  vm_compute; reflexivity.
Defined.

(** The suggestions on the corpus [Demo.greek]: nearest first, equal
    distances in scan order, cut at 5; [introduction] is too far. *)
Example suggestions_for_gamma :
  ResolvedLink.suggestions
    (resolveWikiLink (Demo.host Demo.greek) (lit "gamma") (lit "/pkm"))
  = Some [lit "gamme"; lit "Gamut"; lit "sigma"; lit "alpha"; lit "beta"].
Proof. vm_compute; reflexivity. Qed.

(* ===================================================================== *)
(** ** The index: queries, statistics, ranking, cache *)
(* ===================================================================== *)

(** C9: for a slug that the index does not hold, [getBacklinks] and
    [getOutgoingLinks] both return the empty array. *)
Theorem unknown_slug_no_links (this : LinkIndex.t) (slug : jsstring) :
  JSMap.has (LinkIndex.index this) slug = false ->
  getBacklinks this slug = [] /\ getOutgoingLinks this slug = [].
Proof.
  unfold JSMap.has, getBacklinks, getOutgoingLinks.
  destruct (JSMap.get (LinkIndex.index this) slug); [discriminate|].
  split; reflexivity.
Qed.

Lemma unknown_slug_no_links_witness :
  let built := buildIndex (Demo.host Demo.two_roots)
                          (Demo.new_index (lit "/pkm")) in
  getBacklinks built (lit "gamma") = []
  /\ getOutgoingLinks built (lit "gamma") = [].
Proof.
  apply (@unknown_slug_no_links
           (buildIndex (Demo.host Demo.two_roots) (Demo.new_index (lit "/pkm")))
           (lit "gamma")).
  vm_compute; reflexivity.
Defined.

(** C7: on one index and one corpus, the number of broken links found is
    the [brokenLinks] of the statistics, which is [totalLinks] minus
    [validLinks]. *)
Theorem statistics_broken_links (h : Host) (this : LinkIndex.t) :
  Z.of_nat (length (findBrokenLinks h this)) = brokenLinks (getStatistics h this)
  /\ brokenLinks (getStatistics h this)
     = (totalLinks (getStatistics h this) - validLinks (getStatistics h this))%Z.
Proof. unfold getStatistics; simpl; split; lia. Qed.

(** C5 as stated fails: two notes without backlinks come in the order of the
    index, [beta] before [alpha], not in lexicographic order. *)
Lemma most_linked_ties_not_lexicographic :
  let built := buildIndex (Demo.host Demo.two_roots)
                          (Demo.new_index (lit "/pkm")) in
  getMostLinkedNotes built 10
  = [ {| MostLinked.slug := lit "beta"; MostLinked.count := 0 |};
      {| MostLinked.slug := lit "alpha"; MostLinked.count := 0 |} ]
  /\ ties_lexicographic (getMostLinkedNotes built 10) = false.
Proof. split; vm_compute; reflexivity. Qed.

(** C5, amended: [getMostLinkedNotes] ranks the notes of the index by
    descending number of backlinks, notes of equal number in the order of
    the index, and returns the first [limit] of the ranking (for a negative
    [limit], all but the last [-limit]). *)
Theorem getMostLinkedNotes_ranking (this : LinkIndex.t) (limit : Z) :
  is_map (LinkIndex.index this) ->
  exists ranked,
    getMostLinkedNotes this limit
    = (if (limit <? 0)%Z
       then firstn (length ranked - Z.to_nat (- limit)) ranked
       else firstn (Z.to_nat limit) ranked)
    /\ Permutation ranked (backlink_counts this)
    /\ StronglySorted
         (fun x y => MostLinked.count y <= MostLinked.count x) ranked
    /\ (forall c,
          filter (fun x => MostLinked.count x =? c) ranked
          = filter (fun x => MostLinked.count x =? c) (backlink_counts this)).
Proof.
  intros Hmap.
  exists (sort by_count_desc (backlink_counts this)).
  assert (Hall : Forall (fun _ : MostLinked.t => True) (backlink_counts this))
    by (apply Forall_forall; trivial).
  repeat split.
  - unfold getMostLinkedNotes; rewrite slice0_cases.
    rewrite (fold_set_entries
               (fun e => length (LinkIndexEntry.incomingLinks e)))
      by exact Hmap.
    unfold JSMap.entries, backlink_counts; simpl; rewrite map_map.
    reflexivity.
  - apply sort_perm.
  - eapply StronglySorted_impl;
      [|exact (@sort_sorted MostLinked.t by_count_desc
                 (fun x => (- Z.of_nat (MostLinked.count x))%Z)
                 (fun _ => True) by_count_desc_key (backlink_counts this)
                 Hall)].
    simpl; intros; lia.
  - intros c.
    pose proof (@sort_stable MostLinked.t by_count_desc
                  (fun x => (- Z.of_nat (MostLinked.count x))%Z)
                  (fun _ => True) by_count_desc_key (backlink_counts this)
                  (- Z.of_nat c) Hall) as Hst.
    assert (Heq : forall x,
               (MostLinked.count x =? c)
               = (- Z.of_nat (MostLinked.count x) =? - Z.of_nat c)%Z).
    { intros x.
      destruct (Nat.eqb_spec (MostLinked.count x) c),
        (Z.eqb_spec (- Z.of_nat (MostLinked.count x)) (- Z.of_nat c));
        try reflexivity; lia. }
    rewrite !(filter_ext _ _ Heq); exact Hst.
Qed.

Lemma getMostLinkedNotes_ranking_witness :
  let built := buildIndex (Demo.host Demo.two_roots)
                          (Demo.new_index (lit "/pkm")) in
  exists ranked,
    getMostLinkedNotes built 1
    = (if (1 <? 0)%Z
       then firstn (length ranked - Z.to_nat (- 1)) ranked
       else firstn (Z.to_nat 1) ranked)
    /\ Permutation ranked (backlink_counts built)
    /\ StronglySorted
         (fun x y => MostLinked.count y <= MostLinked.count x) ranked
    /\ (forall c,
          filter (fun x => MostLinked.count x =? c) ranked
          = filter (fun x => MostLinked.count x =? c) (backlink_counts built)).
Proof.
  apply (@getMostLinkedNotes_ranking
           (buildIndex (Demo.host Demo.two_roots) (Demo.new_index (lit "/pkm")))
           1%Z).
  unfold is_map; vm_compute.
  constructor; [simpl; intros [H|[]]; discriminate|].
  constructor; [simpl; tauto | constructor].
Defined.

(** C2 as stated fails: a cache record of another format version, written
    a minute ago, with as many entries as the corpus has files, is valid for
    [isCacheValid]. *)
Lemma isCacheValid_ignores_version :
  let record := Demo.cache_record (lit "2.0.0") 1000 in
  isCacheValid (Demo.host Demo.with_cache) (Demo.JSON_parse record) 61000
               (Demo.new_index (lit "/pkm")) Demo.cache_path = true
  /\ str_eqb (CacheData.version record) (lit "1.0.0") = false.
Proof. split; vm_compute; reflexivity. Qed.

(** C2, amended: [isCacheValid] returns true only if the cache file parses
    to a record whose age, when its timestamp is a date, is at most one hour
    and whose number of entries is the current number of markdown files; it
    does not look at the format version.  The version is checked by
    [loadCache], which loads the record only if it is ["1.0.0"]. *)
Theorem isCacheValid_checks (h : Host)
    (JSON_parse : jsstring -> option CacheData.t) (now : Z)
    (this : LinkIndex.t) (cachePath : jsstring) :
  isCacheValid h JSON_parse now this cachePath = true ->
  exists content cacheData cached,
    readFile h cachePath = Some content
    /\ JSON_parse content = Some cacheData
    /\ CacheData.index cacheData = Some cached
    /\ (forall t, CacheData.timestamp cacheData = Some t ->
                  (now - t <= 60 * 60 * 1000)%Z)
    /\ length cached
       = length (getAllMarkdownFiles h (LinkIndex.enkiduRoot this))
    /\ (fst (loadCache h JSON_parse this cachePath) = true ->
        CacheData.version cacheData = lit "1.0.0").
Proof.
  unfold isCacheValid, loadCache.
  destruct (fileExists h cachePath); simpl; [|discriminate].
  destruct (readFile h cachePath) as [content|] eqn:Hread; [|discriminate].
  destruct (JSON_parse content) as [cacheData|] eqn:Hparse; [|discriminate].
  destruct (too_old now (CacheData.timestamp cacheData)) eqn:Hold;
    [discriminate|].
  destruct (CacheData.index cacheData) as [cached|] eqn:Hindex;
    [|discriminate].
  intros Hlen; apply Nat.eqb_eq in Hlen.
  exists content, cacheData, cached.
  split; [reflexivity|]; split; [assumption|]; split; [assumption|].
  split; [|split; [congruence|]].
  - intros t Ht; rewrite Ht in Hold; unfold too_old, maxAge in Hold.
    apply Z.ltb_ge in Hold; lia.
  - destruct (str_eqb (CacheData.version cacheData) (lit "1.0.0")) eqn:Hv;
      simpl; [intros _; apply str_eqb_eq; assumption | discriminate].
Qed.

Lemma isCacheValid_checks_witness :
  let h := Demo.host Demo.with_cache in
  let parse := Demo.JSON_parse (Demo.cache_record (lit "1.0.0") 1000) in
  let this := Demo.new_index (lit "/pkm") in
  exists content cacheData cached,
    readFile h Demo.cache_path = Some content
    /\ parse content = Some cacheData
    /\ CacheData.index cacheData = Some cached
    /\ (forall t, CacheData.timestamp cacheData = Some t ->
                  (61000 - t <= 60 * 60 * 1000)%Z)
    /\ length cached
       = length (getAllMarkdownFiles h (LinkIndex.enkiduRoot this))
    /\ (fst (loadCache h parse this Demo.cache_path) = true ->
        CacheData.version cacheData = lit "1.0.0").
Proof.
  apply (@isCacheValid_checks (Demo.host Demo.with_cache)
           (Demo.JSON_parse (Demo.cache_record (lit "1.0.0") 1000)) 61000%Z
           (Demo.new_index (lit "/pkm")) Demo.cache_path).
  vm_compute; reflexivity.
Defined.

(* ===================================================================== *)
(** ** More on the parser: order, shape, replacement, validity *)
(* ===================================================================== *)

Section ParserMore.

Lemma chain_weaken p p' links bound :
  p <= p' -> chain p' links bound -> chain p links bound.
Proof. destruct links; simpl; intuition lia. Qed.

Lemma chain_app p l1 q q' l2 bound :
  chain p l1 q -> q <= q' -> chain q' l2 bound -> chain p (l1 ++ l2) bound.
Proof.
  revert p; induction l1 as [|l l1 IH]; simpl; intros p H1 Hq H2.
  - eapply chain_weaken; [|exact H2]; lia.
  - destruct H1 as (Hp & Hl & H1); eauto.
Qed.

Lemma chain_bound p links bound : chain p links bound -> p <= bound.
Proof.
  revert p; induction links as [|l links IH]; simpl; intros p H; [assumption|].
  destruct H as (Hp & Hl & H); apply IH in H; lia.
Qed.

(** The links of one line, in order, with their shape. *)
Lemma exec_loop_found fuel ln lineStart lineNumber :
  forall lastIndex links,
    lastIndex <= length ln ->
    exists found,
      exec_loop fuel ln lineStart lineNumber lastIndex links = links ++ found
      /\ chain (lineStart + lastIndex) found (lineStart + length ln)
      /\ Forall shaped found.
Proof.
  induction fuel as [|fuel IH]; intros li links Hli; simpl.
  - exists []; rewrite app_nil_r; simpl; repeat split; [lia | constructor].
  - destruct (exec ln li) as [[m|] li'] eqn:He.
    + match goal with |- context [links ++ [?l]] => set (l0 := l) end.
      apply exec_some in He
        as (pre & post & Hs & Hi & Hle & Hli' & Hpos & Hraw & _ & Hat).
      assert (Hin : li' <= length ln) by (rewrite Hs, !length_app; lia).
      destruct (IH li' (links ++ [l0]) Hin) as (found & -> & Hchain & Hall).
      exists (l0 :: found); rewrite <- app_assoc; split; [reflexivity|].
      split.
      * subst l0; simpl; repeat split; try lia.
        replace (lineStart + index m + length (m0 m)) with (lineStart + li')
          by lia.
        exact Hchain.
      * constructor; [|assumption].
        apply match_here_sound in Hat as (_ & _ & Hg1 & Hc1 & Hg2).
        exists (m1 m), (m2 m); subst l0; simpl; repeat split; auto;
          apply Hg2; assumption.
    + exists []; rewrite app_nil_r; simpl; repeat split; [lia | constructor].
Qed.

Lemma for_lines_found content lines :
  forall before lineNumber currentIndex links,
    content = before ++ join_lines lines ->
    lines <> [] ->
    currentIndex = length before ->
    exists found,
      for_lines lines lineNumber currentIndex links = links ++ found
      /\ chain currentIndex found (length content)
      /\ Forall shaped found.
Proof.
  induction lines as [|ln rest IH]; [congruence|].
  intros before lineNumber currentIndex links Hc _ Hidx.
  cbn [for_lines].
  destruct (@exec_loop_found (S (length ln)) ln currentIndex lineNumber 0 links)
    as (here & Hhere & Hchain & Hshape); [lia|].
  rewrite Hhere, Nat.add_0_r in *.
  destruct rest as [|ln' rest'].
  - exists here; split; [reflexivity|]; split; [|assumption].
    rewrite Hc; simpl; rewrite length_app, <- Hidx; exact Hchain.
  - destruct (IH (before ++ ln ++ [LF]) (S lineNumber)
                 (currentIndex + (length ln + 1)) (links ++ here))
      as (later & Hlater & Hchain' & Hshape').
    + rewrite Hc; simpl; rewrite <- !app_assoc; reflexivity.
    + discriminate.
    + rewrite !length_app; simpl; lia.
    + rewrite Hlater.
      exists (here ++ later); rewrite <- app_assoc; split; [reflexivity|].
      split; [|apply Forall_app; split; assumption].
      eapply chain_app; [exact Hchain | | exact Hchain']; lia.
Qed.

Lemma extractWikiLinks_found content :
  chain 0 (extractWikiLinks content) (length content)
  /\ Forall shaped (extractWikiLinks content)
  /\ Forall (well_placed content) (extractWikiLinks content).
Proof.
  unfold extractWikiLinks.
  destruct (@for_lines_found content (split_lines content) [] 0 0 [])
    as (found & Hf & Hchain & Hshape);
    [rewrite join_split_lines; reflexivity | apply split_lines_not_nil
     | reflexivity |].
  destruct (@for_lines_links content (split_lines content) [] 0 0 [])
    as (found' & Hf' & Hplaced);
    [rewrite join_split_lines; reflexivity | apply split_lines_not_nil
     | apply split_lines_no_LF | reflexivity | reflexivity |].
  rewrite Hf; rewrite Hf in Hf'; simpl in Hf'; subst found'; auto.
Qed.

(** *** Replacement *)

Lemma sort_insert_last {A} (cmp : A -> A -> Z) x l :
  Forall (fun y => (0 < cmp x y)%Z) l -> sort_insert cmp x l = l ++ [x].
Proof.
  induction 1 as [|y l Hy Hl IH]; simpl; [reflexivity|].
  destruct (Z.ltb_spec 0 (cmp x y)); [rewrite IH; reflexivity | lia].
Qed.

Lemma chain_starts p links bound :
  chain p links bound -> Forall (fun l => p <= startIndex l) links.
Proof.
  revert p; induction links as [|l links IH]; simpl; intros p H; constructor.
  - tauto.
  - destruct H as (Hp & Hl & H); apply IH in H.
    eapply Forall_impl; [|exact H]; simpl; intros; lia.
Qed.

(** Sorting links that are in text order by descending start reverses
    them. *)
Lemma sort_chain_rev p links bound :
  chain p links bound -> sort by_start_desc links = rev links.
Proof.
  revert p; induction links as [|l links IH]; simpl; intros p H;
    [reflexivity|].
  destruct H as (Hp & Hl & H).
  rewrite (IH _ H); apply sort_insert_last.
  apply Forall_rev; apply chain_starts in H.
  eapply Forall_impl; [|exact H]; unfold by_start_desc; simpl; intros; lia.
Qed.

Lemma firstn_firstn_app {A} (l r : list A) n m :
  n <= m -> m <= length l -> firstn n (firstn m l ++ r) = firstn n l.
Proof.
  intros Hn Hm.
  rewrite firstn_app, length_firstn, Nat.min_l by assumption.
  replace (n - m) with 0 by lia; rewrite firstn_O, app_nil_r.
  rewrite firstn_firstn; f_equal; lia.
Qed.

Lemma skipn_firstn_app {A} (l r : list A) m :
  m <= length l -> skipn m (firstn m l ++ r) = r.
Proof.
  intros Hm.
  assert (Hlen : length (firstn m l) = m) by (apply firstn_length_le, Hm).
  rewrite <- Hlen at 1; apply skipn_app_exact.
Qed.

Lemma firstn_split {A} (l : list A) n m :
  n <= m -> firstn m l = firstn n l ++ firstn (m - n) (skipn n l).
Proof.
  intros Hn.
  rewrite <- (firstn_skipn n l) at 1.
  rewrite firstn_app, firstn_firstn, Nat.min_r by lia.
  f_equal.
  destruct (Nat.le_gt_cases n (length l)) as [Hle|Hgt].
  - rewrite firstn_length_le by assumption; reflexivity.
  - rewrite skipn_all2 by lia; rewrite !firstn_nil; reflexivity.
Qed.

Lemma splice_rebuild content replacer links :
  forall pos,
    chain pos links (length content) ->
    fold_right
      (fun link result =>
         slice result 0 (startIndex link)
           ++ replacer link ++ slice_from result (endIndex link))
      content links
    = firstn pos content ++ rebuild content replacer links pos.
Proof.
  induction links as [|l links IH]; intros pos H; simpl.
  - unfold slice_from; symmetry; apply firstn_skipn.
  - destruct H as (Hp & Hl & H).
    pose proof (chain_bound _ _ _ H) as Hb.
    rewrite (IH _ H); unfold slice, slice_from; simpl.
    rewrite Nat.sub_0_r, firstn_firstn_app by lia.
    rewrite skipn_firstn_app by assumption.
    rewrite (firstn_split content Hp), <- app_assoc; reflexivity.
Qed.

Lemma fold_left_rev {A B} (g : A -> B -> A) (l : list B) (a : A) :
  fold_left g (rev l) a = fold_right (fun x acc => g acc x) a l.
Proof.
  induction l as [|x l IH]; simpl; [reflexivity|].
  rewrite fold_left_app; simpl; rewrite IH; reflexivity.
Qed.

Lemma replaceWikiLinks_rebuild content replacer :
  replaceWikiLinks content replacer
  = rebuild content replacer (extractWikiLinks content) 0.
Proof.
  unfold replaceWikiLinks.
  destruct (extractWikiLinks_found content) as (Hchain & _).
  rewrite (sort_chain_rev _ _ _ Hchain), fold_left_rev.
  rewrite (splice_rebuild content replacer _ 0 Hchain); reflexivity.
Qed.

Lemma rebuild_raw content links :
  forall pos,
    chain pos links (length content) ->
    Forall (well_placed content) links ->
    rebuild content raw links pos = skipn pos content.
Proof.
  induction links as [|l links IH]; intros pos Hc Hw; simpl; [reflexivity|].
  destruct Hc as (Hp & Hl & Hc).
  apply Forall_cons_iff in Hw as [(_ & Hraw & _) Hw].
  rewrite (IH _ Hc Hw), Hraw; unfold slice.
  assert (E1 : skipn (startIndex l) content
               = firstn (endIndex l - startIndex l)
                        (skipn (startIndex l) content)
                   ++ skipn (endIndex l) content).
  { rewrite <- (firstn_skipn (endIndex l - startIndex l)
                             (skipn (startIndex l) content)) at 1.
    rewrite skipn_skipn; do 2 f_equal; lia. }
  assert (E2 : skipn pos content
               = firstn (startIndex l - pos) (skipn pos content)
                   ++ skipn (startIndex l) content).
  { rewrite <- (firstn_skipn (startIndex l - pos) (skipn pos content)) at 1.
    rewrite skipn_skipn; do 2 f_equal; lia. }
  rewrite <- E1, <- E2; reflexivity.
Qed.

Lemma has_double_bracket_app pre rest :
  has_double_bracket (pre ++ LBRACKET :: LBRACKET :: rest) = true.
Proof.
  induction pre as [|a pre IH]; [reflexivity|].
  change ((a :: pre) ++ LBRACKET :: LBRACKET :: rest)
    with (a :: (pre ++ LBRACKET :: LBRACKET :: rest)).
  cbn [has_double_bracket]; rewrite IH.
  destruct (pre ++ LBRACKET :: LBRACKET :: rest) eqn:He;
    [destruct pre; discriminate | apply orb_true_r].
Qed.

Lemma link_text_brackets g1 g2 :
  exists rest, link_text g1 g2 = LBRACKET :: LBRACKET :: rest.
Proof. unfold link_text; simpl; eauto. Qed.

Lemma no_double_bracket_no_link content :
  has_double_bracket content = false -> extractWikiLinks content = [].
Proof.
  intros Hno.
  destruct (extractWikiLinks_found content) as (_ & Hshape & Hplaced).
  destruct (extractWikiLinks content) as [|l ls]; [reflexivity|].
  apply Forall_cons_iff in Hshape as [(g1 & g2 & Hraw & _) _].
  apply Forall_cons_iff in Hplaced as [(_ & Hslice & _) _].
  destruct (link_text_brackets g1 g2) as [rest Hb].
  rewrite Hraw, Hb in Hslice; unfold slice in Hslice.
  pose proof (firstn_skipn (startIndex l) content) as Hcut.
  pose proof (firstn_skipn (endIndex l - startIndex l)
                           (skipn (startIndex l) content)) as Hcut'.
  rewrite <- Hslice in Hcut'; rewrite <- Hcut' in Hcut.
  rewrite <- Hcut in Hno; simpl in Hno.
  rewrite has_double_bracket_app in Hno; discriminate.
Qed.

(** *** Trimming keeps the characters of a class *)

Lemma In_trimStart x s : In x (trimStart s) -> In x s.
Proof.
  induction s as [|c s IH]; simpl; [tauto|].
  destruct (isWhiteSpace c); simpl; tauto.
Qed.

Lemma In_trim x s : In x (trim s) -> In x s.
Proof.
  unfold trim, trimEnd; intros Hin.
  apply In_trimStart.
  apply in_rev, In_trimStart, in_rev in Hin; assumption.
Qed.

Lemma forallb_trim p s : forallb p s = true -> forallb p (trim s) = true.
Proof.
  rewrite !forallb_forall; intros Hs x Hx; apply Hs, In_trim, Hx.
Qed.

(** *** Exactly one link *)

Lemma WIKI_LINK_REGEX_plain t rest :
  t <> [] -> forallb target_char t = true ->
  exists others,
    WIKI_LINK_REGEX (link_text t None ++ rest) = ((t, None), rest) :: others.
Proof.
  intros Ht Htc.
  assert (Hs : link_text t None ++ rest
               = LBRACKET :: LBRACKET :: t ++ RBRACKET :: RBRACKET :: rest).
  { unfold link_text, LBRACKET, RBRACKET.
    change (lit "[[") with [91%N; 91%N]; change (lit "]]") with [93%N; 93%N].
    simpl; repeat (rewrite <- app_assoc; simpl); reflexivity. }
  rewrite Hs; unfold WIKI_LINK_REGEX.
  destruct (@class_plus_greedy target_char t RBRACKET
              (RBRACKET :: rest) Ht Htc eq_refl) as [o1 H1].
  eexists.
  eapply bind_head; [apply chr_head|].
  eapply bind_head; [apply chr_head|].
  eapply bind_head; [exact H1|].
  eapply bind_head; [reflexivity|].
  eapply bind_head; [apply chr_head|].
  eapply bind_head; [apply chr_head|].
  reflexivity.
Qed.

(** The pattern on the text of a link: it matches all of it, with the
    groups the text was built from. *)
Lemma match_here_link_text g1 g2 :
  g1 <> [] -> forallb target_char g1 = true ->
  (forall d, g2 = Some d -> d <> [] /\ forallb display_char d = true) ->
  match_here (link_text g1 g2) = Some (link_text g1 g2, g1, g2).
Proof.
  intros Hg1 Hc1 Hg2.
  destruct g2 as [d|].
  - destruct (Hg2 d eq_refl) as [Hd Hdc].
    pose proof (@match_here_piped g1 d [] Hg1 Hc1 Hd Hdc) as Hm.
    rewrite app_nil_r in Hm; exact Hm.
  - destruct (@WIKI_LINK_REGEX_plain g1 [] Hg1 Hc1) as [others Hm].
    rewrite <- (app_nil_r (link_text g1 None)) at 1.
    unfold match_here; rewrite Hm; cbv beta iota; cbn [fst snd].
    rewrite firstn_app_exact; reflexivity.
Qed.

Lemma exec_link_text g1 g2 :
  match_here (link_text g1 g2) = Some (link_text g1 g2, g1, g2) ->
  fst (exec (link_text g1 g2) 0)
  = Some {| index := 0; m0 := link_text g1 g2; m1 := g1; m2 := g2 |}.
Proof.
  intros Hm; unfold exec.
  change (length (link_text g1 g2) <? 0) with false; cbn [skipn].
  rewrite (@search_here (link_text g1 g2) 0 _ _ _ Hm); reflexivity.
Qed.

End ParserMore.

(** The references come in the order of the text and do not overlap: the
    first starts at offset 0 or later, each next one where the one before
    ends or later, and the last ends within the text. *)
Theorem extractWikiLinks_in_order (content : jsstring) :
  chain 0 (extractWikiLinks content) (length content).
Proof. apply extractWikiLinks_found. Qed.

(** The shape of a reference: [raw] is [[[g1]]] or [[[g1|g2]]] with [g1]
    not empty, target and display text are the trimmed groups; so a target
    has no [']'] and no ['|'], a display text no [']']. *)
Theorem extractWikiLinks_shape (content : jsstring) :
  Forall
    (fun l =>
       shaped l
       /\ forallb target_char (target l) = true
       /\ (forall d, displayText l = Some d -> forallb display_char d = true))
    (extractWikiLinks content).
Proof.
  destruct (extractWikiLinks_found content) as (_ & Hshape & _).
  eapply Forall_impl; [|exact Hshape].
  intros l Hl; split; [exact Hl|].
  destruct Hl as (g1 & g2 & _ & Ht & Hd & _ & Hc1 & Hg2).
  rewrite Ht, Hd; split; [apply forallb_trim, Hc1|].
  intros d; destruct g2 as [d'|]; simpl; [|discriminate].
  intros [= <-]; apply forallb_trim, (Hg2 d' eq_refl).
Qed.

(** [replaceWikiLinks] rebuilds the text from left to right: what lies
    between the links is kept, the span of every link gives way to what the
    replacer returns for it. *)
Theorem replaceWikiLinks_spans (content : jsstring)
    (replacer : WikiLink -> jsstring) :
  replaceWikiLinks content replacer
  = rebuild content replacer (extractWikiLinks content) 0.
Proof. apply replaceWikiLinks_rebuild. Qed.

(** Replacing every link by its own text gives the content back. *)
Theorem replaceWikiLinks_raw (content : jsstring) :
  replaceWikiLinks content raw = content.
Proof.
  rewrite replaceWikiLinks_rebuild.
  destruct (extractWikiLinks_found content) as (Hchain & _ & Hplaced).
  apply (@rebuild_raw content _ 0 Hchain Hplaced).
Qed.

(** A text without two opening brackets in a row has no link, and
    [replaceWikiLinks] returns it as it is, whatever the replacer. *)
Theorem no_double_bracket_untouched (content : jsstring)
    (replacer : WikiLink -> jsstring) :
  has_double_bracket content = false ->
  extractWikiLinks content = []
  /\ replaceWikiLinks content replacer = content.
Proof.
  intros Hno; pose proof (@no_double_bracket_no_link content Hno) as He.
  split; [assumption|].
  unfold replaceWikiLinks; rewrite He; reflexivity.
Qed.

Lemma no_double_bracket_untouched_witness :
  extractWikiLinks (lit "a [single] bracket ]] here") = []
  /\ replaceWikiLinks (lit "a [single] bracket ]] here") target
     = lit "a [single] bracket ]] here".
Proof.
  apply (@no_double_bracket_untouched (lit "a [single] bracket ]] here") target).
  vm_compute; reflexivity.
Defined.

(** [isValidWikiLink] holds exactly for the texts [[[g1]]] and [[[g1|g2]]]
    with [g1] a non-empty run without [']'] and ['|'], and [g2] a non-empty
    run without [']']. *)
Theorem isValidWikiLink_iff (text : jsstring) :
  isValidWikiLink text = true
  <-> exists g1 g2,
        text = link_text g1 g2
        /\ g1 <> [] /\ forallb target_char g1 = true
        /\ (forall d, g2 = Some d -> d <> [] /\ forallb display_char d = true).
Proof.
  split.
  - unfold isValidWikiLink.
    destruct (exec text 0) as [[m|] li] eqn:He; simpl; [|discriminate].
    intros Heq; apply str_eqb_eq in Heq.
    apply exec_some in He as (pre & post & _ & _ & _ & _ & _ & Hraw & _ & Hat).
    apply match_here_sound in Hat as (_ & _ & Hg1 & Hc1 & Hg2).
    exists (m1 m), (m2 m); rewrite <- Heq; auto.
  - intros (g1 & g2 & -> & Hg1 & Hc1 & Hg2).
    unfold isValidWikiLink.
    rewrite (exec_link_text (match_here_link_text Hg1 Hc1 Hg2)); simpl.
    apply str_eqb_refl.
Qed.

(** A literal built by [createWikiLink] from a target that is not empty and
    has no [']'] or ['|'], and a display text without [']'], is a valid
    link, and [parseWikiLink] gives back the trimmed target and display
    text; an absent or empty display text comes back absent. *)
Theorem parse_create_roundtrip (t : jsstring) (d : option jsstring) :
  t <> [] -> forallb target_char t = true ->
  (forall x, d = Some x -> forallb display_char x = true) ->
  isValidWikiLink (createWikiLink t d) = true
  /\ parseWikiLink (createWikiLink t d)
     = Some {| raw := createWikiLink t d; target := trim t;
               displayText := if truthy d then option_map trim d else None;
               startIndex := 0; endIndex := length (createWikiLink t d);
               line := None |}.
Proof.
  intros Ht Htc Hd.
  assert (Hc : createWikiLink t d = link_text t (if truthy d then d else None)).
  { destruct d as [[|c x]|]; reflexivity. }
  assert (Hm : match_here (link_text t (if truthy d then d else None))
               = Some (link_text t (if truthy d then d else None), t,
                       if truthy d then d else None)).
  { apply match_here_link_text; auto.
    destruct d as [[|c x]|]; simpl; try discriminate.
    intros x' [= <-]; split; [discriminate | apply (Hd _ eq_refl)]. }
  rewrite Hc; unfold isValidWikiLink, parseWikiLink.
  rewrite (exec_link_text Hm); cbn [m0 m1 m2].
  split; [apply str_eqb_refl|].
  destruct d as [[|c x]|]; reflexivity.
Qed.

Lemma parse_create_roundtrip_witness :
  isValidWikiLink (createWikiLink (lit " my note ") (Some (lit "x|y"))) = true
  /\ parseWikiLink (createWikiLink (lit " my note ") (Some (lit "x|y")))
     = Some {| raw := lit "[[ my note |x|y]]"; target := lit "my note";
               displayText := Some (lit "x|y");
               startIndex := 0; endIndex := 17; line := None |}.
Proof.
  apply (@parse_create_roundtrip (lit " my note ") (Some (lit "x|y")));
    [discriminate | reflexivity | intros x [= <-]; reflexivity].
Defined.

(* ===================================================================== *)
(** ** More on the edit distance *)
(* ===================================================================== *)

Section DistanceMore.

Lemma charAt_eqb_refl x : charAt_eqb x x = true.
Proof. destruct x; simpl; auto using N.eqb_refl. Qed.

Lemma prefix_distance_diag s i : prefix_distance s s i i = 0.
Proof.
  induction i as [|i IH]; [reflexivity|].
  rewrite prefix_distance_cell, charAt_eqb_refl; exact IH.
Qed.

(** The distance is at least the difference of the lengths. *)
Lemma prefix_distance_lower s t i :
  forall j, i <= prefix_distance s t i j + j
            /\ j <= prefix_distance s t i j + i.
Proof.
  induction i as [|i IHi]; intros j; [simpl; lia|].
  induction j as [|j IHj]; [simpl; lia|].
  rewrite prefix_distance_S_S.
  pose proof (IHi j); pose proof (IHi (S j)).
  destruct (min3_cases (prefix_distance s t i (S j) + 1)
              (prefix_distance s t (S i) j + 1)
              (prefix_distance s t i j
               + if charAt_eqb (charAt s i) (charAt t j) then 0 else 1))
    as [-> | [-> | ->]]; lia.
Qed.

(** And at most the greater length. *)
Lemma prefix_distance_upper s t i :
  forall j, prefix_distance s t i j <= Nat.max i j.
Proof.
  induction i as [|i IHi]; intros j; [simpl; lia|].
  destruct j as [|j]; [simpl; lia|].
  rewrite prefix_distance_S_S.
  pose proof (IHi j).
  pose proof (min3_le (prefix_distance s t i (S j) + 1)
                (prefix_distance s t (S i) j + 1)
                (prefix_distance s t i j
                 + if charAt_eqb (charAt s i) (charAt t j) then 0 else 1)).
  destruct (charAt_eqb (charAt s i) (charAt t j)); lia.
Qed.

Lemma firstn_S_nth {A} (l : list A) i x :
  nth_error l i = Some x -> firstn (S i) l = firstn i l ++ [x].
Proof.
  revert i; induction l as [|y l IH]; intros [|i] Hx; try discriminate.
  - injection Hx as ->; reflexivity.
  - change (nth_error l i = Some x) in Hx.
    change (firstn (S (S i)) (y :: l)) with (y :: firstn (S i) l).
    rewrite (IH _ Hx); reflexivity.
Qed.

(** Distance 0 between two prefixes: they are the same prefix. *)
Lemma prefix_distance_zero s t i :
  i <= length s -> i <= length t ->
  prefix_distance s t i i = 0 -> firstn i s = firstn i t.
Proof.
  induction i as [|i IH]; intros Hs Ht; [reflexivity|].
  rewrite prefix_distance_S_S; intros H0.
  assert (Hd : prefix_distance s t i i = 0
               /\ charAt_eqb (charAt s i) (charAt t i) = true).
  { destruct (min3_cases (prefix_distance s t i (S i) + 1)
                (prefix_distance s t (S i) i + 1)
                (prefix_distance s t i i
                 + if charAt_eqb (charAt s i) (charAt t i) then 0 else 1))
      as [E | [E | E]]; rewrite E in H0; try lia.
    destruct (charAt_eqb (charAt s i) (charAt t i)); [split; [lia|auto] | lia]. }
  destruct Hd as [Hd Hc]; unfold charAt in Hc.
  destruct (nth_error s i) as [x|] eqn:Hx;
    [|apply nth_error_None in Hx; lia].
  destruct (nth_error t i) as [y|] eqn:Hy;
    [|apply nth_error_None in Hy; lia].
  simpl in Hc; apply N.eqb_eq in Hc; subst y.
  rewrite (firstn_S_nth _ _ Hx), (firstn_S_nth _ _ Hy), IH by (lia || auto).
  reflexivity.
Qed.

Lemma edit_distance_zero s t : edit_distance s t = 0 <-> s = t.
Proof.
  unfold edit_distance; split.
  - intros H0.
    pose proof (prefix_distance_lower s t (length s) (length t)) as Hl.
    assert (Hlen : length s = length t) by lia.
    rewrite <- Hlen in H0.
    apply prefix_distance_zero in H0; [|lia|lia].
    rewrite firstn_all in H0; rewrite Hlen, firstn_all in H0; assumption.
  - intros ->; apply prefix_distance_diag.
Qed.

End DistanceMore.

(** [levenshteinDistance] is 0 exactly between equal strings. *)
Theorem levenshteinDistance_zero (a b : jsstring) :
  levenshteinDistance a b = Some 0 <-> a = b.
Proof.
  rewrite levenshteinDistance_defined; split.
  - intros [= H]; apply edit_distance_zero; assumption.
  - intros H; f_equal; apply edit_distance_zero; assumption.
Qed.

(** [levenshteinDistance] always returns a number; it is the same in both
    directions, at least the difference of the two lengths and at most the
    greater of them. *)
Theorem levenshteinDistance_bounds (a b : jsstring) :
  exists d,
    levenshteinDistance a b = Some d
    /\ levenshteinDistance b a = Some d
    /\ length a - length b <= d
    /\ length b - length a <= d
    /\ d <= Nat.max (length a) (length b).
Proof.
  exists (edit_distance a b).
  rewrite !levenshteinDistance_defined, (edit_distance_sym b a).
  pose proof (prefix_distance_lower a b (length a) (length b)).
  pose proof (prefix_distance_upper a b (length a) (length b)).
  unfold edit_distance; repeat split; lia.
Qed.

(* ===================================================================== *)
(** ** More on the resolver: strategies, dates, suggestions *)
(* ===================================================================== *)

Section ResolverMore.

Variable h : Host.

Lemma truthy_Some p : truthy (Some p) = true <-> p <> [].
Proof. destruct p; simpl; split; congruence. Qed.

Lemma or_else_Some x next p :
  or_else x next = Some p ->
  (x = Some p /\ p <> []) \/ (truthy x = false /\ next = Some p).
Proof.
  unfold or_else; destruct (truthy x) eqn:Hx; [|auto].
  intros ->; left; split; [reflexivity | apply truthy_Some, Hx].
Qed.

Lemma or_else_truthy x next :
  truthy next = true \/ next = None ->
  truthy (or_else x next) = true \/ or_else x next = None.
Proof. unfold or_else; destruct (truthy x) eqn:Hx; auto. Qed.

(** [findNoteByLink] returns null or a path that is not the empty string. *)
Lemma findNoteByLink_truthy target pkmRoot :
  truthy (findNoteByLink h target pkmRoot) = true
  \/ findNoteByLink h target pkmRoot = None.
Proof.
  unfold findNoteByLink; repeat apply or_else_truthy; auto.
Qed.

Lemma findDailyNote_loop_sound patterns target pkmRoot p :
  findDailyNote_loop h patterns target pkmRoot = Some p ->
  fileExists h p = true
  /\ exists sep year month day,
       In sep patterns
       /\ match_date sep target = Some (year, month, day)
       /\ p = join h [pkmRoot; lit "daily"; year; month; day ++ lit ".md"].
Proof.
  induction patterns as [|sep rest IH]; simpl; [discriminate|].
  destruct (match_date sep target) as [[[year month] day]|] eqn:Hm.
  - destruct (fileExists h
                (join h [pkmRoot; lit "daily"; year; month; day ++ lit ".md"]))
      eqn:He.
    + intros [= Hp]; subst p; split; [assumption|].
      exists sep, year, month, day; auto.
    + intros Hp; apply IH in Hp as (Hf & s' & y & m & d & Hin & Hd & Hp).
      split; [assumption|]; exists s', y, m, d; auto.
  - intros Hp; apply IH in Hp as (Hf & s' & y & m & d & Hin & Hd & Hp).
    split; [assumption|]; exists s', y, m, d; auto.
Qed.

(** *** Dates *)

Lemma digits_app n ds rest :
  length ds = n -> forallb isDigit ds = true ->
  digits n (ds ++ rest) = Some (ds, rest).
Proof.
  revert ds; induction n as [|n IH]; intros [|c ds]; simpl; try discriminate.
  - reflexivity.
  - intros [= Hlen] Hall; apply andb_true_iff in Hall as [Hc Hall].
    rewrite Hc, (IH ds Hlen Hall); reflexivity.
Qed.

Lemma isDigit_not c x : isDigit c = true -> isDigit x = false -> N.eqb c x = false.
Proof.
  intros Hc Hx; destruct (N.eqb_spec c x) as [->|]; congruence.
Qed.

Lemma separator_digit sep ds rest :
  ds <> [] -> forallb isDigit ds = true -> isDigit sep = false ->
  separator (Some sep) (ds ++ rest) = None.
Proof.
  destruct ds as [|c ds]; [congruence|]; simpl; intros _ Hall Hsep.
  apply andb_true_iff in Hall as [Hc _].
  rewrite (isDigit_not _ _ Hc Hsep); reflexivity.
Qed.

Lemma separator_here c rest : separator (Some c) (c :: rest) = Some rest.
Proof. simpl; rewrite N.eqb_refl; reflexivity. Qed.

Lemma match_date_sep sep year month day :
  length year = 4 -> length month = 2 -> length day = 2 ->
  forallb isDigit year = true -> forallb isDigit month = true ->
  forallb isDigit day = true ->
  match_date (Some sep) (year ++ sep :: month ++ sep :: day)
  = Some (year, month, day).
Proof.
  intros Ly Lm Ld Hy Hm Hd; unfold match_date.
  rewrite (digits_app _ _ Ly Hy); cbv beta iota.
  rewrite separator_here; cbv beta iota.
  rewrite (digits_app _ _ Lm Hm); cbv beta iota.
  rewrite separator_here; cbv beta iota.
  rewrite <- (app_nil_r day) at 1.
  rewrite (digits_app _ _ Ld Hd); reflexivity.
Qed.

Lemma match_date_compact year month day :
  length year = 4 -> length month = 2 -> length day = 2 ->
  forallb isDigit year = true -> forallb isDigit month = true ->
  forallb isDigit day = true ->
  match_date None (year ++ month ++ day) = Some (year, month, day).
Proof.
  intros Ly Lm Ld Hy Hm Hd; unfold match_date.
  rewrite (digits_app _ _ Ly Hy); cbv beta iota; cbn [separator].
  rewrite (digits_app _ _ Lm Hm); cbv beta iota.
  rewrite <- (app_nil_r day) at 1.
  rewrite (digits_app _ _ Ld Hd); reflexivity.
Qed.

Lemma match_date_other_sep sep sep' year rest :
  length year = 4 -> forallb isDigit year = true -> sep <> sep' ->
  match_date (Some sep) (year ++ sep' :: rest) = None.
Proof.
  intros Ly Hy Hne; unfold match_date.
  rewrite (digits_app _ _ Ly Hy); cbv beta iota; cbn [separator].
  destruct (N.eqb_spec sep' sep); [congruence | reflexivity].
Qed.

Lemma match_date_no_sep sep year month day :
  length year = 4 -> length month = 2 ->
  forallb isDigit year = true -> forallb isDigit month = true ->
  isDigit sep = false ->
  match_date (Some sep) (year ++ month ++ day) = None.
Proof.
  intros Ly Lm Hy Hm Hsep; unfold match_date.
  rewrite (digits_app _ _ Ly Hy); cbv beta iota.
  rewrite separator_digit; auto.
  destruct month; [discriminate | congruence].
Qed.

End ResolverMore.

Section ResolverStrategies.

Variable h : Host.

Lemma match_date_compact_sep year c rest :
  length year = 4 -> forallb isDigit year = true -> isDigit c = false ->
  match_date None (year ++ c :: rest) = None.
Proof.
  intros Ly Hy Hc; unfold match_date.
  rewrite (digits_app _ _ Ly Hy); cbv beta iota; cbn [separator digits].
  rewrite Hc; reflexivity.
Qed.

(** A file whose stem is the target up to case is found by the first or
    the second strategy. *)
Lemma findNoteByLink_stem target pkmRoot file :
  Forall (fun f => f <> []) (getAllMarkdownFiles h pkmRoot) ->
  In file (getAllMarkdownFiles h pkmRoot) ->
  toLowerCase h (basename h file (lit ".md")) = toLowerCase h target ->
  exists p,
    findNoteByLink h target pkmRoot = Some p
    /\ In p (getAllMarkdownFiles h pkmRoot)
    /\ toLowerCase h (basename h p (lit ".md")) = toLowerCase h target.
Proof.
  intros Hne Hin Hstem; unfold findNoteByLink.
  set (files := getAllMarkdownFiles h pkmRoot) in *.
  rewrite Forall_forall in Hne.
  destruct (find (fun f => str_eqb (basename h f (lit ".md")) target) files)
    as [f|] eqn:Hexact.
  - apply find_some in Hexact as [Hf Heq]; apply str_eqb_eq in Heq.
    exists f; unfold or_else.
    rewrite (proj2 (truthy_Some f) (Hne f Hf)).
    repeat split; [assumption | rewrite Heq; reflexivity].
  - unfold or_else at 1; cbn [truthy].
    destruct (find (fun f => str_eqb (toLowerCase h (basename h f (lit ".md")))
                                     (toLowerCase h target)) files)
      as [f|] eqn:Hci.
    + apply find_some in Hci as [Hf Heq]; apply str_eqb_eq in Heq.
      exists f; unfold or_else at 1.
      rewrite (proj2 (truthy_Some f) (Hne f Hf)); auto.
    + apply find_none with (x := file) in Hci; [|assumption].
      rewrite Hstem, str_eqb_refl in Hci; discriminate.
Qed.

End ResolverStrategies.

Lemma In_firstn {A} (x : A) n l : In x (firstn n l) -> In x l.
Proof.
  intros Hin; rewrite <- (firstn_skipn n l); apply in_or_app; auto.
Qed.

(** What [resolveWikiLink] returns hangs together: [resolvedPath] is the
    result of [findNoteByLink] and is never the empty string, [exists] says
    whether there is one, as [linkExists] does; suggestions are present
    exactly when there is none; and [link] is the plain literal of the
    target, from offset 0 to its length. *)
Theorem resolveWikiLink_consistent (h : Host) (linkTarget pkmRoot : jsstring) :
  let r := resolveWikiLink h linkTarget pkmRoot in
  ResolvedLink.resolvedPath r = findNoteByLink h linkTarget pkmRoot
  /\ ResolvedLink.resolvedPath r <> Some []
  /\ ResolvedLink.exists_ r = linkExists h linkTarget pkmRoot
  /\ (ResolvedLink.exists_ r = true <-> ResolvedLink.resolvedPath r <> None)
  /\ (ResolvedLink.exists_ r = false <-> ResolvedLink.suggestions r <> None)
  /\ raw (ResolvedLink.link r) = createWikiLink linkTarget None
  /\ target (ResolvedLink.link r) = linkTarget
  /\ startIndex (ResolvedLink.link r) = 0
  /\ endIndex (ResolvedLink.link r) = length (raw (ResolvedLink.link r)).
Proof.
  unfold resolveWikiLink, linkExists.
  assert (Hlen : length linkTarget + 4
                 = length (lit "[[" ++ linkTarget ++ lit "]]")).
  { rewrite !length_app; simpl; lia. }
  destruct (findNoteByLink_truthy h linkTarget pkmRoot) as [Ht|Hn].
  - rewrite Ht.
    destruct (findNoteByLink h linkTarget pkmRoot) as [[|c p]|];
      try discriminate; simpl.
    repeat split; try congruence; try discriminate; auto.
  - rewrite Hn; simpl.
    repeat split; try congruence; try discriminate; auto.
Qed.

(** A path that [findNoteByLink] returns is not empty, and it is either a
    scanned markdown file whose stem matches the target (exactly, up to
    case, or as the slug of the target), or the path of a daily note that
    exists, built from a target that is a date. *)
Theorem findNoteByLink_sound (h : Host) (linkTarget pkmRoot p : jsstring) :
  findNoteByLink h linkTarget pkmRoot = Some p ->
  p <> []
  /\ ((In p (getAllMarkdownFiles h pkmRoot)
       /\ let stem := basename h p (lit ".md") in
          stem = linkTarget
          \/ toLowerCase h stem = toLowerCase h linkTarget
          \/ stem = slugify h linkTarget
          \/ toLowerCase h stem = slugify h linkTarget)
      \/ (fileExists h p = true
          /\ exists sep year month day,
               In sep datePatterns
               /\ match_date sep linkTarget = Some (year, month, day)
               /\ p = join h [pkmRoot; lit "daily"; year; month;
                              day ++ lit ".md"])).
Proof.
  unfold findNoteByLink; intros Hp.
  apply or_else_Some in Hp as [[Hf Hne]|[_ Hp]].
  { split; [assumption|]; left.
    apply find_some in Hf as [Hin Heq]; apply str_eqb_eq in Heq.
    split; [assumption|]; simpl; auto. }
  apply or_else_Some in Hp as [[Hf Hne]|[_ Hp]].
  { split; [assumption|]; left.
    apply find_some in Hf as [Hin Heq]; apply str_eqb_eq in Heq.
    split; [assumption|]; simpl; auto. }
  apply or_else_Some in Hp as [[Hf Hne]|[_ Hp]].
  { split; [assumption|]; left.
    apply find_some in Hf as [Hin Heq].
    split; [assumption|]; simpl.
    apply orb_true_iff in Heq as [Heq|Heq]; apply str_eqb_eq in Heq; auto. }
  apply or_else_Some in Hp as [[Hf Hne]|[_ Hp]]; [|discriminate].
  split; [assumption|]; right.
  apply findDailyNote_loop_sound; exact Hf.
Qed.

Lemma findNoteByLink_sound_witness :
  let h := Demo.host Demo.greek in
  let p := lit "/pkm/notes/Gamut.md" in
  p <> []
  /\ ((In p (getAllMarkdownFiles h (lit "/pkm"))
       /\ let stem := basename h p (lit ".md") in
          stem = lit "gamut"
          \/ toLowerCase h stem = toLowerCase h (lit "gamut")
          \/ stem = slugify h (lit "gamut")
          \/ toLowerCase h stem = slugify h (lit "gamut"))
      \/ (fileExists h p = true
          /\ exists sep year month day,
               In sep datePatterns
               /\ match_date sep (lit "gamut") = Some (year, month, day)
               /\ p = join h [lit "/pkm"; lit "daily"; year; month;
                              day ++ lit ".md"])).
Proof.
  apply (@findNoteByLink_sound (Demo.host Demo.greek) (lit "gamut")
                               (lit "/pkm") (lit "/pkm/notes/Gamut.md")).
  vm_compute; reflexivity.
Defined.

(** When no scanned path is the empty string and some markdown file has a
    stem equal to the target up to case, resolution succeeds, with a file
    whose stem is the target up to case. *)
Theorem resolution_up_to_case (h : Host) (linkTarget pkmRoot file : jsstring) :
  Forall (fun f => f <> []) (getAllMarkdownFiles h pkmRoot) ->
  In file (getAllMarkdownFiles h pkmRoot) ->
  toLowerCase h (basename h file (lit ".md")) = toLowerCase h linkTarget ->
  exists p,
    ResolvedLink.resolvedPath (resolveWikiLink h linkTarget pkmRoot) = Some p
    /\ ResolvedLink.exists_ (resolveWikiLink h linkTarget pkmRoot) = true
    /\ In p (getAllMarkdownFiles h pkmRoot)
    /\ toLowerCase h (basename h p (lit ".md")) = toLowerCase h linkTarget.
Proof.
  intros Hne Hin Hstem.
  destruct (@findNoteByLink_stem h linkTarget pkmRoot file Hne Hin Hstem)
    as (p & Hp & Hpin & Hpstem).
  exists p; unfold resolveWikiLink; rewrite Hp.
  assert (Ht : truthy (Some p) = true).
  { apply truthy_Some; rewrite Forall_forall in Hne; auto. }
  rewrite Ht; simpl; auto.
Qed.

Lemma resolution_up_to_case_witness :
  let h := Demo.host Demo.greek in
  exists p,
    ResolvedLink.resolvedPath (resolveWikiLink h (lit "GAMUT") (lit "/pkm"))
    = Some p
    /\ ResolvedLink.exists_ (resolveWikiLink h (lit "GAMUT") (lit "/pkm"))
       = true
    /\ In p (getAllMarkdownFiles h (lit "/pkm"))
    /\ toLowerCase h (basename h p (lit ".md")) = toLowerCase h (lit "GAMUT").
Proof.
  apply (@resolution_up_to_case (Demo.host Demo.greek) (lit "GAMUT")
           (lit "/pkm") (lit "/pkm/notes/Gamut.md")).
  - vm_compute; repeat constructor; discriminate.
  - vm_compute; tauto.
  - vm_compute; reflexivity.
Defined.

(** The three date formats YYYY-MM-DD, YYYY/MM/DD and YYYYMMDD of one date
    probe the same daily note, [daily/YYYY/MM/DD.md] under the root, and
    find it exactly when it exists. *)
Theorem findDailyNote_formats (h : Host) (pkmRoot year month day : jsstring) :
  length year = 4 -> length month = 2 -> length day = 2 ->
  forallb isDigit year = true -> forallb isDigit month = true ->
  forallb isDigit day = true ->
  let p := join h [pkmRoot; lit "daily"; year; month; day ++ lit ".md"] in
  let found := if fileExists h p then Some p else None in
  findDailyNote h (year ++ lit "-" ++ month ++ lit "-" ++ day) pkmRoot = found
  /\ findDailyNote h (year ++ lit "/" ++ month ++ lit "/" ++ day) pkmRoot
     = found
  /\ findDailyNote h (year ++ month ++ day) pkmRoot = found.
Proof.
  intros Ly Lm Ld Hy Hm Hd p found.
  unfold findDailyNote, datePatterns.
  change (lit "-" ++ month ++ lit "-" ++ day)
    with (45%N :: month ++ 45%N :: day).
  change (lit "/" ++ month ++ lit "/" ++ day)
    with (47%N :: month ++ 47%N :: day).
  cbn [findDailyNote_loop].
  pose proof (@match_date_sep 45%N year month day Ly Lm Ld Hy Hm Hd) as E1.
  pose proof (@match_date_other_sep 47%N 45%N year (month ++ 45%N :: day)
                Ly Hy ltac:(discriminate)) as E2.
  pose proof (@match_date_compact_sep year 45%N (month ++ 45%N :: day)
                Ly Hy eq_refl) as E3.
  pose proof (@match_date_other_sep 45%N 47%N year (month ++ 47%N :: day)
                Ly Hy ltac:(discriminate)) as E4.
  pose proof (@match_date_sep 47%N year month day Ly Lm Ld Hy Hm Hd) as E5.
  pose proof (@match_date_compact_sep year 47%N (month ++ 47%N :: day)
                Ly Hy eq_refl) as E6.
  pose proof (@match_date_no_sep 45%N year month day Ly Lm Hy Hm eq_refl)
    as E7.
  pose proof (@match_date_no_sep 47%N year month day Ly Lm Hy Hm eq_refl)
    as E8.
  pose proof (@match_date_compact year month day Ly Lm Ld Hy Hm Hd) as E9.
  cbv delta [char16 jsstring] in *.
  rewrite E1, E2, E3, E4, E5, E6, E7, E8, E9.
  unfold found, p; destruct (fileExists h _); auto.
Qed.

Lemma findDailyNote_formats_witness :
  let h := Demo.host [(lit "/pkm/daily/2026/02/15.md", lit "today")] in
  let p := join h [lit "/pkm"; lit "daily"; lit "2026"; lit "02";
                   lit "15" ++ lit ".md"] in
  let found := if fileExists h p then Some p else None in
  findDailyNote h (lit "2026" ++ lit "-" ++ lit "02" ++ lit "-" ++ lit "15")
                (lit "/pkm") = found
  /\ findDailyNote h (lit "2026" ++ lit "/" ++ lit "02" ++ lit "/" ++ lit "15")
                   (lit "/pkm") = found
  /\ findDailyNote h (lit "2026" ++ lit "02" ++ lit "15") (lit "/pkm") = found.
Proof.
  apply (@findDailyNote_formats
           (Demo.host [(lit "/pkm/daily/2026/02/15.md", lit "today")])
           (lit "/pkm") (lit "2026") (lit "02") (lit "15"));
    reflexivity.
Defined.

(** When resolution fails (and no scanned path is the empty string), every
    suggestion is the stem of a scanned markdown file at a case-insensitive
    edit distance of at least 1 and at most 5 from the target. *)
Theorem suggestions_near_misses (h : Host) (linkTarget pkmRoot : jsstring)
    (suggested : list jsstring) (s : jsstring) :
  Forall (fun f => f <> []) (getAllMarkdownFiles h pkmRoot) ->
  findNoteByLink h linkTarget pkmRoot = None ->
  ResolvedLink.suggestions (resolveWikiLink h linkTarget pkmRoot)
  = Some suggested ->
  In s suggested ->
  exists file,
    In file (getAllMarkdownFiles h pkmRoot)
    /\ s = basename h file (lit ".md")
    /\ 1 <= edit_distance (toLowerCase h linkTarget) (toLowerCase h s) <= 5.
Proof.
  intros Hne Hnone; unfold resolveWikiLink; rewrite Hnone.
  cbn [truthy ResolvedLink.suggestions]; intros [= <-] Hin.
  unfold findSimilarNotes in Hin.
  rewrite scored_candidates, slice0_cases in Hin.
  change (5 <? 0)%Z with false in Hin; cbv iota in Hin.
  apply in_map_iff in Hin as (item & <- & Hin).
  apply In_firstn in Hin.
  apply (Permutation_in _ (sort_perm by_score _)) in Hin.
  apply filter_In in Hin as [Hin Hclose].
  apply in_map_iff in Hin as (file & <- & Hfile).
  exists file; split; [assumption|]; split; [reflexivity|].
  unfold close_enough in Hclose; cbn [score slug] in *.
  apply Nat.leb_le in Hclose; split; [|assumption].
  destruct (edit_distance (toLowerCase h linkTarget)
              (toLowerCase h (basename h file (lit ".md")))) eqn:Hd; [|lia].
  apply edit_distance_zero in Hd.
  destruct (@findNoteByLink_stem h linkTarget pkmRoot file Hne Hfile (eq_sym Hd))
    as (p & Hp & _); congruence.
Qed.

Lemma suggestions_near_misses_witness :
  let h := Demo.host Demo.greek in
  exists file,
    In file (getAllMarkdownFiles h (lit "/pkm"))
    /\ lit "sigma" = basename h file (lit ".md")
    /\ 1 <= edit_distance (toLowerCase h (lit "gamma"))
                          (toLowerCase h (lit "sigma")) <= 5.
Proof.
  apply (@suggestions_near_misses (Demo.host Demo.greek) (lit "gamma")
           (lit "/pkm")
           [lit "gamme"; lit "Gamut"; lit "sigma"; lit "alpha"; lit "beta"]
           (lit "sigma")).
  - vm_compute; repeat constructor; discriminate.
  - vm_compute; reflexivity.
  - vm_compute; reflexivity.
  - simpl; tauto.
Defined.

(* ===================================================================== *)
(** ** More on the index: what a build leaves, queries, cache *)
(* ===================================================================== *)

Section IndexMore.

Variable h : Host.

(** *** Maps *)

Lemma str_eqb_sym_false a b : str_eqb a b = false -> str_eqb b a = false.
Proof.
  intros Hab; destruct (str_eqb b a) eqn:Hba; [|reflexivity].
  apply str_eqb_eq in Hba; subst; rewrite str_eqb_refl in Hab; discriminate.
Qed.

Lemma get_update {V} (m : JSMap.t V) k f t :
  JSMap.get (JSMap.update m k f) t
  = if str_eqb k t then option_map f (JSMap.get m t) else JSMap.get m t.
Proof.
  induction m as [|[k' v] m IH]; simpl.
  - destruct (str_eqb k t); reflexivity.
  - destruct (str_eqb k' k) eqn:Hk; simpl.
    + apply str_eqb_eq in Hk; subst k'.
      destruct (str_eqb k t); reflexivity.
    + rewrite IH.
      destruct (str_eqb k' t) eqn:Ht; [|reflexivity].
      apply str_eqb_eq in Ht; subst t; rewrite str_eqb_sym_false; auto.
Qed.

Lemma get_In {V} (m : JSMap.t V) k v : JSMap.get m k = Some v -> In (k, v) m.
Proof.
  induction m as [|[k' v'] m IH]; simpl; [discriminate|].
  destruct (str_eqb k' k) eqn:Hk; [|auto].
  apply str_eqb_eq in Hk; intros [= ->]; subst; auto.
Qed.

Lemma In_get {V} (m : JSMap.t V) k v :
  is_map m -> In (k, v) m -> JSMap.get m k = Some v.
Proof.
  unfold is_map; induction m as [|[k' v'] m IH]; simpl; [intros _ []|].
  intros Hnd [Heq|Hin]; apply NoDup_cons_iff in Hnd as [Hk' Hnd].
  - injection Heq as -> ->; rewrite str_eqb_refl; reflexivity.
  - destruct (str_eqb k' k) eqn:Hk; [|auto].
    apply str_eqb_eq in Hk; subst k'.
    exfalso; apply Hk'; apply (in_map fst) in Hin; exact Hin.
Qed.

Lemma has_In {V} (m : JSMap.t V) k :
  JSMap.has m k = true <-> In k (List.map fst m).
Proof.
  unfold JSMap.has; induction m as [|[k' v'] m IH]; simpl.
  - split; [discriminate | tauto].
  - destruct (str_eqb k' k) eqn:Hk.
    + apply str_eqb_eq in Hk; tauto.
    + rewrite IH; split; [tauto|].
      intros [->|Hin]; [|assumption].
      rewrite str_eqb_refl in Hk; discriminate.
Qed.

Lemma Forall_set {V} (P : jsstring * V -> Prop) (m : JSMap.t V) k v :
  Forall P m -> P (k, v) -> Forall P (JSMap.set m k v).
Proof.
  induction m as [|[k' v'] m IH]; simpl; intros Hm Hkv.
  - repeat constructor; assumption.
  - apply Forall_cons_iff in Hm as [Hk' Hm].
    destruct (str_eqb k' k) eqn:Hk.
    + apply str_eqb_eq in Hk; subst k'; constructor; assumption.
    + constructor; auto.
Qed.

Lemma has_set {V} (m : JSMap.t V) k v : JSMap.has (JSMap.set m k v) k = true.
Proof.
  unfold JSMap.has; induction m as [|[k' v'] m IH]; simpl.
  - rewrite str_eqb_refl; reflexivity.
  - destruct (str_eqb k' k) eqn:Hk; simpl; rewrite Hk; [reflexivity | exact IH].
Qed.

Lemma has_set_other {V} (m : JSMap.t V) k v t :
  JSMap.has m t = true -> JSMap.has (JSMap.set m k v) t = true.
Proof.
  unfold JSMap.has; induction m as [|[k' v'] m IH]; simpl; [discriminate|].
  destruct (str_eqb k' k) eqn:Hk; simpl; destruct (str_eqb k' t); auto.
Qed.

Lemma length_set {V} (m : JSMap.t V) k v :
  length (JSMap.set m k v) <= S (length m).
Proof.
  induction m as [|[k' v'] m IH]; simpl; [lia|].
  destruct (str_eqb k' k); simpl; lia.
Qed.

(** *** The first pass *)

Lemma first_pass_entries all files :
  incl files all ->
  forall idx,
    Forall (first_pass_entry h all) idx ->
    Forall (first_pass_entry h all) (fold_left (index_file h) files idx).
Proof.
  induction files as [|f files IH]; intros Hincl idx Hidx; simpl;
    [assumption|].
  apply IH; [intros x Hx; apply Hincl; right; exact Hx|].
  unfold index_file; destruct (readFile h f) as [content|] eqn:Hread;
    [|assumption].
  apply Forall_set; [assumption|].
  unfold first_pass_entry; simpl; repeat split; eauto.
  apply Hincl; left; reflexivity.
Qed.

Lemma first_pass_has files :
  forall idx f,
    In f files -> readFile h f <> None ->
    JSMap.has (fold_left (index_file h) files idx) (getSlugFromPath h f) = true.
Proof.
  assert (Hkeep : forall files idx t,
             JSMap.has idx t = true ->
             JSMap.has (fold_left (index_file h) files idx) t = true).
  { induction files0 as [|g files0 IH]; intros idx t Ht; simpl; [assumption|].
    apply IH; unfold index_file; destruct (readFile h g); [|assumption].
    apply has_set_other; assumption. }
  induction files as [|g files IH]; intros idx f Hin Hread; simpl;
    [destruct Hin|].
  destruct Hin as [->|Hin]; [|apply IH; assumption].
  apply Hkeep; unfold index_file.
  destruct (readFile h f); [apply has_set | congruence].
Qed.

Lemma first_pass_length files :
  forall idx,
    length (fold_left (index_file h) files idx) <= length idx + length files.
Proof.
  induction files as [|f files IH]; intros idx; simpl; [lia|].
  etransitivity; [apply IH|].
  unfold index_file; destruct (readFile h f) as [content|]; [|lia].
  pose proof (length_set idx (getSlugFromPath h f)
                {| LinkIndexEntry.slug := getSlugFromPath h f;
                   LinkIndexEntry.filePath := f;
                   LinkIndexEntry.outgoingLinks := extractWikiLinks content;
                   LinkIndexEntry.incomingLinks := [] |}).
  lia.
Qed.

Lemma first_pass_keys files :
  forall idx,
    incl (List.map fst (fold_left (index_file h) files idx))
         (List.map fst idx ++ List.map (getSlugFromPath h) files).
Proof.
  induction files as [|f files IH]; intros idx; simpl.
  - rewrite app_nil_r; apply incl_refl.
  - intros k Hk; apply IH in Hk; apply in_app_or in Hk as [Hk|Hk].
    + unfold index_file in Hk; destruct (readFile h f).
      * apply set_keys in Hk as [Hk| ->]; apply in_or_app; simpl; auto.
      * apply in_or_app; auto.
    + apply in_or_app; simpl; auto.
Qed.

(** *** The second pass *)

(** The part of an entry that the second pass does not touch. *)
Let static (se : jsstring * LinkIndexEntry.t) :=
  (fst se, (LinkIndexEntry.slug (snd se), LinkIndexEntry.filePath (snd se),
            LinkIndexEntry.outgoingLinks (snd se))).

(** An entry with more backlinks. *)
Let push_all (rs : list LinkReference.t) (e : LinkIndexEntry.t) :=
  {| LinkIndexEntry.slug := LinkIndexEntry.slug e;
     LinkIndexEntry.filePath := LinkIndexEntry.filePath e;
     LinkIndexEntry.outgoingLinks := LinkIndexEntry.outgoingLinks e;
     LinkIndexEntry.incomingLinks := LinkIndexEntry.incomingLinks e ++ rs |}.

(** The backlink that the link [l] of the note [s] gives to [t], if any. *)
Let refs (root s p t : jsstring) (l : WikiLink) : list LinkReference.t :=
  match resolveTargetSlug h {| LinkIndex.index := [];
                               LinkIndex.enkiduRoot := root |} (target l) with
  | Some ts =>
      if truthy (Some ts) && str_eqb ts t
      then [{| LinkReference.sourceSlug := s; LinkReference.sourcePath := p;
               LinkReference.link := l |}]
      else []
  | None => []
  end.

Lemma update_static m k r :
  List.map static (JSMap.update m k (push_incoming r)) = List.map static m.
Proof.
  induction m as [|[k' e] m IH]; simpl; [reflexivity|].
  destruct (str_eqb k' k); simpl; [reflexivity | rewrite IH; reflexivity].
Qed.

Lemma add_backlink_static root s p idx l :
  List.map static (add_backlink h root s p idx l) = List.map static idx.
Proof.
  unfold add_backlink.
  destruct (resolveTargetSlug h _ _) as [ts|]; [|reflexivity].
  destruct (truthy (Some ts) && JSMap.has idx ts); [|reflexivity].
  apply update_static.
Qed.

Lemma option_map_push_nil o : option_map (push_all []) o = o.
Proof.
  destruct o as [[s p out inc]|]; [|reflexivity].
  unfold push_all; simpl; rewrite app_nil_r; reflexivity.
Qed.

Lemma option_map_push_app a b o :
  option_map (push_all b) (option_map (push_all a) o)
  = option_map (push_all (a ++ b)) o.
Proof.
  destruct o as [e|]; [|reflexivity].
  unfold push_all; simpl; rewrite app_assoc; reflexivity.
Qed.

Lemma get_add_backlink root s p idx l t :
  JSMap.get (add_backlink h root s p idx l) t
  = option_map (push_all (refs root s p t l)) (JSMap.get idx t).
Proof.
  unfold add_backlink, refs, resolveTargetSlug; cbn [LinkIndex.enkiduRoot].
  destruct (ResolvedLink.exists_ (resolveWikiLink h (target l) root)
            && truthy (ResolvedLink.resolvedPath
                         (resolveWikiLink h (target l) root)));
    [|symmetry; apply option_map_push_nil].
  destruct (option_map (getSlugFromPath h)
              (ResolvedLink.resolvedPath (resolveWikiLink h (target l) root)))
    as [ts|]; [|symmetry; apply option_map_push_nil].
  destruct (truthy (Some ts)) eqn:Htruthy; cbn [andb];
    [|symmetry; apply option_map_push_nil].
  destruct (JSMap.has idx ts) eqn:Hhas.
  - rewrite get_update.
    destruct (str_eqb ts t); [reflexivity|].
    symmetry; apply option_map_push_nil.
  - destruct (str_eqb ts t) eqn:Ht; [|symmetry; apply option_map_push_nil].
    apply str_eqb_eq in Ht; subst ts.
    unfold JSMap.has in Hhas.
    destruct (JSMap.get idx t); [discriminate | reflexivity].
Qed.

Lemma get_second_pass_links root s p t links :
  forall idx,
    JSMap.get (fold_left (add_backlink h root s p) links idx) t
    = option_map (push_all (flat_map (refs root s p t) links))
                 (JSMap.get idx t).
Proof.
  induction links as [|l links IH]; intros idx; simpl.
  - symmetry; apply option_map_push_nil.
  - rewrite IH, get_add_backlink, option_map_push_app; reflexivity.
Qed.

Lemma get_second_pass root t (walk : list (jsstring * LinkIndexEntry.t)) :
  forall idx,
    JSMap.get
      (fold_left
         (fun idx se =>
            fold_left
              (add_backlink h root (fst se) (LinkIndexEntry.filePath (snd se)))
              (LinkIndexEntry.outgoingLinks (snd se)) idx)
         walk idx) t
    = option_map
        (push_all
           (flat_map
              (fun se =>
                 flat_map
                   (refs root (fst se) (LinkIndexEntry.filePath (snd se)) t)
                   (LinkIndexEntry.outgoingLinks (snd se)))
              walk))
        (JSMap.get idx t).
Proof.
  induction walk as [|se walk IH]; intros idx; simpl.
  - symmetry; apply option_map_push_nil.
  - rewrite IH, get_second_pass_links, option_map_push_app; reflexivity.
Qed.

Lemma second_pass_static root (walk : list (jsstring * LinkIndexEntry.t)) :
  forall idx,
    List.map static
      (fold_left
         (fun idx se =>
            fold_left
              (add_backlink h root (fst se) (LinkIndexEntry.filePath (snd se)))
              (LinkIndexEntry.outgoingLinks (snd se)) idx)
         walk idx)
    = List.map static idx.
Proof.
  assert (H2 : forall links s p idx,
             List.map static (fold_left (add_backlink h root s p) links idx)
             = List.map static idx).
  { induction links as [|l links IH]; intros s p idx; simpl; [reflexivity|].
    rewrite IH; apply add_backlink_static. }
  induction walk as [|se walk IH]; intros idx; simpl; [reflexivity|].
  rewrite IH; apply H2.
Qed.

(** The backlinks computed from the static parts alone. *)
Lemma flat_map_static root t (m : list (jsstring * LinkIndexEntry.t)) :
  flat_map
    (fun se =>
       flat_map (refs root (fst se) (LinkIndexEntry.filePath (snd se)) t)
                (LinkIndexEntry.outgoingLinks (snd se)))
    m
  = flat_map
      (fun st => flat_map (refs root (fst st) (snd (fst (snd st))) t)
                          (snd (snd st)))
      (List.map static m).
Proof.
  induction m as [|se m IH]; simpl; [reflexivity|].
  rewrite IH; reflexivity.
Qed.

Lemma refs_truthy root s p t l :
  truthy (Some t) = true ->
  refs root s p t l
  = match resolveTargetSlug h {| LinkIndex.index := [];
                                 LinkIndex.enkiduRoot := root |} (target l) with
    | Some ts =>
        if str_eqb ts t
        then [{| LinkReference.sourceSlug := s; LinkReference.sourcePath := p;
                 LinkReference.link := l |}]
        else []
    | None => []
    end.
Proof.
  intros Ht; unfold refs.
  destruct (resolveTargetSlug h _ _) as [ts|]; [|reflexivity].
  destruct (str_eqb ts t) eqn:He; [|rewrite andb_false_r; reflexivity].
  apply str_eqb_eq in He; subst ts; rewrite Ht; reflexivity.
Qed.

Lemma refs_falsy root s p t l : truthy (Some t) = false -> refs root s p t l = [].
Proof.
  intros Ht; unfold refs.
  destruct (resolveTargetSlug h _ _) as [ts|]; [|reflexivity].
  destruct (str_eqb ts t) eqn:He; [|rewrite andb_false_r; reflexivity].
  apply str_eqb_eq in He; subst ts; rewrite Ht; reflexivity.
Qed.

Lemma flat_map_nil {A B} (f : A -> list B) l :
  (forall x, f x = []) -> flat_map f l = [].
Proof.
  intros Hf; induction l as [|x l IH]; simpl; [|rewrite Hf, IH]; reflexivity.
Qed.

(** The backlinks of a note after a build. *)
Lemma buildIndex_getBacklinks this t :
  getBacklinks (buildIndex h this) t
  = if JSMap.has (LinkIndex.index (buildIndex h this)) t && truthy (Some t)
    then backlinks_from h (buildIndex h this) t
    else [].
Proof.
  set (root := LinkIndex.enkiduRoot this).
  set (files := getAllMarkdownFiles h root).
  set (pass1 := fold_left (index_file h) files []).
  assert (Hpass1 : Forall (first_pass_entry h files) pass1).
  { apply first_pass_entries; [apply incl_refl | constructor]. }
  assert (Hstatic : List.map static (LinkIndex.index (buildIndex h this))
                    = List.map static pass1)
    by apply second_pass_static.
  assert (Hhas : JSMap.has (LinkIndex.index (buildIndex h this)) t
                 = JSMap.has pass1 t).
  { unfold JSMap.has, buildIndex; cbn [LinkIndex.index].
    fold root files pass1; rewrite get_second_pass.
    destruct (JSMap.get pass1 t); reflexivity. }
  assert (Hfrom : backlinks_from h (buildIndex h this) t
                  = flat_map
                      (fun st =>
                         flat_map
                           (fun l =>
                              match resolveTargetSlug h
                                      {| LinkIndex.index := [];
                                         LinkIndex.enkiduRoot := root |}
                                      (target l) with
                              | Some ts =>
                                  if str_eqb ts t
                                  then [{| LinkReference.sourceSlug := fst st;
                                           LinkReference.sourcePath :=
                                             snd (fst (snd st));
                                           LinkReference.link := l |}]
                                  else []
                              | None => []
                              end)
                           (snd (snd st)))
                      (List.map static pass1)).
  { rewrite <- Hstatic; unfold backlinks_from, JSMap.entries.
    generalize (LinkIndex.index (buildIndex h this)).
    induction t0 as [|se m IH]; simpl; [reflexivity|].
    rewrite IH; reflexivity. }
  rewrite Hhas, Hfrom.
  unfold getBacklinks, buildIndex; cbn [LinkIndex.index].
  fold root files pass1; rewrite get_second_pass, flat_map_static.
  unfold JSMap.has; destruct (JSMap.get pass1 t) as [e|] eqn:Hget;
    [|reflexivity].
  apply get_In in Hget; rewrite Forall_forall in Hpass1.
  destruct (Hpass1 _ Hget) as (_ & _ & _ & _ & Hinc).
  cbn [option_map andb]; unfold push_all; cbn [LinkIndexEntry.incomingLinks].
  simpl in Hinc; rewrite Hinc; cbn [app].
  destruct (truthy (Some t)) eqn:Ht.
  - apply flat_map_ext; intros st; apply flat_map_ext; intros l.
    apply refs_truthy; assumption.
  - apply flat_map_nil; intros st; apply flat_map_nil; intros l.
    apply refs_falsy; assumption.
Qed.

Lemma buildIndex_first_pass this :
  let files := getAllMarkdownFiles h (LinkIndex.enkiduRoot this) in
  let pass1 := fold_left (index_file h) files [] in
  List.map static (LinkIndex.index (buildIndex h this)) = List.map static pass1
  /\ Forall (first_pass_entry h files) pass1.
Proof.
  split; [apply second_pass_static|].
  apply first_pass_entries; [apply incl_refl | constructor].
Qed.

Lemma map_static_keys m : List.map fst m = List.map fst (List.map static m).
Proof. rewrite map_map; reflexivity. Qed.

(** An entry of a built index is the entry of a scanned, readable file
    under its slug, with the links extracted from the file. *)
Lemma buildIndex_entry_sound this s e :
  In (s, e) (LinkIndex.index (buildIndex h this)) ->
  LinkIndexEntry.slug e = s
  /\ s = getSlugFromPath h (LinkIndexEntry.filePath e)
  /\ In (LinkIndexEntry.filePath e)
        (getAllMarkdownFiles h (LinkIndex.enkiduRoot this))
  /\ exists content,
       readFile h (LinkIndexEntry.filePath e) = Some content
       /\ LinkIndexEntry.outgoingLinks e = extractWikiLinks content.
Proof.
  intros Hin; destruct (buildIndex_first_pass this) as [Hstatic Hpass1].
  apply (in_map static) in Hin; rewrite Hstatic in Hin.
  apply in_map_iff in Hin as ([s0 e0] & Heq & Hin0).
  rewrite Forall_forall in Hpass1.
  destruct (Hpass1 _ Hin0) as (H1 & H2 & H3 & H4 & _).
  unfold static in Heq; simpl in *.
  injection Heq as -> Hslug Hpath Hout.
  rewrite <- Hslug, <- Hpath, <- Hout; auto.
Qed.

Lemma buildIndex_keys this :
  List.map fst (LinkIndex.index (buildIndex h this))
  = List.map fst
      (fold_left (index_file h)
                 (getAllMarkdownFiles h (LinkIndex.enkiduRoot this)) []).
Proof.
  destruct (buildIndex_first_pass this) as [Hstatic _].
  rewrite map_static_keys, Hstatic, <- map_static_keys; reflexivity.
Qed.

Lemma buildIndex_has this f :
  In f (getAllMarkdownFiles h (LinkIndex.enkiduRoot this)) ->
  readFile h f <> None ->
  JSMap.has (LinkIndex.index (buildIndex h this)) (getSlugFromPath h f) = true.
Proof.
  intros Hin Hread; apply has_In; rewrite buildIndex_keys; apply has_In.
  apply first_pass_has; assumption.
Qed.

Lemma buildIndex_length this :
  length (LinkIndex.index (buildIndex h this))
  <= length (getAllMarkdownFiles h (LinkIndex.enkiduRoot this)).
Proof.
  rewrite <- (length_map fst), buildIndex_keys, length_map.
  apply (first_pass_length _ []).
Qed.

(** Two files with one slug: the index is shorter than the list of files. *)
Lemma buildIndex_length_collision this :
  ~ NoDup (List.map (getSlugFromPath h)
                    (getAllMarkdownFiles h (LinkIndex.enkiduRoot this))) ->
  length (LinkIndex.index (buildIndex h this))
  < length (getAllMarkdownFiles h (LinkIndex.enkiduRoot this)).
Proof.
  intros Hdup.
  destruct (Nat.lt_ge_cases
              (length (LinkIndex.index (buildIndex h this)))
              (length (getAllMarkdownFiles h (LinkIndex.enkiduRoot this))))
    as [Hlt|Hge]; [assumption|].
  exfalso; apply Hdup.
  apply NoDup_incl_NoDup
    with (l := List.map fst (LinkIndex.index (buildIndex h this))).
  - apply buildIndex_is_map.
  - rewrite !length_map; assumption.
  - rewrite buildIndex_keys.
    apply (first_pass_keys _ []).
Qed.

End IndexMore.

Section QueryFacts.

Lemma fold_total (entries : list LinkIndexEntry.t) :
  forall z,
    fold_left
      (fun total entry =>
         (total + Z.of_nat (length (LinkIndexEntry.outgoingLinks entry)))%Z)
      entries z
    = (z + Z.of_nat
             (length (flat_map LinkIndexEntry.outgoingLinks entries)))%Z.
Proof.
  induction entries as [|e entries IH]; intros z; simpl; [lia|].
  rewrite IH, length_app; lia.
Qed.

Lemma flat_map_values {B} (f : LinkIndexEntry.t -> list B)
    (m : JSMap.t LinkIndexEntry.t) :
  flat_map f (JSMap.values m) = flat_map (fun se => f (snd se)) m.
Proof.
  unfold JSMap.values; induction m as [|se m IH]; simpl; [reflexivity|].
  rewrite IH; reflexivity.
Qed.

Lemma length_flat_map_if {A B} (p : A -> bool) (g : A -> B) l :
  length (flat_map (fun x => if p x then [g x] else []) l)
  = length (filter p l).
Proof.
  induction l as [|x l IH]; simpl; [reflexivity|].
  destruct (p x); simpl; rewrite IH; reflexivity.
Qed.

Lemma length_flat_map_flat_map {A B C} (f : A -> list B) (g : A -> B -> list C)
    (n : B -> nat) l :
  (forall a b, length (g a b) = n b) ->
  length (flat_map (fun a => flat_map (g a) (f a)) l)
  = list_sum (List.map n (flat_map f l)).
Proof.
  intros Hg; induction l as [|a l IH]; simpl; [reflexivity|].
  rewrite length_app, map_app, list_sum_app, IH; f_equal.
  induction (f a) as [|b bs IHb]; simpl; [reflexivity|].
  rewrite length_app, Hg, IHb; reflexivity.
Qed.

Lemma list_sum_indicator {A} (p : A -> bool) l :
  list_sum (List.map (fun x => if p x then 1 else 0) l) = length (filter p l).
Proof.
  induction l as [|x l IH]; simpl; [reflexivity|].
  destruct (p x); simpl; rewrite IH; reflexivity.
Qed.

Lemma filter_length_negb {A} (p : A -> bool) l :
  length (filter p l) + length (filter (fun x => negb (p x)) l) = length l.
Proof.
  induction l as [|x l IH]; simpl; [reflexivity|].
  destruct (p x); simpl; lia.
Qed.

Lemma findBrokenLinks_length h this :
  length (findBrokenLinks h this)
  = length (filter
              (fun l => negb (ResolvedLink.exists_
                                (resolveWikiLink h (target l)
                                                 (LinkIndex.enkiduRoot this))))
              (all_links this)).
Proof.
  unfold findBrokenLinks, all_links.
  rewrite (length_flat_map_flat_map
             (fun se : jsstring * LinkIndexEntry.t =>
                LinkIndexEntry.outgoingLinks (snd se))
             _
             (fun l => if negb (ResolvedLink.exists_
                                  (resolveWikiLink h (target l)
                                     (LinkIndex.enkiduRoot this)))
                       then 1 else 0)).
  - apply list_sum_indicator.
  - intros se l; destruct (negb _); reflexivity.
Qed.

End QueryFacts.

(** After a build, the backlinks of a note that is in the index (and whose
    slug is not the empty string) are exactly the outgoing links of the
    indexed notes that resolve to it, one backlink per link, in the order of
    the index and of the links; any other slug has none. *)
Theorem buildIndex_backlinks (h : Host) (this : LinkIndex.t) (t : jsstring) :
  getBacklinks (buildIndex h this) t
  = if JSMap.has (LinkIndex.index (buildIndex h this)) t && truthy (Some t)
    then backlinks_from h (buildIndex h this) t
    else [].
Proof. apply buildIndex_getBacklinks. Qed.

(** A build leaves a map with at most one entry per scanned file; every
    entry is that of a scanned, readable file, under the slug of its path and
    with the links extracted from its text; and every scanned file that can
    be read has its slug in the index. *)
Theorem buildIndex_entries (h : Host) (this : LinkIndex.t) :
  let built := LinkIndex.index (buildIndex h this) in
  let files := getAllMarkdownFiles h (LinkIndex.enkiduRoot this) in
  is_map built
  /\ length built <= length files
  /\ (forall s e,
        In (s, e) built ->
        LinkIndexEntry.slug e = s
        /\ s = getSlugFromPath h (LinkIndexEntry.filePath e)
        /\ In (LinkIndexEntry.filePath e) files
        /\ exists content,
             readFile h (LinkIndexEntry.filePath e) = Some content
             /\ LinkIndexEntry.outgoingLinks e = extractWikiLinks content)
  /\ (forall f,
        In f files -> readFile h f <> None ->
        JSMap.has built (getSlugFromPath h f) = true).
Proof.
  intros built files.
  split; [apply buildIndex_is_map|].
  split; [apply buildIndex_length|].
  split; [|intros f; apply buildIndex_has].
  intros s e Hin; apply (@buildIndex_entry_sound h this s e Hin).
Qed.

(** In an index that is a map, the orphans are exactly the slugs that are
    in the index and have no backlinks. *)
Theorem getOrphanedNotes_iff (this : LinkIndex.t) (s : jsstring) :
  is_map (LinkIndex.index this) ->
  (In s (getOrphanedNotes this)
   <-> JSMap.has (LinkIndex.index this) s = true
       /\ getBacklinks this s = []).
Proof.
  intros Hmap; unfold getOrphanedNotes, getBacklinks, JSMap.has, JSMap.entries.
  rewrite in_flat_map; split.
  - intros ([s' e] & Hin & Hs); simpl in Hs.
    destruct (length (LinkIndexEntry.incomingLinks e) =? 0) eqn:Hlen;
      [|destruct Hs].
    destruct Hs as [->|[]].
    rewrite (@In_get _ _ _ _ Hmap Hin).
    apply Nat.eqb_eq, length_zero_iff_nil in Hlen; auto.
  - destruct (JSMap.get (LinkIndex.index this) s) as [e|] eqn:Hget;
      [|intros [? _]; discriminate].
    intros [_ Hnil]; exists (s, e); split; [apply get_In, Hget|].
    simpl; rewrite Hnil; simpl; auto.
Qed.

Lemma getOrphanedNotes_iff_witness :
  let built := buildIndex (Demo.host Demo.two_roots)
                          (Demo.new_index (lit "/pkm")) in
  In (lit "alpha") (getOrphanedNotes built)
  <-> JSMap.has (LinkIndex.index built) (lit "alpha") = true
      /\ getBacklinks built (lit "alpha") = [].
Proof.
  apply (@getOrphanedNotes_iff
           (buildIndex (Demo.host Demo.two_roots) (Demo.new_index (lit "/pkm")))
           (lit "alpha")).
  unfold is_map; vm_compute.
  constructor; [simpl; intros [H|[]]; discriminate|].
  constructor; [simpl; tauto | constructor].
Defined.

(** The statistics count the outgoing links of the index: [totalLinks] is
    their number, [validLinks] the number of those that resolve and
    [brokenLinks] the number of those that do not; so [validLinks] is never
    negative and never more than [totalLinks]. *)
Theorem getStatistics_counts (h : Host) (this : LinkIndex.t) :
  let st := getStatistics h this in
  let resolves l :=
    ResolvedLink.exists_
      (resolveWikiLink h (target l) (LinkIndex.enkiduRoot this)) in
  totalNotes st = Z.of_nat (length (LinkIndex.index this))
  /\ totalLinks st = Z.of_nat (length (all_links this))
  /\ validLinks st = Z.of_nat (length (filter resolves (all_links this)))
  /\ brokenLinks st
     = Z.of_nat (length (filter (fun l => negb (resolves l)) (all_links this)))
  /\ (0 <= validLinks st <= totalLinks st)%Z.
Proof.
  intros st resolves.
  assert (Ht : totalLinks st = Z.of_nat (length (all_links this))).
  { unfold st, getStatistics; cbn [totalLinks].
    rewrite fold_total, flat_map_values; unfold all_links, JSMap.entries; lia. }
  assert (Hb : brokenLinks st
               = Z.of_nat (length (filter (fun l => negb (resolves l))
                                          (all_links this)))).
  { unfold st, getStatistics; cbn [brokenLinks].
    rewrite findBrokenLinks_length; reflexivity. }
  assert (Hv : validLinks st = (totalLinks st - brokenLinks st)%Z)
    by reflexivity.
  pose proof (filter_length_negb resolves (all_links this)) as Hsum.
  repeat split; try assumption; try reflexivity; lia.
Qed.

(** In an index that is a map, every item of [getMostLinkedNotes] names a
    note of the index together with the number of its backlinks; there are
    never more items than notes, nor, for a limit that is not negative, more
    than the limit. *)
Theorem getMostLinkedNotes_items (this : LinkIndex.t) (limit : Z) :
  is_map (LinkIndex.index this) ->
  (forall item,
     In item (getMostLinkedNotes this limit) ->
     JSMap.has (LinkIndex.index this) (MostLinked.slug item) = true
     /\ MostLinked.count item
        = length (getBacklinks this (MostLinked.slug item)))
  /\ length (getMostLinkedNotes this limit) <= length (LinkIndex.index this)
  /\ ((0 <= limit)%Z ->
      length (getMostLinkedNotes this limit) <= Z.to_nat limit).
Proof.
  intros Hmap.
  assert (Heq : getMostLinkedNotes this limit
                = slice0 (sort by_count_desc (backlink_counts this)) limit).
  { unfold getMostLinkedNotes.
    rewrite (fold_set_entries
               (fun e => length (LinkIndexEntry.incomingLinks e)))
      by exact Hmap.
    unfold JSMap.entries, backlink_counts; simpl; rewrite map_map.
    reflexivity. }
  assert (Hlen : length (sort by_count_desc (backlink_counts this))
                 = length (LinkIndex.index this)).
  { rewrite (Permutation_length (sort_perm by_count_desc _)).
    unfold backlink_counts; apply length_map. }
  rewrite Heq, slice0_cases; repeat split.
  - assert (Hin : In item (sort by_count_desc (backlink_counts this)))
      by (destruct (limit <? 0)%Z; eapply In_firstn; eassumption).
    apply (Permutation_in _ (sort_perm by_count_desc _)) in Hin.
    apply in_map_iff in Hin as ([s e] & <- & Hin); simpl.
    unfold JSMap.has; rewrite (@In_get _ _ _ _ Hmap Hin); reflexivity.
  - assert (Hin : In item (sort by_count_desc (backlink_counts this)))
      by (destruct (limit <? 0)%Z; eapply In_firstn; eassumption).
    apply (Permutation_in _ (sort_perm by_count_desc _)) in Hin.
    apply in_map_iff in Hin as ([s e] & <- & Hin); simpl.
    unfold getBacklinks; rewrite (@In_get _ _ _ _ Hmap Hin); reflexivity.
  - rewrite <- Hlen; destruct (limit <? 0)%Z;
      rewrite length_firstn; lia.
  - intros Hlimit; destruct (Z.ltb_spec limit 0); [lia|].
    rewrite length_firstn; lia.
Qed.

Lemma getMostLinkedNotes_items_witness :
  let built := buildIndex (Demo.host Demo.two_roots)
                          (Demo.new_index (lit "/pkm")) in
  (forall item,
     In item (getMostLinkedNotes built 1) ->
     JSMap.has (LinkIndex.index built) (MostLinked.slug item) = true
     /\ MostLinked.count item
        = length (getBacklinks built (MostLinked.slug item)))
  /\ length (getMostLinkedNotes built 1) <= length (LinkIndex.index built)
  /\ ((0 <= 1)%Z -> length (getMostLinkedNotes built 1) <= Z.to_nat 1).
Proof.
  apply (@getMostLinkedNotes_items
           (buildIndex (Demo.host Demo.two_roots) (Demo.new_index (lit "/pkm")))
           1%Z).
  unfold is_map; vm_compute.
  constructor; [simpl; intros [H|[]]; discriminate|].
  constructor; [simpl; tauto | constructor].
Defined.

(* ===================================================================== *)
(** ** The cache and the converter *)
(* ===================================================================== *)

Section CacheFacts.

Lemma reconstruct_entries (m : JSMap.t LinkIndexEntry.t) :
  is_map m -> reconstruct (JSMap.entries m) = m.
Proof.
  intros Hmap; unfold reconstruct, JSMap.entries.
  rewrite (fold_set_entries (fun e : LinkIndexEntry.t => e)) by exact Hmap.
  simpl; rewrite <- (map_id m) at 2.
  apply map_ext; intros [k v]; reflexivity.
Qed.

Lemma resolveWikiLink_exists h linkTarget pkmRoot :
  ResolvedLink.exists_ (resolveWikiLink h linkTarget pkmRoot)
  = linkExists h linkTarget pkmRoot
  /\ ResolvedLink.resolvedPath (resolveWikiLink h linkTarget pkmRoot)
     = findNoteByLink h linkTarget pkmRoot.
Proof.
  unfold resolveWikiLink, linkExists.
  destruct (findNoteByLink_truthy h linkTarget pkmRoot) as [Ht|Hn].
  - rewrite Ht.
    destruct (findNoteByLink h linkTarget pkmRoot); [auto | discriminate].
  - rewrite Hn; auto.
Qed.

Lemma rebuild_ext content r r' links pos :
  (forall l, In l links -> r l = r' l) ->
  rebuild content r links pos = rebuild content r' links pos.
Proof.
  revert pos; induction links as [|l links IH]; intros pos Hr; simpl;
    [reflexivity|].
  rewrite (Hr l (or_introl eq_refl)), IH; [reflexivity|].
  intros l' Hl'; apply Hr; right; exact Hl'.
Qed.

Lemma endsWith_app s suffix : endsWith (s ++ suffix) suffix = true.
Proof.
  unfold endsWith; rewrite length_app.
  replace (length s + length suffix - length suffix) with (length s) by lia.
  rewrite skipn_app_exact, str_eqb_refl.
  destruct (Nat.leb_spec (length suffix) (length s + length suffix));
    [reflexivity | lia].
Qed.

End CacheFacts.

(** Save and load: when the text of the cache file parses to the record that
    [saveCache] wrote for an index, [loadCache] succeeds and installs the
    entries of that index, in the same order. *)
Theorem saveCache_loadCache (h : Host)
    (JSON_parse : jsstring -> option CacheData.t) (savedAt : Z)
    (saved fresh : LinkIndex.t) (cachePath text : jsstring) :
  is_map (LinkIndex.index saved) ->
  fileExists h cachePath = true ->
  readFile h cachePath = Some text ->
  JSON_parse text = Some (saveCache savedAt saved) ->
  loadCache h JSON_parse fresh cachePath
  = (true, {| LinkIndex.index := LinkIndex.index saved;
              LinkIndex.enkiduRoot := LinkIndex.enkiduRoot fresh |}).
Proof.
  intros Hmap Hexists Hread Hparse.
  unfold loadCache; rewrite Hexists, Hread, Hparse; simpl.
  rewrite reconstruct_entries by assumption; reflexivity.
Qed.

Lemma saveCache_loadCache_witness :
  let h := Demo.host Demo.with_cache in
  let built := buildIndex h (Demo.new_index (lit "/pkm")) in
  loadCache h (Demo.JSON_parse (saveCache 1000 built))
            (Demo.new_index (lit "/pkm")) Demo.cache_path
  = (true, {| LinkIndex.index := LinkIndex.index built;
              LinkIndex.enkiduRoot := lit "/pkm" |}).
Proof.
  apply (@saveCache_loadCache (Demo.host Demo.with_cache)
           (Demo.JSON_parse
              (saveCache 1000
                 (buildIndex (Demo.host Demo.with_cache)
                             (Demo.new_index (lit "/pkm")))))
           1000%Z
           (buildIndex (Demo.host Demo.with_cache) (Demo.new_index (lit "/pkm")))
           (Demo.new_index (lit "/pkm")) Demo.cache_path (lit "{...}")).
  - unfold is_map; vm_compute.
    constructor; [simpl; intros [H|[]]; discriminate|].
    constructor; [simpl; tauto | constructor].
  - vm_compute; reflexivity.
  - vm_compute; reflexivity.
  - vm_compute; reflexivity.
Defined.

(** When two scanned markdown files have the same slug, the cache written
    for a freshly built index is never valid, however recent: the index has
    fewer entries than there are files. *)
Theorem cache_invalid_on_slug_collision (h : Host)
    (JSON_parse : jsstring -> option CacheData.t) (now savedAt : Z)
    (enkiduRoot cachePath text : jsstring) :
  let fresh := {| LinkIndex.index := []; LinkIndex.enkiduRoot := enkiduRoot |} in
  ~ NoDup (List.map (getSlugFromPath h) (getAllMarkdownFiles h enkiduRoot)) ->
  readFile h cachePath = Some text ->
  JSON_parse text = Some (saveCache savedAt (buildIndex h fresh)) ->
  isCacheValid h JSON_parse now fresh cachePath = false.
Proof.
  intros fresh Hdup Hread Hparse.
  pose proof (@buildIndex_length_collision h fresh Hdup) as Hlt.
  unfold isCacheValid; rewrite Hread, Hparse.
  destruct (fileExists h cachePath); [|reflexivity].
  cbn [negb CacheData.timestamp CacheData.index saveCache].
  destruct (too_old now (Some savedAt)); [reflexivity|].
  unfold JSMap.entries; simpl in *.
  apply Nat.eqb_neq; lia.
Qed.

Lemma cache_invalid_on_slug_collision_witness :
  let h := Demo.host Demo.same_stem in
  let fresh := {| LinkIndex.index := []; LinkIndex.enkiduRoot := lit "/pkm" |} in
  isCacheValid h (Demo.JSON_parse (saveCache 1000 (buildIndex h fresh))) 1001
               fresh Demo.cache_path
  = false.
Proof.
  apply (@cache_invalid_on_slug_collision (Demo.host Demo.same_stem)
           (Demo.JSON_parse
              (saveCache 1000
                 (buildIndex (Demo.host Demo.same_stem)
                    {| LinkIndex.index := [];
                       LinkIndex.enkiduRoot := lit "/pkm" |})))
           1001%Z 1000%Z (lit "/pkm") Demo.cache_path (lit "{...}")).
  - vm_compute; intros Hnd.
    apply NoDup_cons_iff in Hnd as [Hnd _]; apply Hnd; left; reflexivity.
  - vm_compute; reflexivity.
  - vm_compute; reflexivity.
Defined.

(** With the strategy [keep] (the default), a text none of whose links
    resolves comes out of [convertWikiLinksToMarkdown] unchanged. *)
Theorem convert_keeps_broken_links (h : Host) (lib : PathLib)
    (content sourceFilePath pkmRoot : jsstring)
    (options : LinkConversionOptions) :
  brokenLinkStrategy options = None
  \/ brokenLinkStrategy options = Some Keep ->
  (forall l, In l (extractWikiLinks content) ->
             linkExists h (target l) pkmRoot = false) ->
  convertWikiLinksToMarkdown h lib content sourceFilePath pkmRoot options
  = content.
Proof.
  intros Hkeep Hbroken; unfold convertWikiLinksToMarkdown.
  rewrite replaceWikiLinks_rebuild.
  rewrite (@rebuild_ext content _ raw).
  - destruct (extractWikiLinks_found content) as (Hchain & _ & Hplaced).
    apply (@rebuild_raw content _ 0 Hchain Hplaced).
  - intros l Hl; unfold convertSingleWikiLink.
    destruct (resolveWikiLink_exists h (target l) pkmRoot) as [-> _].
    rewrite (Hbroken l Hl); simpl.
    destruct Hkeep as [-> | ->]; reflexivity.
Qed.

Lemma convert_keeps_broken_links_witness :
  convertWikiLinksToMarkdown (Demo.host Demo.two_roots) Demo.pathlib
    (lit "see [[gamma]] and [[delta|D]]") (lit "/pkm/notes/beta.md")
    (lit "/pkm")
    {| brokenLinkStrategy := None; basePath := None;
       useAbsolutePaths := None |}
  = lit "see [[gamma]] and [[delta|D]]".
Proof.
  apply (@convert_keeps_broken_links (Demo.host Demo.two_roots) Demo.pathlib
           (lit "see [[gamma]] and [[delta|D]]") (lit "/pkm/notes/beta.md")
           (lit "/pkm")
           {| brokenLinkStrategy := None; basePath := None;
              useAbsolutePaths := None |}).
  - left; reflexivity.
  - vm_compute; intros l [<-|[<-|[]]]; reflexivity.
Defined.

(** A link that resolves becomes a markdown link [[text](path)]: the text
    is the display text of the link when it has one (not empty), else the
    title of the note; the path always ends with [.md]. *)
Theorem convert_resolved_link (h : Host) (lib : PathLib) (link : WikiLink)
    (sourceFilePath pkmRoot resolvedPath : jsstring)
    (options : LinkConversionOptions) :
  findNoteByLink h (target link) pkmRoot = Some resolvedPath ->
  exists linkPath,
    convertSingleWikiLink h lib link sourceFilePath pkmRoot options
    = lit "[" ++ or_text (displayText link) (getNoteTitle h lib resolvedPath)
        ++ lit "](" ++ linkPath ++ lit ")"
    /\ endsWith linkPath (lit ".md") = true.
Proof.
  intros Hfound; unfold convertSingleWikiLink.
  destruct (resolveWikiLink_exists h (target link) pkmRoot) as [-> ->].
  unfold linkExists; rewrite Hfound.
  destruct (findNoteByLink_truthy h (target link) pkmRoot) as [Ht|Hn];
    [|congruence].
  rewrite Hfound in Ht; rewrite Ht; cbn [negb orb].
  match goal with
  | |- context [if endsWith ?p (lit ".md") then _ else _] =>
      destruct (endsWith p (lit ".md")) eqn:He;
        [exists p | exists (p ++ lit ".md")]
  end.
  - split; [reflexivity | assumption].
  - split; [reflexivity | apply endsWith_app].
Qed.

Lemma convert_resolved_link_witness :
  let h := Demo.host Demo.two_roots in
  let link := {| raw := lit "[[alpha]]"; target := lit "alpha";
                 displayText := None; startIndex := 0; endIndex := 9;
                 line := Some 1 |} in
  exists linkPath,
    convertSingleWikiLink h Demo.pathlib link (lit "/pkm/notes/beta.md")
      (lit "/pkm")
      {| brokenLinkStrategy := None; basePath := None;
         useAbsolutePaths := Some true |}
    = lit "[" ++ or_text (displayText link)
                         (getNoteTitle h Demo.pathlib (lit "/pkm/blog/alpha.md"))
        ++ lit "](" ++ linkPath ++ lit ")"
    /\ endsWith linkPath (lit ".md") = true.
Proof.
  apply (@convert_resolved_link (Demo.host Demo.two_roots) Demo.pathlib
           {| raw := lit "[[alpha]]"; target := lit "alpha";
              displayText := None; startIndex := 0; endIndex := 9;
              line := Some 1 |}
           (lit "/pkm/notes/beta.md") (lit "/pkm") (lit "/pkm/blog/alpha.md")
           {| brokenLinkStrategy := None; basePath := None;
              useAbsolutePaths := Some true |}).
  vm_compute; reflexivity.
Defined.

(** [validateLinks] reports one error for every link of the text that does
    not resolve, and is valid exactly when every link resolves. *)
Theorem validateLinks_report (h : Host) (content pkmRoot : jsstring) :
  length (snd (validateLinks h content pkmRoot))
  = length (filter (fun l => negb (linkExists h (target l) pkmRoot))
                   (extractWikiLinks content))
  /\ (fst (validateLinks h content pkmRoot) = true
      <-> forall l, In l (extractWikiLinks content) ->
                    linkExists h (target l) pkmRoot = true).
Proof.
  assert (Hlen : length (snd (validateLinks h content pkmRoot))
                 = length (filter
                             (fun l => negb (linkExists h (target l) pkmRoot))
                             (extractWikiLinks content))).
  { unfold validateLinks; cbn [snd].
    rewrite <- (length_flat_map_if
                  (fun l => negb (linkExists h (target l) pkmRoot))
                  (fun l => broken_link_message l
                              (resolveWikiLink h (target l) pkmRoot))).
    f_equal; apply flat_map_ext; intros l.
    destruct (resolveWikiLink_exists h (target l) pkmRoot) as [-> _].
    reflexivity. }
  split; [exact Hlen|].
  unfold validateLinks in *; cbn [fst snd] in *; rewrite Hlen, Nat.eqb_eq.
  rewrite length_zero_iff_nil; split.
  - intros Hnil l Hl.
    destruct (linkExists h (target l) pkmRoot) eqn:He; [reflexivity|].
    assert (Hin : In l (filter
                          (fun l => negb (linkExists h (target l) pkmRoot))
                          (extractWikiLinks content)))
      by (apply filter_In; rewrite He; auto).
    rewrite Hnil in Hin; destruct Hin.
  - intros Hall.
    destruct (filter (fun l => negb (linkExists h (target l) pkmRoot))
                     (extractWikiLinks content)) as [|l ls] eqn:Hf;
      [reflexivity|].
    assert (Hin : In l (l :: ls)) by (left; reflexivity).
    rewrite <- Hf in Hin; apply filter_In in Hin as [Hin Hneg].
    rewrite (Hall l Hin) in Hneg; discriminate.
Qed.

(** The message for a broken link found on line 3, with a suggestion. *)
Example validateLinks_message :
  snd (validateLinks (Demo.host Demo.greek)
         (JS.lit "# notes" ++ [LF; LF] ++ lit "see [[gamma]]") (lit "/pkm"))
  = [lit "Broken link: [[gamma]] (line 3) - Did you mean: gamme?"].
Proof. vm_compute; reflexivity. Qed.

(* ===================================================================== *)
(** ** Lines, daily notes, loading or building *)
(* ===================================================================== *)

Section LineFacts.

Lemma exec_loop_acc fuel ln lineStart lineNumber :
  forall lastIndex links,
    exec_loop fuel ln lineStart lineNumber lastIndex links
    = links ++ exec_loop fuel ln lineStart lineNumber lastIndex [].
Proof.
  induction fuel as [|fuel IH]; intros li links; simpl.
  - symmetry; apply app_nil_r.
  - destruct (exec ln li) as [[m|] li']; [|symmetry; apply app_nil_r].
    rewrite IH, (IH li' [_]), app_assoc; reflexivity.
Qed.

Lemma for_lines_acc lines :
  forall lineNumber currentIndex links,
    for_lines lines lineNumber currentIndex links
    = links ++ for_lines lines lineNumber currentIndex [].
Proof.
  induction lines as [|ln lines IH]; intros n c links; cbn [for_lines].
  - symmetry; apply app_nil_r.
  - rewrite IH, exec_loop_acc, (IH _ _ (exec_loop _ _ _ _ _ [])).
    symmetry; apply app_assoc.
Qed.

Lemma exec_loop_shift fuel ln lineStart lineNumber :
  forall lastIndex,
    exec_loop fuel ln lineStart lineNumber lastIndex []
    = List.map (shift_link lineStart lineNumber)
               (exec_loop fuel ln 0 0 lastIndex []).
Proof.
  induction fuel as [|fuel IH]; intros li; simpl; [reflexivity|].
  destruct (exec ln li) as [[m|] li']; [|reflexivity].
  rewrite exec_loop_acc, (exec_loop_acc fuel ln 0 0 li' [_]), IH.
  rewrite map_app; f_equal; simpl; f_equal.
  unfold shift_link; simpl; f_equal; lia.
Qed.

Lemma shift_shift c n c' n' l :
  shift_link c n (shift_link c' n' l) = shift_link (c + c') (n + n') l.
Proof.
  unfold shift_link; simpl; f_equal; try lia.
  destruct (line l); simpl; f_equal; lia.
Qed.

Lemma for_lines_shift lines :
  forall lineNumber currentIndex,
    for_lines lines lineNumber currentIndex []
    = List.map (shift_link currentIndex lineNumber) (for_lines lines 0 0 []).
Proof.
  induction lines as [|ln lines IH]; intros n c; cbn [for_lines];
    [reflexivity|].
  rewrite for_lines_acc, (for_lines_acc lines 1), map_app.
  rewrite exec_loop_shift; f_equal.
  rewrite IH, (IH 1), map_map.
  apply map_ext; intros l; rewrite shift_shift; f_equal; lia.
Qed.

Lemma for_lines_app l1 :
  forall l2 lineNumber currentIndex links,
    for_lines (l1 ++ l2) lineNumber currentIndex links
    = for_lines l2 (lineNumber + length l1)
        (currentIndex
         + list_sum (List.map (fun ln => length ln + 1) l1))
        (for_lines l1 lineNumber currentIndex links).
Proof.
  induction l1 as [|ln l1 IH]; intros l2 n c links; simpl.
  - rewrite !Nat.add_0_r; reflexivity.
  - rewrite IH; f_equal; lia.
Qed.

Lemma split_lines_app a b :
  split_lines (a ++ LF :: b) = split_lines a ++ split_lines b.
Proof.
  induction a as [|c a IH]; [reflexivity|].
  cbn [app split_lines].
  - rewrite IH; destruct (N.eqb c LF); [reflexivity|].
    pose proof (split_lines_not_nil a).
    destruct (split_lines a); [congruence | reflexivity].
Qed.

Lemma split_lines_length a : length (split_lines a) = count_LF a + 1.
Proof.
  induction a as [|c a IH]; [reflexivity|].
  rewrite count_LF_cons; cbn [split_lines]; rewrite (N.eqb_sym c LF).
  destruct (N.eqb LF c); simpl; [rewrite IH; reflexivity|].
  pose proof (split_lines_not_nil a).
  destruct (split_lines a); [congruence | exact IH].
Qed.

Lemma split_lines_total a :
  list_sum (List.map (fun ln => length ln + 1) (split_lines a)) = length a + 1.
Proof.
  induction a as [|c a IH]; [reflexivity|]; cbn [split_lines].
  destruct (N.eqb c LF); simpl; [rewrite IH; lia|].
  pose proof (split_lines_not_nil a).
  destruct (split_lines a); [congruence|]; simpl in *; lia.
Qed.

End LineFacts.

(** Lines are parsed one by one: the links of a text followed by a newline
    and more text are the links of the text, then those of the rest, moved
    down by the length of the text plus 1 and by its number of lines. *)
Theorem extractWikiLinks_newline (a b : jsstring) :
  extractWikiLinks (a ++ LF :: b)
  = extractWikiLinks a
      ++ List.map (shift_link (length a + 1) (count_LF a + 1))
                  (extractWikiLinks b).
Proof.
  unfold extractWikiLinks.
  rewrite split_lines_app, for_lines_app, for_lines_acc.
  rewrite split_lines_length, split_lines_total; simpl.
  f_equal; apply for_lines_shift.
Qed.

Section DailyFacts.

Lemma date_path_match_here s d :
  date_path_here s = Some d -> date_path_match s = Some d.
Proof.
  intros Hd; destruct s as [|c s]; [cbv in Hd; discriminate|].
  cbn [date_path_match]; rewrite Hd; reflexivity.
Qed.

Lemma date_path_here_date year month day :
  length year = 4 -> length month = 2 -> length day = 2 ->
  forallb isDigit year = true -> forallb isDigit month = true ->
  forallb isDigit day = true ->
  date_path_here (year ++ 47%N :: month ++ 47%N :: day ++ lit ".md")
  = Some (year, month, day).
Proof.
  intros Ly Lm Ld Hy Hm Hd; unfold date_path_here.
  rewrite (digits_app _ _ Ly Hy); cbv beta iota.
  rewrite separator_here; cbv beta iota.
  rewrite (digits_app _ _ Lm Hm); cbv beta iota.
  rewrite separator_here; cbv beta iota.
  rewrite (digits_app _ _ Ld Hd); reflexivity.
Qed.

Lemma digit_not_slash c : isDigit c = true -> N.eqb 47 c = false.
Proof.
  intros Hc; destruct (N.eqb_spec 47 c) as [<-|]; [discriminate | reflexivity].
Qed.

Lemma digit_not_d c : isDigit c = true -> N.eqb 100 c = false.
Proof.
  intros Hc; destruct (N.eqb_spec 100 c) as [<-|]; [discriminate | reflexivity].
Qed.

(** There is no [/daily/] in [YYYY/MM/DD.md]. *)
Lemma cut_daily_date year month day :
  length year = 4 -> length month = 2 -> length day = 2 ->
  forallb isDigit year = true -> forallb isDigit month = true ->
  forallb isDigit day = true ->
  cut (lit "/daily/") (year ++ 47%N :: month ++ 47%N :: day ++ lit ".md")
  = None.
Proof.
  intros Ly Lm Ld Hy Hm Hd.
  destruct year as [|y1 [|y2 [|y3 [|y4 [|]]]]]; try discriminate.
  destruct month as [|m1 [|m2 [|]]]; try discriminate.
  destruct day as [|d1 [|d2 [|]]]; try discriminate.
  cbn [forallb] in Hy, Hm, Hd.
  repeat rewrite andb_true_iff in Hy.
  repeat rewrite andb_true_iff in Hm.
  repeat rewrite andb_true_iff in Hd.
  destruct Hy as (Hy1 & Hy2 & Hy3 & Hy4 & _).
  destruct Hm as (Hm1 & Hm2 & _); destruct Hd as (Hd1 & Hd2 & _).
  change (lit "/daily/") with [47%N; 100%N; 97%N; 105%N; 108%N; 121%N; 47%N].
  change (lit ".md") with [46%N; 109%N; 100%N].
  cbn [app cut strip_prefix].
  rewrite (digit_not_slash _ Hy1), (digit_not_slash _ Hy2),
    (digit_not_slash _ Hy3), (digit_not_slash _ Hy4),
    (digit_not_slash _ Hm1), (digit_not_slash _ Hm2),
    (digit_not_slash _ Hd1), (digit_not_slash _ Hd2),
    (digit_not_d _ Hm1), (digit_not_d _ Hd1).
  reflexivity.
Qed.

End DailyFacts.

(** A daily note, stored as [.../daily/YYYY/MM/DD.md], is indexed under the
    slug [YYYY-MM-DD], whatever the file name functions of the host. *)
Theorem getSlugFromPath_daily (h : Host) (before year month day : jsstring) :
  length year = 4 -> length month = 2 -> length day = 2 ->
  forallb isDigit year = true -> forallb isDigit month = true ->
  forallb isDigit day = true ->
  let datePath := year ++ lit "/" ++ month ++ lit "/" ++ day ++ lit ".md" in
  cut (lit "/daily/") (before ++ lit "/daily/" ++ datePath)
  = Some (before, datePath) ->
  getSlugFromPath h (before ++ lit "/daily/" ++ datePath)
  = year ++ lit "-" ++ month ++ lit "-" ++ day.
Proof.
  intros Ly Lm Ld Hy Hm Hd datePath Hcut.
  unfold getSlugFromPath; rewrite Hcut.
  assert (Hpath : datePath = year ++ 47%N :: month ++ 47%N :: day ++ lit ".md")
    by reflexivity.
  rewrite Hpath, (cut_daily_date _ _ _ Ly Lm Ld Hy Hm Hd).
  rewrite (date_path_match_here _ (date_path_here_date _ _ _ Ly Lm Ld Hy Hm Hd)).
  reflexivity.
Qed.

Lemma getSlugFromPath_daily_witness :
  getSlugFromPath (Demo.host [])
    (lit "/pkm" ++ lit "/daily/"
       ++ (lit "2026" ++ lit "/" ++ lit "02" ++ lit "/" ++ lit "15"
             ++ lit ".md"))
  = lit "2026" ++ lit "-" ++ lit "02" ++ lit "-" ++ lit "15".
Proof.
  apply (@getSlugFromPath_daily (Demo.host []) (lit "/pkm") (lit "2026")
           (lit "02") (lit "15"));
    reflexivity.
Defined.

Section LoadFacts.

Lemma buildIndex_root h a b :
  LinkIndex.enkiduRoot a = LinkIndex.enkiduRoot b ->
  buildIndex h a = buildIndex h b.
Proof. unfold buildIndex; intros ->; reflexivity. Qed.

Lemma loadCache_result h JSON_parse this cachePath :
  LinkIndex.enkiduRoot (snd (loadCache h JSON_parse this cachePath))
  = LinkIndex.enkiduRoot this
  /\ (fst (loadCache h JSON_parse this cachePath) = true ->
      is_map (LinkIndex.index (snd (loadCache h JSON_parse this cachePath)))).
Proof.
  unfold loadCache.
  destruct (fileExists h cachePath); simpl; [|split; [auto | discriminate]].
  destruct (readFile h cachePath) as [content|];
    [|split; [auto | discriminate]].
  destruct (JSON_parse content) as [cacheData|];
    [|split; [auto | discriminate]].
  destruct (str_eqb (CacheData.version cacheData) (lit "1.0.0")); simpl;
    [|split; [auto | discriminate]].
  destruct (CacheData.index cacheData) as [cached|]; simpl;
    [|split; [auto | discriminate]].
  split; [reflexivity | intros _; apply reconstruct_is_map].
Qed.

End LoadFacts.

(** [loadOrBuildLinkIndex] has three outcomes.  It resolves with the cached
    index, writing nothing, when a cache path is given and [isCacheValid]
    and [loadCache] both accept the cache.  Otherwise it builds: without a
    cache path it resolves with the build and writes nothing; with one, it
    hands the text of the [saveCache] record of the build, stamped at save
    time, to [writeFile] for that path, and resolves with the build when the
    write goes through, and rejects when it throws.  An index it resolves
    with is a map, for the given root. *)
Theorem loadOrBuildLinkIndex_result (h : Host)
    (JSON_parse : jsstring -> option CacheData.t) (d : Disk) (now savedAt : Z)
    (enkiduRoot : jsstring) (cachePath : option jsstring) :
  let fresh := {| LinkIndex.index := []; LinkIndex.enkiduRoot := enkiduRoot |} in
  let built := buildIndex h fresh in
  let text := JSON_stringify d (saveCache savedAt built) in
  let refused path :=
    isCacheValid h JSON_parse now fresh path = false
    \/ fst (loadCache h JSON_parse fresh path) = false in
  match loadOrBuildLinkIndex h JSON_parse d now savedAt enkiduRoot cachePath
  with
  | Resolved loaded written =>
      is_map (LinkIndex.index loaded)
      /\ LinkIndex.enkiduRoot loaded = enkiduRoot
      /\ match cachePath with
         | Some path =>
             if truthy cachePath
             then
               (isCacheValid h JSON_parse now fresh path = true
                /\ loadCache h JSON_parse fresh path = (true, loaded)
                /\ written = None)
               \/ (refused path
                   /\ loaded = built
                   /\ written = Some (path, text)
                   /\ writeFile d path text = true)
             else loaded = built /\ written = None
         | None => loaded = built /\ written = None
         end
  | Rejected =>
      exists path,
        cachePath = Some path /\ path <> []
        /\ refused path
        /\ writeFile d path text = false
  end.
Proof.
  intros fresh built text refused.
  unfold loadOrBuildLinkIndex, saveCache_write; fold fresh.
  assert (Hbuilt : is_map (LinkIndex.index built)
                   /\ LinkIndex.enkiduRoot built = enkiduRoot).
  { split; [apply buildIndex_is_map | reflexivity]. }
  destruct Hbuilt as [Hmap Hroot].
  destruct cachePath as [path|]; [|fold built; auto].
  destruct (truthy (Some path)) eqn:Hpath; [|fold built; auto].
  pose proof Hpath as Hne; apply truthy_Some in Hne.
  assert (Hrebuild : forall this,
             LinkIndex.enkiduRoot this = enkiduRoot ->
             refused path ->
             match
               match
                 (if writeFile d path
                       (JSON_stringify d (saveCache savedAt (buildIndex h this)))
                  then Some (path,
                             JSON_stringify d
                               (saveCache savedAt (buildIndex h this)))
                  else None)
               with
               | Some written => Resolved (buildIndex h this) (Some written)
               | None => Rejected
               end
             with
             | Resolved loaded written =>
                 is_map (LinkIndex.index loaded)
                 /\ LinkIndex.enkiduRoot loaded = enkiduRoot
                 /\ ((isCacheValid h JSON_parse now fresh path = true
                      /\ loadCache h JSON_parse fresh path = (true, loaded)
                      /\ written = None)
                     \/ (refused path
                         /\ loaded = built
                         /\ written = Some (path, text)
                         /\ writeFile d path text = true))
             | Rejected =>
                 exists path0,
                   Some path = Some path0 /\ path0 <> []
                   /\ refused path0
                   /\ writeFile d path0 text = false
             end).
  { intros this Hthis Href.
    rewrite (@buildIndex_root h this fresh Hthis); fold built; fold text.
    destruct (writeFile d path text) eqn:Hw.
    - split; [assumption|]; split; [assumption|]; right; auto.
    - exists path; auto. }
  destruct (isCacheValid h JSON_parse now fresh path) eqn:Hvalid;
    [|apply Hrebuild; [reflexivity | left; exact Hvalid]].
  pose proof (loadCache_result h JSON_parse fresh path) as [Hr Hm].
  destruct (loadCache h JSON_parse fresh path) as [[|] this] eqn:Hload;
    simpl in Hr, Hm.
  - split; [auto|]; split; [assumption|]; left; auto.
  - apply Hrebuild; [assumption | right; rewrite Hload; reflexivity].
Qed.

(** The three outcomes on the corpus [Demo.two_roots], whose cache file is
    absent: without a cache path nothing is written; with one, the build is
    written, or the promise rejected when the disk refuses the write. *)
Example loadOrBuildLinkIndex_outcomes :
  let h := Demo.host Demo.two_roots in
  let parse := Demo.JSON_parse (Demo.cache_record (lit "1.0.0") 0) in
  let built := buildIndex h (Demo.new_index (lit "/pkm")) in
  loadOrBuildLinkIndex h parse (Demo.disk false) 10 20 (lit "/pkm") None
  = Resolved built None
  /\ loadOrBuildLinkIndex h parse (Demo.disk true) 10 20 (lit "/pkm")
       (Some Demo.cache_path)
     = Resolved built (Some (Demo.cache_path, lit "{...}"))
  /\ loadOrBuildLinkIndex h parse (Demo.disk false) 10 20 (lit "/pkm")
       (Some Demo.cache_path)
     = Rejected.
Proof. vm_compute; auto. Qed.
